(** * bigval: scaled decimal values over the decimal.js engine

    A shallow embedding of [src/index.ts] (the class [BigVal] with the
    enum [BigValScale]) and of the revisions of the same class that tag
    scales with the strings ['min'] and ['coins'], over a model of the
    arbitrary-precision engine the class wraps,
    [PreciseDecimal = Decimal.clone({ defaults: true, toExpPos: 33 })].

    Instances and engine values live in a store and are referred to by
    address, so that copying, aliasing and the one field assignment of the
    class ([n._scale = ...]) are visible; methods are computations over
    the store that return or throw.

    Scope. Numbers are integral ([JNum]); strings are byte strings; the
    engine model covers parsing, [plus], [minus], [times], [div], the
    comparisons, [pow] with base ten and an integral exponent, rounding
    to decimal places, and the decimal, fixed-point, binary and
    hexadecimal printers. [toNumber], which returns a floating-point
    number, is left out.

    Layout: positional digits, the engine, JS string helpers, the store
    and its monad, the class in its revisions, the vocabulary of the
    statements; then the facts, the claims C1 to C10, and further
    properties X1 onwards of the code around them. *)

From Stdlib Require Import ZArith NArith Lia Bool List Ascii String.
From stdpp Require Import base option gmap strings list.

Import ListNotations.
Local Open Scope N_scope.

(* ===================================================================== *)
(** ** Positional digits *)
(* ===================================================================== *)

Module Digits.

(** Most significant digit first; [fuel] bounds the number of divisions. *)
Fixpoint digits_aux (b : N) (fuel : nat) (n : N) (acc : list N) : list N :=
  match fuel with
  | O => acc
  | S f => if N.eqb n 0 then acc
           else digits_aux b f (n / b) (n mod b :: acc)
  end.

(** The digits of [n] in base [b]; the empty list for zero. *)
Definition to_digits (b n : N) : list N :=
  digits_aux b (N.to_nat (N.size n)) n [].

Definition ndigits (b n : N) : nat := length (to_digits b n).

Definition of_digits (b : N) (ds : list N) : N :=
  fold_left (fun acc d => b * acc + d) ds 0.

(** Drop the [k] least significant digits, rounding half up (half away
    from zero on the magnitude): decimal.js rounding mode 4. *)
Definition round_half_up (b : N) (c : N) (k : nat) : N :=
  let p := b ^ N.of_nat k in
  let q := c / p in
  if p <=? 2 * (c mod p) then q + 1 else q.

(** Keep at most [sd] significant digits of [c * b^e]. *)
Definition round_sd (b : N) (sd : nat) (c : N) (e : Z) : N * Z :=
  let n := ndigits b c in
  if (sd <? n)%nat
  then (round_half_up b c (n - sd), (e + Z.of_nat (n - sd))%Z)
  else (c, e).

(** Remove trailing zero digits, moving them into the exponent. *)
Fixpoint strip_aux (b : N) (fuel : nat) (c : N) (e : Z) : N * Z :=
  match fuel with
  | O => (c, e)
  | S f => if N.eqb c 0 then (0, 0%Z)
           else if N.eqb (c mod b) 0 then strip_aux b f (c / b) (e + 1)%Z
           else (c, e)
  end.

Definition strip (b : N) (c : N) (e : Z) : N * Z :=
  if N.eqb c 0 then (0, 0%Z) else strip_aux b (N.to_nat (N.size c)) c e.

(** [NUMERALS = '0123456789abcdef'] *)
Definition numeral (d : N) : ascii :=
  if d <? 10 then ascii_of_N (48 + d) else ascii_of_N (87 + d).

Definition is_digit (a : ascii) : bool :=
  let n := N_of_ascii a in (48 <=? n) && (n <=? 57).

Definition digit_val (a : ascii) : N := N_of_ascii a - 48.

(** Value of a hexadecimal digit in either case, if it is one. *)
Definition hex_val (a : ascii) : option N :=
  let n := N_of_ascii a in
  if (48 <=? n) && (n <=? 57) then Some (n - 48)
  else if (97 <=? n) && (n <=? 102) then Some (n - 87)
  else if (65 <=? n) && (n <=? 70) then Some (n - 55)
  else None.

(** Longest prefix of decimal digits, and what follows it. *)
Fixpoint span_digits (l : list ascii) : list ascii * list ascii :=
  match l with
  | a :: r => if is_digit a
              then let '(ds, rest) := span_digits r in (a :: ds, rest)
              else ([], l)
  | [] => ([], [])
  end.

(** A remainder at which a run of digits ends. *)
Definition stops (rest : list ascii) : Prop :=
  match rest with [] => True | a :: _ => is_digit a = false end.

Definition chars_value (ds : list ascii) : N :=
  fold_left (fun acc a => 10 * acc + digit_val a) ds 0.

Definition zeros (k : nat) : list ascii := repeat "0"%char k.

(** The characters of a positional binary numeral. *)
Definition binary_char (a : ascii) : Prop :=
  a = "0"%char \/ a = "1"%char \/ a = "."%char.

Definition render (b n : N) : list ascii := map numeral (to_digits b n).

End Digits.

(* ===================================================================== *)
(** ** The engine: decimal.js as configured by [PreciseDecimal] *)
(* ===================================================================== *)

(** [const PreciseDecimal = Decimal.clone({ defaults: true, toExpPos: 33 })].
    The library is an external dependency; this module states its
    documented contract for the operations [BigVal] calls: values are NaN,
    signed infinities and signed finite decimals; the constructor is exact;
    [plus], [minus], [times] and [div] round their result to [precision]
    significant digits with rounding mode ROUND_HALF_UP; results whose
    exponent leaves [minE, maxE] become zero or infinity. *)
Module PreciseDecimal.
Import Digits.

(** [Fin neg c e] is [(-1)^neg * c * 10^e]; zero keeps its sign. *)
Inductive t : Type :=
| NaN
| Inf (neg : bool)
| Fin (neg : bool) (c : N) (e : Z).

Definition precision : nat := 20.
Definition toExpNeg : Z := (-7)%Z.
Definition toExpPos : Z := 33%Z.
Definition maxE : Z := 9000000000000000%Z.
Definition minE : Z := (-9000000000000000)%Z.

(** Exponent of the leading digit (the field [e] of a decimal.js value). *)
Definition sci_exp (c : N) (e : Z) : Z := (e + Z.of_nat (ndigits 10 c) - 1)%Z.

(** Overflow to infinity, underflow to zero. *)
Definition clamp (neg : bool) (ce : N * Z) : t :=
  let '(c, e) := ce in
  if N.eqb c 0 then Fin neg 0 0
  else if (maxE <? sci_exp c e)%Z then Inf neg
  else if (sci_exp c e <? minE)%Z then Fin neg 0 0
  else Fin neg c e.

(** What the constructor builds from a sign, digits and an exponent:
    no rounding. *)
Definition of_parts (neg : bool) (c : N) (e : Z) : t :=
  clamp neg (strip 10 c e).

(** [finalise(x, precision, rounding)] on an exact intermediate result. *)
Definition finalise (neg : bool) (c : N) (e : Z) : t :=
  let '(c1, e1) := round_sd 10 precision c e in
  clamp neg (strip 10 c1 e1).

(** Normal forms: no trailing zero in the coefficient, exponent in range. *)
Definition wf (x : t) : Prop :=
  match x with
  | Fin _ c e =>
      (c = 0 /\ e = 0%Z) \/
      (c <> 0 /\ c mod 10 <> 0 /\ (minE <= sci_exp c e <= maxE)%Z)
  | _ => True
  end.

Definition is_zero (x : t) : bool :=
  match x with Fin _ c _ => N.eqb c 0 | _ => false end.

Definition negate (x : t) : t :=
  match x with
  | NaN => NaN
  | Inf s => Inf (negb s)
  | Fin s c e => Fin (negb s) c e
  end.

(** The value with the sign of a zero erased: what survives a trip
    through [toString] (which prints both zeros as ["0"]). *)
Definition unsigned_zero (x : t) : t :=
  match x with
  | Fin _ 0 _ => Fin false 0 0
  | _ => x
  end.

Definition signed (neg : bool) (c : N) : Z :=
  if neg then (- Z.of_N c)%Z else Z.of_N c.

(** Coefficient of [c * 10^e] at the smaller exponent [e0 <= e]. *)
Definition at_exp (neg : bool) (c : N) (e e0 : Z) : Z :=
  (signed neg c * 10 ^ (e - e0))%Z.

Definition plus (x y : t) : t :=
  match x, y with
  | NaN, _ | _, NaN => NaN
  | Inf s1, Inf s2 => if Bool.eqb s1 s2 then Inf s1 else NaN
  | Inf s1, Fin _ _ _ => Inf s1
  | Fin _ _ _, Inf s2 => Inf s2
  | Fin s1 c1 e1, Fin s2 c2 e2 =>
      let e0 := Z.min e1 e2 in
      let v := (at_exp s1 c1 e1 e0 + at_exp s2 c2 e2 e0)%Z in
      if Z.eqb v 0 then Fin (s1 && s2) 0 0
      else finalise (v <? 0)%Z (Z.abs_N v) e0
  end.

Definition minus (x y : t) : t := plus x (negate y).

Definition times (x y : t) : t :=
  match x, y with
  | NaN, _ | _, NaN => NaN
  | Inf s1, Inf s2 => Inf (xorb s1 s2)
  | Inf s1, Fin s2 c2 _ => if N.eqb c2 0 then NaN else Inf (xorb s1 s2)
  | Fin s1 c1 _, Inf s2 => if N.eqb c1 0 then NaN else Inf (xorb s1 s2)
  | Fin s1 c1 e1, Fin s2 c2 e2 =>
      if N.eqb c1 0 || N.eqb c2 0 then Fin (xorb s1 s2) 0 0
      else finalise (xorb s1 s2) (c1 * c2) (e1 + e2)
  end.

(** The quotient is computed with more than [precision] digits and then
    rounded; under ROUND_HALF_UP the discarded remainder never matters. *)
Definition div (x y : t) : t :=
  match x, y with
  | NaN, _ | _, NaN => NaN
  | Inf _, Inf _ => NaN
  | Inf s1, Fin s2 _ _ => Inf (xorb s1 s2)
  | Fin s1 _ _, Inf s2 => Fin (xorb s1 s2) 0 0
  | Fin s1 c1 e1, Fin s2 c2 e2 =>
      if N.eqb c2 0 then (if N.eqb c1 0 then NaN else Inf (xorb s1 s2))
      else if N.eqb c1 0 then Fin (xorb s1 s2) 0 0
      else
        let k := (ndigits 10 c2 + S precision)%nat in
        finalise (xorb s1 s2) (c1 * 10 ^ N.of_nat k / c2)
                 (e1 - e2 - Z.of_nat k)
  end.

(** [cmp]: [None] stands for the NaN answer. *)
Definition cmp (x y : t) : option comparison :=
  match x, y with
  | NaN, _ | _, NaN => None
  | Inf s1, Inf s2 =>
      Some (if Bool.eqb s1 s2 then Eq else if s1 then Lt else Gt)
  | Inf s1, Fin _ _ _ => Some (if s1 then Lt else Gt)
  | Fin _ _ _, Inf s2 => Some (if s2 then Gt else Lt)
  | Fin s1 c1 e1, Fin s2 c2 e2 =>
      let e0 := Z.min e1 e2 in
      Some (Z.compare (at_exp s1 c1 e1 e0) (at_exp s2 c2 e2 e0))
  end.

Definition gt (x y : t) : bool :=
  match cmp x y with Some Gt => true | _ => false end.
Definition gte (x y : t) : bool :=
  match cmp x y with Some Gt | Some Eq => true | _ => false end.
Definition lt (x y : t) : bool :=
  match cmp x y with Some Lt => true | _ => false end.
Definition lte (x y : t) : bool :=
  match cmp x y with Some Lt | Some Eq => true | _ => false end.
Definition eq (x y : t) : bool :=
  match cmp x y with Some Eq => true | _ => false end.

Definition ten : t := Fin false 1 1.
Definition one : t := Fin false 1 0.

Definition is_ten (x : t) : bool :=
  match x with
  | Fin false 1 1%Z => true
  | _ => false
  end.

(** [x.pow(y)] for the one base the class uses, [x = 10], and any [y]
    that is not a proper fraction; [None] marks arguments outside this
    fragment. Powers of ten have a one-digit coefficient, so the
    only effect of [finalise] is the range check. *)
Definition pow (x y : t) : option t :=
  if is_ten x then
    match y with
    | NaN => Some NaN
    | Inf false => Some (Inf false)
    | Inf true => Some (Fin false 0 0)
    | Fin s c e =>
        if N.eqb c 0 then Some one
        else if (0 <=? e)%Z
             then Some (finalise false 1 (signed s c * 10 ^ e)%Z)
             else None
    end
  else None.

(** The value of [toDecimal(10).pow(toDecimal(D))] for an integer [D]. *)
Definition pow10 (D : Z) : t := finalise false 1 D.

(** *** Printing *)

Definition N_chars (n : N) : list ascii :=
  if N.eqb n 0 then ["0"%char] else render 10 n.

(** A JS integer number as the template literal prints it. *)
Definition Z_chars (z : Z) : list ascii :=
  if (z <? 0)%Z then "-"%char :: N_chars (Z.abs_N z) else N_chars (Z.abs_N z).

(** The exponent part of exponential notation: ["e-7"], ["e+33"]. *)
Definition exp_suffix (E : Z) : list ascii :=
  ((if (E <? 0)%Z then ["e"%char] else ["e"; "+"]%char) ++ Z_chars E)%list.

(** [finiteToString(x, isExp)] for a non-zero coefficient. *)
Definition finite_chars (c : N) (e : Z) : list ascii :=
  let ds := render 10 c in
  let len := Z.of_nat (length ds) in
  let E := sci_exp c e in
  if (E <=? toExpNeg)%Z || (toExpPos <=? E)%Z then
    let mant := match ds with
                | d :: (_ :: _) as r => d :: "."%char :: r
                | _ => ds
                end in
    mant ++ exp_suffix E
  else if (E <? 0)%Z then
    ["0"; "."]%char ++ zeros (Z.to_nat (- E - 1)) ++ ds
  else if (len <=? E)%Z then
    ds ++ zeros (Z.to_nat (E + 1 - len))
  else if (E + 1 <? len)%Z then
    take (Z.to_nat (E + 1)) ds ++ "."%char :: drop (Z.to_nat (E + 1)) ds
  else ds.

Definition toString_chars (x : t) : list ascii :=
  match x with
  | NaN => list_ascii_of_string "NaN"
  | Inf neg => (if neg then ["-"%char] else []) ++ list_ascii_of_string "Infinity"
  | Fin neg c e =>
      if N.eqb c 0 then ["0"%char]
      else (if neg then ["-"%char] else []) ++ finite_chars c e
  end.

(** [x.toString()]: the sign of a zero is not printed. *)
Definition toString (x : t) : string := string_of_list_ascii (toString_chars x).

(** Digits of a positive [c * 10^e] in base [b], rounded to [precision]
    significant base-[b] digits, in positional notation. *)
Definition base_chars (b : N) (c : N) (e : Z) : list ascii :=
  let num := c * 10 ^ Z.to_N e in
  let den := 10 ^ Z.to_N (- e) in
  let s := (ndigits b den + S precision)%nat in
  let q := num * b ^ N.of_nat s / den in
  let '(c1, e1) := round_sd b precision q (- Z.of_nat s) in
  let '(m, ex) := strip b c1 e1 in
  let ds := render b m in
  let k := (Z.of_nat (length ds) + ex)%Z in
  if (0 <=? ex)%Z then ds ++ zeros (Z.to_nat ex)
  else if (0 <? k)%Z
       then take (Z.to_nat k) ds ++ "."%char :: drop (Z.to_nat k) ds
       else ["0"; "."]%char ++ zeros (Z.to_nat (- k)) ++ ds.

(** The digits after the prefix: ["0"] for a zero. *)
Definition base_body (b : N) (c : N) (e : Z) : list ascii :=
  if N.eqb c 0 then ["0"%char] else base_chars b c e.

(** [toStringBinary(x, baseOut)] without the [sd] argument. *)
Definition toStringBinary_chars (x : t) (baseOut : N) (prefix : list ascii)
  : list ascii :=
  match x with
  | NaN => list_ascii_of_string "NaN"
  | Inf neg => (if neg then ["-"%char] else []) ++ list_ascii_of_string "Infinity"
  | Fin neg c e =>
      (if neg then ["-"%char] else []) ++ prefix ++ base_body baseOut c e
  end.

Definition toBinary (x : t) : string :=
  string_of_list_ascii (toStringBinary_chars x 2 ["0"; "b"]%char).

Definition toHexadecimal (x : t) : string :=
  string_of_list_ascii (toStringBinary_chars x 16 ["0"; "x"]%char).

(** *** Rounding to decimal places and fixed-point printing *)

(** [finalise(x, dp + x.e + 1, rounding)]: the value with at most [dp]
    decimal places, the magnitude rounded half up. The sign stays, also
    when the result is zero; NaN and the infinities are returned as they
    are. *)
Definition round_places (x : t) (dp : Z) : t :=
  match x with
  | Fin neg c e =>
      if N.eqb c 0 then x
      else if (- dp <=? e)%Z then x
      else of_parts neg (round_half_up 10 c (Z.to_nat (- dp - e))) (- dp)
  | _ => x
  end.

(** [x.toDecimalPlaces(dp)] for an integer [dp] the engine accepts. *)
Definition toDecimalPlaces (x : t) (dp : Z) : t := round_places x dp.

(** The largest number of decimal places the engine accepts. *)
Definition MAX_DIGITS : Z := 1000000000%Z.

(** [finiteToString(y, false, sd)] with [sd = dp + y.e + 1] on the digits
    [c] and exponent [e] of [y]: positional notation, padded with zeros
    to [sd] significant digits. A zero has the digit string ["0"] and
    the exponent 0. *)
Definition fixed_chars (c : N) (e : Z) (dp : Z) : list ascii :=
  let str := N_chars c in
  let len := Z.of_nat (length str) in
  let E := if N.eqb c 0 then 0%Z else sci_exp c e in
  let sd := (dp + E + 1)%Z in
  let pads (k : Z) := negb (sd =? 0)%Z && (0 <? k)%Z in
  if (E <? 0)%Z then
    let s1 := (["0"; "."]%char ++ zeros (Z.to_nat (- E - 1)) ++ str)%list in
    if pads (sd - len)%Z then s1 ++ zeros (Z.to_nat (sd - len)) else s1
  else if (len <=? E)%Z then
    let s1 := (str ++ zeros (Z.to_nat (E + 1 - len)))%list in
    if pads (sd - E - 1)%Z
    then s1 ++ "."%char :: zeros (Z.to_nat (sd - E - 1)) else s1
  else
    let s1 := if (E + 1 <? len)%Z
              then (take (Z.to_nat (E + 1)) str
                    ++ "."%char :: drop (Z.to_nat (E + 1)) str)%list
              else str in
    if pads (sd - len)%Z
    then (if (E + 1 =? len)%Z then s1 ++ ["."%char] else s1)
         ++ zeros (Z.to_nat (sd - len))
    else s1.

(** [finiteToString] of the rounded value: unsigned, also for the values
    that are not finite. *)
Definition unsigned_fixed_chars (y : t) (dp : Z) : list ascii :=
  match y with
  | NaN => list_ascii_of_string "NaN"
  | Inf _ => list_ascii_of_string "Infinity"
  | Fin _ c e => fixed_chars c e dp
  end.

(** [x.isNeg() && !x.isZero()] *)
Definition prints_minus (x : t) : bool :=
  match x with
  | NaN => false
  | Inf neg => neg
  | Fin neg c _ => neg && negb (N.eqb c 0)
  end.

(** [x.toFixed(dp)] for an integer [0 <= dp <= MAX_DIGITS]: the sign is
    that of the value before it was rounded. *)
Definition toFixed_chars (x : t) (dp : Z) : list ascii :=
  ((if prints_minus x then ["-"%char] else [])
   ++ unsigned_fixed_chars (round_places x dp) dp)%list.

Definition toFixed (x : t) (dp : Z) : string :=
  string_of_list_ascii (toFixed_chars x dp).

(** *** Parsing: [new PreciseDecimal(str)] *)

Inductive parsed : Type :=
| Parsed (d : t)
| Invalid      (** [[DecimalError] Invalid argument] is thrown *)
| Unmodelled.  (** accepted by the engine, outside this model *)

(** The optional exponent part: [e], an optional sign, digits; then the
    end of the string. *)
Definition parse_exponent (l : list ascii) : option Z :=
  match l with
  | [] => Some 0%Z
  | a :: r =>
      if Ascii.eqb a "e" || Ascii.eqb a "E" then
        let '(neg, r1) := match r with
                          | "+"%char :: r1 => (false, r1)
                          | "-"%char :: r1 => (true, r1)
                          | _ => (false, r)
                          end in
        let '(ds, rest) := span_digits r1 in
        match ds, rest with
        | _ :: _, [] => Some (signed neg (chars_value ds))
        | _, _ => None
        end
      else None
  end.

(** [isDecimal] and [parseDecimal]: digits with an optional point and
    fraction digits, or a point and fraction digits, then an optional
    exponent; case-insensitive. *)
Definition parse_decimal (neg : bool) (l : list ascii) : option t :=
  let '(ip, r1) := span_digits l in
  let '(fp, r2, dot) := match r1 with
                        | "."%char :: r =>
                            let '(fp, r2) := span_digits r in (fp, r2, true)
                        | _ => ([], r1, false)
                        end in
  let mantissa_ok := match ip, fp with
                     | _ :: _, _ => true
                     | [], _ :: _ => dot
                     | [], [] => false
                     end in
  if mantissa_ok then
    match parse_exponent r2 with
    | Some ex => Some (of_parts neg (chars_value (ip ++ fp))
                                (ex - Z.of_nat (length fp)))
    | None => None
    end
  else None.

Definition bdigit (b : N) (a : ascii) : option N :=
  match hex_val a with
  | Some d => if d <? b then Some d else None
  | None => None
  end.

Fixpoint bdigits (b : N) (l : list ascii) : option (list N) :=
  match l with
  | [] => Some []
  | a :: r => match bdigit b a, bdigits b r with
              | Some d, Some ds => Some (d :: ds)
              | _, _ => None
              end
  end.

Definition has_point_or_p (l : list ascii) : bool :=
  existsb (fun a => Ascii.eqb a "." || Ascii.eqb a "p" || Ascii.eqb a "P") l.

(** An integer literal after its [0x], [0b] or [0o] prefix. Literals with
    a fraction or a binary exponent are accepted by the engine but are
    not modelled. *)
Definition parse_radix (neg : bool) (b : N) (l : list ascii) : parsed :=
  match l, bdigits b l with
  | _ :: _, Some ds => Parsed (of_parts neg (of_digits b ds) 0)
  | _, _ => if has_point_or_p l then Unmodelled else Invalid
  end.

(** [parseOther]. Digit separators ([1_000]) are accepted by recent
    versions of the engine only and are not modelled. *)
Definition parse_other (neg : bool) (l : list ascii) : parsed :=
  if existsb (Ascii.eqb "_") l then Unmodelled
  else if String.eqb (string_of_list_ascii l) "Infinity" then Parsed (Inf neg)
  else if String.eqb (string_of_list_ascii l) "NaN" then Parsed NaN
  else match l with
       | "0"%char :: p :: r =>
           if Ascii.eqb p "x" || Ascii.eqb p "X" then parse_radix neg 16 r
           else if Ascii.eqb p "b" || Ascii.eqb p "B" then parse_radix neg 2 r
           else if Ascii.eqb p "o" || Ascii.eqb p "O" then parse_radix neg 8 r
           else Invalid
       | _ => Invalid
       end.

(** [v.charCodeAt(0) === 45] strips a minus sign, [=== 43] a plus sign. *)
Definition split_sign (l : list ascii) : bool * list ascii :=
  match l with
  | a :: v => if Ascii.eqb a "-" then (true, v)
              else if Ascii.eqb a "+" then (false, v)
              else (false, l)
  | [] => (false, l)
  end.

Definition parse_chars (l : list ascii) : parsed :=
  let '(neg, v) := split_sign l in
  match parse_decimal neg v with
  | Some d => Parsed d
  | None => parse_other neg v
  end.

Definition parse (s : string) : parsed := parse_chars (list_ascii_of_string s).

(** The nine method names the constructor binds. *)
Inductive arith : Type := Mul | Sub | Div | Add.
Inductive compare : Type := Gt | Gte | Lt | Lte | Eq.

Definition apply_arith (m : arith) : t -> t -> t :=
  match m with Mul => times | Sub => minus | Div => div | Add => plus end.

Definition apply_compare (m : compare) : t -> t -> bool :=
  match m with Gt => gt | Gte => gte | Lt => lt | Lte => lte | Eq => eq end.

End PreciseDecimal.

(* ===================================================================== *)
(** ** JS string helpers *)
(* ===================================================================== *)

Module JsString.

(** ASCII members of the WhiteSpace and LineTerminator classes that
    [String.prototype.trim] removes. Strings are byte strings here;
    the non-ASCII white space of the standard is not represented. *)
Definition is_space (a : ascii) : bool :=
  let n := N_of_ascii a in
  ((9 <=? n) && (n <=? 13)) || (n =? 32).

Fixpoint trim_start (l : list ascii) : list ascii :=
  match l with
  | a :: r => if is_space a then trim_start r else l
  | [] => []
  end.

Definition trim_chars (l : list ascii) : list ascii :=
  rev (trim_start (rev (trim_start l))).

(** [s.trim()] *)
Definition trim (s : string) : string :=
  string_of_list_ascii (trim_chars (list_ascii_of_string s)).

(** Pieces between occurrences of [sep]; [cur] is the piece being read. *)
Fixpoint split_chars (sep : ascii) (cur : list ascii) (l : list ascii)
  : list (list ascii) :=
  match l with
  | [] => [rev cur]
  | a :: r => if Ascii.eqb a sep
              then rev cur :: split_chars sep [] r
              else split_chars sep (a :: cur) r
  end.

(** [s.split(' ')] *)
Definition split_space (s : string) : list string :=
  map string_of_list_ascii (split_chars " " [] (list_ascii_of_string s)).

Fixpoint index_chars (a : ascii) (l : list ascii) (i : Z) : Z :=
  match l with
  | [] => (-1)%Z
  | x :: r => if Ascii.eqb x a then i else index_chars a r (i + 1)%Z
  end.

(** [s.indexOf(a)] for a one-character needle. *)
Definition indexOf (s : string) (a : ascii) : Z :=
  index_chars a (list_ascii_of_string s) 0%Z.

(** [s.substr(start)] for [start >= 0]. *)
Definition substr (s : string) (start : Z) : string :=
  string_of_list_ascii (drop (Z.to_nat start) (list_ascii_of_string s)).

End JsString.

(* ===================================================================== *)
(** ** Values, the object store and its monad *)
(* ===================================================================== *)

(** What the field [_scale] can hold at run time. The enum of [index.ts]
    compiles to the numbers 0 and 1; the other revisions use the strings
    ['min'] and ['coins']. The annotations are erased, so any number or
    string can arrive. *)
Inductive ScaleTag : Type :=
| NumTag (z : Z)
| StrTag (s : string).

#[global] Instance ScaleTag_eq_dec : EqDecision ScaleTag.
Proof. solve_decision. Defined.

(** [interface BigValConfig { decimals?: number }], for integral numbers.
    The library never writes to a configuration object, so it is stored by
    value. *)
Record BigValConfig : Type := { decimals : option Z }.

#[global] Instance BigValConfig_eq_dec : EqDecision BigValConfig.
Proof. solve_decision. Defined.

Abbreviation loc := positive (only parsing).

(** Heap cells: engine values and [BigVal] instances. An instance refers to
    its magnitude, so aliasing of magnitudes is visible. *)
Inductive cell : Type :=
| CDecimal (d : PreciseDecimal.t)
| CBigVal (_n : loc) (_scale : ScaleTag) (_config : BigValConfig).

(** The values of type [any] this model covers. *)
Inductive any : Type :=
| JUndefined
| JNull
| JNum (z : Z)            (** an integral number below 1e21 in magnitude *)
| JStr (s : string)
| JDecimal (l : loc)      (** an engine value *)
| JBigVal (l : loc)       (** an instance of the class *)
| JHexObj (_hex : string) (** a plain object with a [_hex] field *)
| JBigNumber (s : string) (** an object carrying the big-number marker the
                              revision probes for; [s] is its
                              [toString(10)] *).

(** The integers [JNum] stands for: below 1e21 a number prints as plain
    digits. *)
Definition js_integer (z : Z) : Prop := (Z.abs z < 10 ^ 21)%Z.

Inductive error : Type :=
| DecimalError (arg : string)       (** [[DecimalError] Invalid argument: arg] *)
| UnrecognizedScale (tag : ScaleTag) (** [Error(`Unrecognized scale: ${tag}`)] *)
| InvalidScale (tag : ScaleTag)     (** [Error(`Invalid scale: ${tag}`)] *)
| TypeError                         (** a property read on undefined or null *)
| OutsideModel                      (** an engine call this model does not cover *)
| Dangling (l : loc).               (** the store has no such object *)

Inductive outcome (A : Type) : Type :=
| Ok (a : A)
| Throw (e : error).
Arguments Ok {A} a.
Arguments Throw {A} e.

Abbreviation heap := (gmap loc cell).

(** Computations over the store that may throw. *)
Definition M (A : Type) : Type := heap -> outcome A * heap.

Definition ret {A} (a : A) : M A := fun h => (Ok a, h).

Definition bind {A B} (m : M A) (k : A -> M B) : M B :=
  fun h => match m h with
           | (Ok a, h1) => k a h1
           | (Throw e, h1) => (Throw e, h1)
           end.

Definition throw {A} (e : error) : M A := fun h => (Throw e, h).

#[global] Instance M_ret : MRet M := @ret.
#[global] Instance M_bind : MBind M := fun A B k m => bind m k.

(** [new]: the object lands at an address the store does not use. *)
Definition alloc (c : cell) : M loc :=
  fun h => let l := fresh (dom h) in (Ok l, <[l := c]> h).

Definition read (l : loc) : M cell :=
  fun h => match h !! l with
           | Some c => (Ok c, h)
           | None => (Throw (Dangling l), h)
           end.

Definition read_decimal (l : loc) : M PreciseDecimal.t :=
  c ← read l;
  match c with
  | CDecimal d => ret d
  | CBigVal _ _ _ => throw (Dangling l)
  end.

Definition read_bigval (l : loc) : M (loc * ScaleTag * BigValConfig) :=
  c ← read l;
  match c with
  | CBigVal n s cfg => ret (n, s, cfg)
  | CDecimal _ => throw (Dangling l)
  end.

Definition write (l : loc) (c : cell) : M unit :=
  fun h => (Ok tt, <[l := c]> h).

(** [obj._scale = tag] *)
Definition set_scale (l : loc) (tag : ScaleTag) : M unit :=
  '(n, _, cfg) ← read_bigval l;
  write l (CBigVal n tag cfg).

(* ===================================================================== *)
(** ** [toDecimal]: coercion of any input to an engine value *)
(* ===================================================================== *)

Local Open Scope string_scope.

(** The string handed to [new PreciseDecimal(`${a}`)] after the probing
    of [_hex] and of the big-number marker. A [BigVal] and an engine value
    have neither field, so the template literal calls their [toString()]. *)
Definition template (a : any) : M string :=
  match a with
  | JUndefined => ret "undefined"
  | JNull => ret "null"
  | JNum z => ret (string_of_list_ascii (PreciseDecimal.Z_chars z))
  | JStr s => ret s
  | JDecimal l => d ← read_decimal l; ret (PreciseDecimal.toString d)
  | JBigVal l => '(n, _, _) ← read_bigval l;
                 d ← read_decimal n;
                 ret (PreciseDecimal.toString d)
  | JHexObj h => ret (if String.eqb h "" then "[object Object]" else h)
  | JBigNumber s => ret s
  end.

Definition toDecimal (a : any) : M loc :=
  s ← template a;
  match PreciseDecimal.parse s with
  | PreciseDecimal.Parsed d => alloc (CDecimal d)
  | PreciseDecimal.Invalid => throw (DecimalError s)
  | PreciseDecimal.Unmodelled => throw OutsideModel
  end.

(** [this._config.decimals] as a value of type [any]. *)
Definition config_decimals (cfg : BigValConfig) : any :=
  match decimals cfg with
  | Some z => JNum z
  | None => JUndefined
  end.

(** [toDecimal(10).pow(toDecimal(v))] *)
Definition ten_pow (v : any) : M loc :=
  p ← toDecimal (JNum 10);
  y ← toDecimal v;
  dp ← read_decimal p;
  dy ← read_decimal y;
  match PreciseDecimal.pow dp dy with
  | Some r => alloc (CDecimal r)
  | None => throw OutsideModel
  end.

(** [toString(base)], the same text in every revision. *)
Definition toString_of (this : loc) (base : Z) : M string :=
  '(n, _, _) ← read_bigval this;
  d ← read_decimal n;
  ret (match base with
       | 2%Z => let str := PreciseDecimal.toBinary d in
                JsString.substr str (JsString.indexOf str "b" + 1)
       | 16%Z => PreciseDecimal.toHexadecimal d
       | _ => PreciseDecimal.toString d
       end).

(** [toFixed(numDecimals)], the same text in every revision. The engine
    rejects a number of places outside [0, MAX_DIGITS] with
    [[DecimalError] Invalid argument]. *)
Definition toFixed_of (this : loc) (numDecimals : Z) : M string :=
  '(n, _, _) ← read_bigval this;
  d ← read_decimal n;
  if (0 <=? numDecimals)%Z && (numDecimals <=? PreciseDecimal.MAX_DIGITS)%Z
  then ret (PreciseDecimal.toFixed d numDecimals)
  else throw (DecimalError
                (string_of_list_ascii (PreciseDecimal.Z_chars numDecimals))).

(* ===================================================================== *)
(** ** [src/index.ts]: the class with the enum [BigValScale] *)
(* ===================================================================== *)

Module BigVal.
Import PreciseDecimal.

(** [enum BigValScale { SMALLEST = 0, NORMAL = 1 }] *)
Definition SMALLEST : ScaleTag := NumTag 0.
Definition NORMAL : ScaleTag := NumTag 1.

Definition default_config : BigValConfig := {| decimals := Some 18%Z |}.

(** [constructor(src, scale = SMALLEST, config = { decimals: 18 })];
    [None] is an omitted argument. *)
Definition new (src : any) (scale : option ScaleTag)
           (config : option BigValConfig) : M loc :=
  match src with
  | JBigVal s =>
      '(n, sc, cfg) ← read_bigval s;
      n' ← toDecimal (JDecimal n);
      alloc (CBigVal n' sc cfg)
  | _ =>
      n' ← toDecimal src;
      alloc (CBigVal n' (default SMALLEST scale) (default default_config config))
  end.

(** The body of the closures bound to [mul], [sub], [div] and [add], with
    the coercion of the operand left open. *)
Definition arith_core (m : arith) (this : loc) (operand : M loc) : M loc :=
  '(n, _, _) ← read_bigval this;
  y ← operand;
  dx ← read_decimal n;
  dy ← read_decimal y;
  r ← alloc (CDecimal (apply_arith m dx dy));
  '(_, sc, cfg) ← read_bigval this;
  new (JDecimal r) (Some sc) (Some cfg).

(** The body of the closures bound to [gt], [gte], [lt], [lte], [eq]. *)
Definition compare_core (m : compare) (this : loc) (operand : M loc) : M bool :=
  '(n, _, _) ← read_bigval this;
  y ← operand;
  dx ← read_decimal n;
  dy ← read_decimal y;
  ret (apply_compare m dx dy).

(** [this.mul(toDecimal(10).pow(toDecimal(v)))]: the operand is an engine
    value, which has no [_n], so [toDecimalAtOriginalScale] hands it to
    [toDecimal]. *)
Definition scaleDown (this : loc) (v : any) : M loc :=
  p ← ten_pow v;
  arith_core Mul this (toDecimal (JDecimal p)).

Definition scaleUp (this : loc) (v : any) : M loc :=
  p ← ten_pow v;
  arith_core Div this (toDecimal (JDecimal p)).

Definition toSmallestScale (this : loc) : M loc :=
  '(_, sc, cfg) ← read_bigval this;
  if decide (sc = SMALLEST) then ret this
  else
    n ← scaleDown this (config_decimals cfg);
    set_scale n SMALLEST;;
    ret n.

Definition toNormalScale (this : loc) : M loc :=
  '(_, sc, cfg) ← read_bigval this;
  if decide (sc = NORMAL) then ret this
  else
    n ← scaleUp this (config_decimals cfg);
    set_scale n NORMAL;;
    ret n.

Definition toScale (this : loc) (scale : ScaleTag) : M loc :=
  match scale with
  | NumTag 0 => toSmallestScale this
  | NumTag 1 => toNormalScale this
  | _ => throw (UnrecognizedScale scale)
  end.

(** [input._n ? input.toScale(reference.scale)._n : toDecimal(input)] *)
Definition toDecimalAtOriginalScale (input : any) (reference : loc) : M loc :=
  match input with
  | JUndefined | JNull => throw TypeError
  | JBigVal i =>
      '(_, _, _) ← read_bigval i;
      '(_, sc, _) ← read_bigval reference;
      r ← toScale i sc;
      '(n, _, _) ← read_bigval r;
      ret n
  | _ => toDecimal input
  end.

Definition arith_method (m : arith) (this : loc) (v : any) : M loc :=
  arith_core m this (toDecimalAtOriginalScale v this).

Definition compare_method (m : compare) (this : loc) (v : any) : M bool :=
  compare_core m this (toDecimalAtOriginalScale v this).

Definition mul := arith_method Mul.
Definition sub := arith_method Sub.
Definition div := arith_method Div.
Definition add := arith_method Add.
Definition gt := compare_method Gt.
Definition gte := compare_method Gte.
Definition lt := compare_method Lt.
Definition lte := compare_method Lte.
Definition eq := compare_method Eq.

Definition toString := toString_of.

(** [new BigVal(this._n.toDecimalPlaces(0), this._scale, this._config)] *)
Definition round (this : loc) : M loc :=
  '(n, _, _) ← read_bigval this;
  d ← read_decimal n;
  r ← alloc (CDecimal (toDecimalPlaces d 0));
  '(_, sc, cfg) ← read_bigval this;
  new (JDecimal r) (Some sc) (Some cfg).

Definition toFixed := toFixed_of.

End BigVal.

(* ===================================================================== *)
(** ** The revision with string tags, [isBigVal] and [minStr] *)
(* ===================================================================== *)

Module StringScales.
Import PreciseDecimal.

Definition min : ScaleTag := StrTag "min".
Definition coins : ScaleTag := StrTag "coins".

(** Property names every plain object inherits from [Object.prototype];
    each of them holds a function or an object. *)
Definition inherited : list string :=
  ["constructor"; "__defineGetter__"; "__defineSetter__"; "hasOwnProperty";
   "__lookupGetter__"; "__lookupSetter__"; "isPrototypeOf";
   "propertyIsEnumerable"; "toString"; "valueOf"; "__proto__";
   "toLocaleString"].

(** Truthiness of [SCALE[s]] for
    [const SCALE = { coins: 'coins', min: 'min' }]. A number is looked up
    under its decimal name, which is no property of the table. *)
Definition SCALE_has (s : ScaleTag) : bool :=
  match s with
  | StrTag k => String.eqb k "coins" || String.eqb k "min"
                || existsb (String.eqb k) inherited
  | NumTag _ => false
  end.

Definition assertValidScale (s : ScaleTag) : M unit :=
  if SCALE_has s then ret tt else throw (InvalidScale s).

Definition truthy (s : ScaleTag) : bool :=
  match s with
  | NumTag z => negb (Z.eqb z 0)
  | StrTag k => negb (String.eqb k "")
  end.

Definition DefaultBigValConfig : BigValConfig := {| decimals := Some 18%Z |}.

(** [!!(v && v._n && v.scale && v.toString && v.toMinScale)] *)
Definition isBigVal (v : any) : M bool :=
  match v with
  | JBigVal l => '(_, sc, _) ← read_bigval l; ret (truthy sc)
  | _ => ret false
  end.

(** [constructor(src, scale = 'min', config = DefaultBigValConfig)] *)
Definition new (src : any) (scale : option ScaleTag)
           (config : option BigValConfig) : M loc :=
  b ← isBigVal src;
  match b, src with
  | true, JBigVal s =>
      '(n, sc, cfg) ← read_bigval s;
      n' ← toDecimal (JDecimal n);
      alloc (CBigVal n' sc cfg)
  | _, _ =>
      n' ← toDecimal src;
      assertValidScale (default min scale);;
      alloc (CBigVal n' (default min scale) (default DefaultBigValConfig config))
  end.

(** The arithmetic closures of this revision coerce with [toDecimal]. *)
Definition arith_method (m : arith) (this : loc) (v : any) : M loc :=
  '(n, _, _) ← read_bigval this;
  y ← toDecimal v;
  dx ← read_decimal n;
  dy ← read_decimal y;
  r ← alloc (CDecimal (apply_arith m dx dy));
  '(_, sc, cfg) ← read_bigval this;
  new (JDecimal r) (Some sc) (Some cfg).

(** The comparison closures of this revision, likewise. *)
Definition compare_method (m : compare) (this : loc) (v : any) : M bool :=
  '(n, _, _) ← read_bigval this;
  y ← toDecimal v;
  dx ← read_decimal n;
  dy ← read_decimal y;
  ret (apply_compare m dx dy).

Definition from := new.

(** [t[i]] as an argument: a missing element is [undefined]. *)
Definition arg (o : option string) : any :=
  match o with Some s => JStr s | None => JUndefined end.

Definition fromStr (numScale : string) (config : option BigValConfig) : M loc :=
  let t := JsString.split_space numScale in
  from (arg (t !! 0%nat)) (StrTag <$> (t !! 1%nat)) config.

Definition toMinScale (this : loc) : M loc :=
  '(_, sc, cfg) ← read_bigval this;
  if decide (sc = min) then new (JBigVal this) None None
  else
    p ← ten_pow (config_decimals cfg);
    n ← arith_method Mul this (JDecimal p);
    set_scale n min;;
    ret n.

Definition toCoinScale (this : loc) : M loc :=
  '(_, sc, cfg) ← read_bigval this;
  if decide (sc = coins) then new (JBigVal this) None None
  else
    p ← ten_pow (config_decimals cfg);
    n ← arith_method Div this (JDecimal p);
    set_scale n coins;;
    ret n.

Definition toScale (this : loc) (scale : ScaleTag) : M loc :=
  assertValidScale scale;;
  match scale with
  | StrTag "min" => toMinScale this
  | StrTag "coins" => toCoinScale this
  | _ => throw (UnrecognizedScale scale)
  end.

Definition toString := toString_of.

Definition round (this : loc) : M loc :=
  '(n, _, _) ← read_bigval this;
  d ← read_decimal n;
  r ← alloc (CDecimal (toDecimalPlaces d 0));
  '(_, sc, cfg) ← read_bigval this;
  new (JDecimal r) (Some sc) (Some cfg).

Definition toFixed := toFixed_of.

(** [minStr(v, config = DefaultBigValConfig)] *)
Definition minStr (v : string) (config : option BigValConfig) : M string :=
  let t := JsString.split_space (JsString.trim v) in
  let t := if (List.length t =? 1)%nat then (t ++ ["min"])%list else t in
  b ← new (arg (t !! 0%nat)) (StrTag <$> (t !! 1%nat)) config;
  m ← toMinScale b;
  toString m 10.

End StringScales.

(* ===================================================================== *)
(** ** The revision whose [toMinScale] assigns the wrong tag *)
(* ===================================================================== *)

(** String tags, [instanceof], aligned operands. *)
Module StringScalesAligned.
Import PreciseDecimal.

Definition new (src : any) (scale : option ScaleTag)
           (config : option BigValConfig) : M loc :=
  match src with
  | JBigVal s =>
      '(n, sc, cfg) ← read_bigval s;
      n' ← toDecimal (JDecimal n);
      alloc (CBigVal n' sc cfg)
  | _ =>
      n' ← toDecimal src;
      StringScales.assertValidScale (default StringScales.min scale);;
      alloc (CBigVal n' (default StringScales.min scale)
                     (default StringScales.DefaultBigValConfig config))
  end.

Definition arith_core (m : arith) (this : loc) (operand : M loc) : M loc :=
  '(n, _, _) ← read_bigval this;
  y ← operand;
  dx ← read_decimal n;
  dy ← read_decimal y;
  r ← alloc (CDecimal (apply_arith m dx dy));
  '(_, sc, cfg) ← read_bigval this;
  new (JDecimal r) (Some sc) (Some cfg).

Definition scaleDown (this : loc) (v : any) : M loc :=
  p ← ten_pow v;
  arith_core Mul this (toDecimal (JDecimal p)).

(** [n._scale = SCALE.coins] in the branch that converts to ['min']. *)
Definition toMinScale (this : loc) : M loc :=
  '(_, sc, cfg) ← read_bigval this;
  if decide (sc = StringScales.min) then ret this
  else
    n ← scaleDown this (config_decimals cfg);
    set_scale n StringScales.coins;;
    ret n.

Definition compare_core (m : compare) (this : loc) (operand : M loc) : M bool :=
  '(n, _, _) ← read_bigval this;
  y ← operand;
  dx ← read_decimal n;
  dy ← read_decimal y;
  ret (apply_compare m dx dy).

Definition scaleUp (this : loc) (v : any) : M loc :=
  p ← ten_pow v;
  arith_core Div this (toDecimal (JDecimal p)).

Definition toCoinsScale (this : loc) : M loc :=
  '(_, sc, cfg) ← read_bigval this;
  if decide (sc = StringScales.coins) then ret this
  else
    n ← scaleUp this (config_decimals cfg);
    set_scale n StringScales.coins;;
    ret n.

Definition toScale (this : loc) (scale : ScaleTag) : M loc :=
  StringScales.assertValidScale scale;;
  match scale with
  | StrTag "min" => toMinScale this
  | StrTag "coins" => toCoinsScale this
  | _ => throw (UnrecognizedScale scale)
  end.

Definition toDecimalAtOriginalScale (input : any) (reference : loc) : M loc :=
  match input with
  | JUndefined | JNull => throw TypeError
  | JBigVal i =>
      '(_, _, _) ← read_bigval i;
      '(_, sc, _) ← read_bigval reference;
      r ← toScale i sc;
      '(n, _, _) ← read_bigval r;
      ret n
  | _ => toDecimal input
  end.

Definition arith_method (m : arith) (this : loc) (v : any) : M loc :=
  arith_core m this (toDecimalAtOriginalScale v this).

Definition compare_method (m : compare) (this : loc) (v : any) : M bool :=
  compare_core m this (toDecimalAtOriginalScale v this).

End StringScalesAligned.

(** Running a computation. *)
Definition run {A} (m : M A) (h : heap) : outcome A * heap := m h.

(* ===================================================================== *)
(** ** Vocabulary of the statements *)
(* ===================================================================== *)

(** The store holds an instance at [l] with magnitude [d], tag [sc] and
    configuration [cfg]. *)
Definition is_bigval (h : heap) (l : loc) (d : PreciseDecimal.t)
           (sc : ScaleTag) (cfg : BigValConfig) : Prop :=
  exists n, h !! l = Some (CBigVal n sc cfg) /\ h !! n = Some (CDecimal d).

(** [m] returns normally from [h]; every object of [h] is still there,
    unchanged, and [Q] holds of the result and the final store. *)
Definition returns {A} (m : M A) (h : heap) (Q : A -> heap -> Prop) : Prop :=
  exists a h', run m h = (Ok a, h') /\ h ⊆ h' /\ Q a h'.

Definition throws {A} (m : M A) (h : heap) (e : error) : Prop :=
  exists h', run m h = (Throw e, h').

(** Whatever the outcome, [m] leaves every object of the store as it was. *)
Definition grows {A} (m : M A) : Prop :=
  forall h, h ⊆ (run m h).2.

(** A normal result of [m] is an object the initial store did not have. *)
Definition allocates (m : M loc) : Prop :=
  forall h, match (run m h).1 with
            | Ok l => h !! l = None
            | Throw _ => True
            end.

(** A configuration whose [decimals], when set, is an integer [JNum] can
    stand for. *)
Definition config_ok (cfg : BigValConfig) : Prop :=
  match decimals cfg with
  | Some D => js_integer D
  | None => True
  end.

(** The scale-conversion rules at the level of magnitudes: the magnitude
    of a value [(x, sc, cfg)] brought to the scale [target], or the error
    the conversion ends with. A value already at [target] is kept; any
    other value is multiplied (towards [SMALLEST]) or divided (towards
    [NORMAL]) by ten to the power [decimals] in the engine and stored
    again, which erases the sign of a zero. *)
Definition aligned_magnitude (target : ScaleTag) (x : PreciseDecimal.t)
           (sc : ScaleTag) (cfg : BigValConfig) : outcome PreciseDecimal.t :=
  let scaled (op : PreciseDecimal.t -> PreciseDecimal.t -> PreciseDecimal.t) :=
    if decide (sc = target) then Ok x
    else match decimals cfg with
         | Some D => Ok (PreciseDecimal.unsigned_zero
                           (op x (PreciseDecimal.pow10 D)))
         | None => Throw (DecimalError "undefined")
         end in
  if decide (target = BigVal.SMALLEST) then scaled PreciseDecimal.times
  else if decide (target = BigVal.NORMAL) then scaled PreciseDecimal.div
  else Throw (UnrecognizedScale target).

(** Every engine value in the store is in normal form. Stores built by the
    class satisfy this: the engine only produces normal forms. *)
Definition store_ok (h : heap) : Prop :=
  forall l d, h !! l = Some (CDecimal d) -> PreciseDecimal.wf d.

Definition keeps_ok {A} (m : M A) : Prop :=
  forall h, store_ok h -> store_ok (run m h).2.

(** [l._n], dereferenced. *)
Definition magnitude_of (l : loc) : M PreciseDecimal.t :=
  '(n, _, _) ← read_bigval l;
  read_decimal n.


(** A non-empty string without white space: the shape of [<number>] and
    of a scale name in the input of [minStr]. *)
Definition clean_token (s : string) : Prop :=
  s <> ""%string /\
  Forall (fun a => JsString.is_space a = false) (list_ascii_of_string s).


(** A value without fraction digits. *)
Definition whole (x : PreciseDecimal.t) : Prop :=
  match x with
  | PreciseDecimal.Fin _ c e => c = 0%N \/ (0 <= e)%Z
  | _ => True
  end.

(** The whole number of units nearest to [c * 10^e], the larger one at a
    tie: [round_half_up] at the decimal point. *)
Definition units (c : N) (e : Z) : N :=
  if (0 <=? e)%Z then (c * 10 ^ Z.to_N e)%N
  else Digits.round_half_up 10 c (Z.to_nat (- e)).

(** A cell whose tag, if it is an instance, is a property of the [SCALE]
    table. *)
Definition tag_ok (c : cell) : Prop :=
  match c with
  | CBigVal _ sc _ => StringScales.SCALE_has sc = true
  | CDecimal _ => True
  end.

(** Every instance in the store carries a tag that [assertValidScale]
    accepts. *)
Definition tags_ok (h : heap) : Prop :=
  forall l c, h !! l = Some c -> tag_ok c.

Definition keeps_tags {A} (m : M A) : Prop :=
  forall h, tags_ok h -> tags_ok (run m h).2.

(** Running [m] from [h] leaves every object of [h] as it was. *)
Definition preserves {A} (m : M A) (h : heap) : Prop :=
  forall l c, h !! l = Some c -> (run m h).2 !! l = Some c.

(** A result of [m] from [h] is the object [this] or an object [h] did
    not hold. *)
Definition self_or_new (m : M loc) (h : heap) (this : loc) : Prop :=
  match (run m h).1 with
  | Ok l => l = this \/ h !! l = None
  | Throw _ => True
  end.

(** A result of [m] from [h] is an object [h] did not hold. *)
Definition fresh_result (m : M loc) (h : heap) : Prop :=
  match (run m h).1 with
  | Ok l => h !! l = None
  | Throw _ => True
  end.



(** The number of significant digits of a magnitude: none for NaN, the
    infinities and zero. *)
Definition sig_digits (x : PreciseDecimal.t) : nat :=
  match x with
  | PreciseDecimal.Fin _ c _ => Digits.ndigits 10 c
  | _ => 0%nat
  end.

(** ** Sample stores *)

(** 123.4 at [NORMAL] scale with two decimals. *)
Definition store_normal : heap :=
  <[2%positive := CBigVal 1 BigVal.NORMAL {| decimals := Some 2%Z |}]>
  (<[1%positive := CDecimal (PreciseDecimal.Fin false 1234 (-1))]> ∅).

(** A [SMALLEST] receiver 5 and a [NORMAL] operand 1, eighteen decimals. *)
Definition store_mixed : heap :=
  <[4%positive := CBigVal 3 BigVal.NORMAL BigVal.default_config]>
  (<[3%positive := CDecimal (PreciseDecimal.Fin false 1 0)]>
  (<[2%positive := CBigVal 1 BigVal.SMALLEST BigVal.default_config]>
  (<[1%positive := CDecimal (PreciseDecimal.Fin false 5 0)]> ∅))).

(** -5 at [SMALLEST] scale. *)
Definition store_negative : heap :=
  <[2%positive := CBigVal 1 BigVal.SMALLEST BigVal.default_config]>
  (<[1%positive := CDecimal (PreciseDecimal.Fin true 5 0)]> ∅).

(** 123.4 at ['coins'] scale with two decimals. *)
Definition store_coins : heap :=
  <[2%positive := CBigVal 1 StringScales.coins {| decimals := Some 2%Z |}]>
  (<[1%positive := CDecimal (PreciseDecimal.Fin false 1234 (-1))]> ∅).

(** A ['min'] receiver 5 and a ['coins'] operand 1, eighteen decimals. *)
Definition store_tagged : heap :=
  <[4%positive := CBigVal 3 StringScales.coins StringScales.DefaultBigValConfig]>
  (<[3%positive := CDecimal (PreciseDecimal.Fin false 1 0)]>
  (<[2%positive := CBigVal 1 StringScales.min StringScales.DefaultBigValConfig]>
  (<[1%positive := CDecimal (PreciseDecimal.Fin false 5 0)]> ∅))).

(** ** Helpers for the repository's tests *)

(** [new BigVal(src).toString(base)], and the same through a copy. *)
Definition shown (src : any) (base : Z) : outcome string :=
  (run (v ← BigVal.new src None None; BigVal.toString v base) ∅).1.

Definition shown_copy (src : any) (base : Z) : outcome string :=
  (run (v ← BigVal.new src None None;
        w ← BigVal.new (JBigVal v) None None;
        BigVal.toString w base) ∅).1.

Definition arith_shown (m : PreciseDecimal.arith) (v : any) (base : Z) : outcome string :=
  (run (a ← BigVal.new (JNum 98%Z) None None;
        r ← BigVal.arith_method m a v;
        BigVal.toString r base) ∅).1.

(** [new BigVal(src).toFixed(dp)] *)
Definition fixed_shown (src : any) (dp : Z) : outcome string :=
  (run (v ← BigVal.new src None None; BigVal.toFixed v dp) ∅).1.

Definition compared (m : PreciseDecimal.compare) (v : any) : outcome bool :=
  (run (a ← BigVal.new (JNum 100%Z) (Some BigVal.NORMAL) None;
        BigVal.compare_method m a v) ∅).1.


(* ===================================================================== *)
(** * Facts *)
(* ===================================================================== *)

(** ** Positional digits *)

Module DigitsFacts.
Import Digits.
Local Open Scope N_scope.

Lemma digits_aux_app b fuel : forall n acc,
  digits_aux b fuel n acc = (digits_aux b fuel n [] ++ acc)%list.
Proof.
  induction fuel as [|f IH]; intros n acc; simpl; [done|].
  destruct (N.eqb n 0); [done|].
  rewrite (IH (n / b) (n mod b :: acc)), (IH (n / b) [n mod b]).
  by rewrite <- app_assoc.
Qed.

Lemma half_lt_pow2 b n f : 2 <= b -> n <> 0 -> n < 2 ^ N.of_nat (S f) -> n / b < 2 ^ N.of_nat f.
Proof.
  intros Hb Hn Hlt.
  rewrite Nat2N.inj_succ, N.pow_succ_r' in Hlt.
  apply N.Div0.div_lt_upper_bound. nia.
Qed.

Lemma digits_aux_fuel b : 2 <= b -> forall f1 f2 n acc,
  n < 2 ^ N.of_nat f1 -> n < 2 ^ N.of_nat f2 ->
  digits_aux b f1 n acc = digits_aux b f2 n acc.
Proof.
  intros Hb. induction f1 as [|f1 IH]; intros f2 n acc H1 H2.
  - simpl in H1. assert (n = 0) by lia. subst. destruct f2; done.
  - simpl. destruct (N.eqb_spec n 0) as [->|Hn].
    + destruct f2; done.
    + destruct f2 as [|f2]; [simpl in H2; lia|].
      simpl. destruct (N.eqb_spec n 0); [done|].
      apply IH; by apply half_lt_pow2.
Qed.

Lemma size_bound n : n < 2 ^ N.of_nat (N.to_nat (N.size n)).
Proof. rewrite N2Nat.id. apply N.size_gt. Qed.

Lemma to_digits_0 b : to_digits b 0 = [].
Proof. reflexivity. Qed.

Lemma to_digits_step b n : 2 <= b -> n <> 0 ->
  to_digits b n = (to_digits b (n / b) ++ [n mod b])%list.
Proof.
  intros Hb Hn. unfold to_digits.
  destruct (N.to_nat (N.size n)) as [|f] eqn:Hf.
  - pose proof (size_bound n) as H. rewrite Hf in H. simpl in H. lia.
  - simpl. destruct (N.eqb_spec n 0); [done|].
    rewrite digits_aux_app. f_equal.
    apply digits_aux_fuel; [done| |apply size_bound].
    apply half_lt_pow2; [done..|]. rewrite <- Hf. apply size_bound.
Qed.

Lemma N_div_ind b (Hb : 2 <= b) (P : N -> Prop) :
  P 0 -> (forall n, n <> 0 -> P (n / b) -> P n) -> forall n, P n.
Proof.
  intros H0 Hstep n.
  induction n as [n IH] using (well_founded_induction N.lt_wf_0).
  destruct (N.eq_dec n 0) as [->|Hn]; [done|].
  apply Hstep; [done|]. apply IH. apply N.div_lt; lia.
Qed.

Lemma fold_digits_acc b ds : forall acc,
  fold_left (fun a d => b * a + d) ds acc
  = acc * b ^ N.of_nat (length ds) + fold_left (fun a d => b * a + d) ds 0.
Proof.
  induction ds as [|d ds IH]; intros acc; simpl length; simpl fold_left.
  - simpl. lia.
  - rewrite (IH (b * acc + d)), (IH (b * 0 + d)).
    rewrite Nat2N.inj_succ, N.pow_succ_r'. lia.
Qed.

Lemma of_digits_app b xs ys :
  of_digits b (xs ++ ys)
  = of_digits b xs * b ^ N.of_nat (length ys) + of_digits b ys.
Proof.
  unfold of_digits. rewrite fold_left_app. apply fold_digits_acc.
Qed.

Lemma of_to_digits b n : 2 <= b -> of_digits b (to_digits b n) = n.
Proof.
  intros Hb. induction n as [|n Hn IH] using (N_div_ind b Hb); [done|].
  rewrite to_digits_step, of_digits_app, IH by done.
  cbn [length of_digits fold_left]. change (N.of_nat 1) with 1.
  rewrite N.pow_1_r. pose proof (N.div_mod' n b). lia.
Qed.

Lemma to_digits_lt b n : 2 <= b -> Forall (fun d => d < b) (to_digits b n).
Proof.
  intros Hb. induction n as [|n Hn IH] using (N_div_ind b Hb); [by constructor|].
  rewrite to_digits_step by done. apply Forall_app. split; [done|].
  constructor; [|done]. apply N.mod_lt. lia.
Qed.

Lemma to_digits_nonzero b n : 2 <= b -> n <> 0 ->
  exists d ds, to_digits b n = d :: ds /\ d <> 0.
Proof.
  intros Hb. induction n as [|n Hn IH] using (N_div_ind b Hb); [done|].
  intros _. rewrite to_digits_step by done.
  destruct (N.eq_dec (n / b) 0) as [E|E].
  - rewrite E, to_digits_0. exists (n mod b), []. split; [done|].
    pose proof (N.div_mod' n b). nia.
  - destruct (IH E) as (d & ds & -> & Hd). by exists d, (ds ++ [n mod b])%list.
Qed.

Lemma to_digits_mul b n : 2 <= b -> n <> 0 ->
  to_digits b (n * b) = (to_digits b n ++ [0])%list.
Proof.
  intros Hb Hn. rewrite to_digits_step by nia.
  rewrite N.div_mul, N.Div0.mod_mul by lia. done.
Qed.

Lemma to_digits_mul_pow b n k : 2 <= b -> n <> 0 ->
  to_digits b (n * b ^ N.of_nat k) = (to_digits b n ++ repeat 0 k)%list.
Proof.
  intros Hb Hn. induction k as [|k IH].
  - simpl. rewrite N.mul_1_r. by rewrite app_nil_r.
  - rewrite Nat2N.inj_succ, N.pow_succ_r'.
    replace (n * (b * b ^ N.of_nat k)) with (n * b ^ N.of_nat k * b) by lia.
    rewrite to_digits_mul, IH; [|done|].
    + rewrite <- app_assoc. f_equal. 
      change [0] with (repeat 0 1). rewrite <- repeat_app. f_equal. lia.
    + assert (b ^ N.of_nat k <> 0) by (apply N.pow_nonzero; lia). nia.
Qed.

Lemma ndigits_mul_pow b n k : 2 <= b -> n <> 0 ->
  ndigits b (n * b ^ N.of_nat k) = (ndigits b n + k)%nat.
Proof.
  intros Hb Hn. unfold ndigits.
  rewrite to_digits_mul_pow, length_app, repeat_length by done. done.
Qed.

Lemma ndigits_pos b n : 2 <= b -> n <> 0 -> (0 < ndigits b n)%nat.
Proof.
  intros Hb Hn. unfold ndigits.
  destruct (to_digits_nonzero b n Hb Hn) as (d & ds & -> & _). simpl. lia.
Qed.

Lemma ndigits_0 b : ndigits b 0 = 0%nat.
Proof. reflexivity. Qed.

(** *** Trailing zeros *)

Lemma strip_aux_mul_pow b : 2 <= b -> forall fuel k c e,
  c <> 0 -> c mod b <> 0 -> c * b ^ N.of_nat k < 2 ^ N.of_nat fuel ->
  strip_aux b fuel (c * b ^ N.of_nat k) e = (c, (e + Z.of_nat k)%Z).
Proof.
  intros Hb. induction fuel as [|f IH]; intros k c e Hc Hm Hlt.
  - simpl in Hlt. assert (b ^ N.of_nat k <> 0) by (apply N.pow_nonzero; lia). nia.
  - assert (Hp : b ^ N.of_nat k <> 0) by (apply N.pow_nonzero; lia).
    simpl. destruct (N.eqb_spec (c * b ^ N.of_nat k) 0) as [E|_]; [nia|].
    destruct k as [|k].
    + simpl. rewrite N.mul_1_r.
      destruct (N.eqb_spec (c mod b) 0); [done|]. f_equal. lia.
    + rewrite Nat2N.inj_succ, N.pow_succ_r'.
      replace (c * (b * b ^ N.of_nat k)) with (c * b ^ N.of_nat k * b) by lia.
      rewrite N.Div0.mod_mul, N.div_mul by lia. simpl.
      rewrite IH; [f_equal; lia|done|done|].
      rewrite Nat2N.inj_succ, N.pow_succ_r' in Hlt.
      rewrite Nat2N.inj_succ, N.pow_succ_r' in Hlt. nia.
Qed.

Lemma strip_mul_pow b k c e : 2 <= b -> c <> 0 -> c mod b <> 0 ->
  strip b (c * b ^ N.of_nat k) e = (c, (e + Z.of_nat k)%Z).
Proof.
  intros Hb Hc Hm. unfold strip.
  assert (Hp : b ^ N.of_nat k <> 0) by (apply N.pow_nonzero; lia).
  destruct (N.eqb_spec (c * b ^ N.of_nat k) 0) as [E|_]; [nia|].
  apply strip_aux_mul_pow; [done..|apply size_bound].
Qed.

Lemma strip_normal b c e : 2 <= b -> c <> 0 -> c mod b <> 0 ->
  strip b c e = (c, e).
Proof.
  intros Hb Hc Hm. pose proof (strip_mul_pow b 0 c e Hb Hc Hm) as H.
  simpl in H. rewrite N.mul_1_r, Z.add_0_r in H. done.
Qed.


(** Every non-zero number is a number without trailing zero times a power
    of the base. *)
Lemma trailing_zeros b n : 2 <= b -> n <> 0 ->
  exists c k, n = c * b ^ N.of_nat k /\ c <> 0 /\ c mod b <> 0.
Proof.
  intros Hb. induction n as [|n Hn IH] using (N_div_ind b Hb); [done|].
  intros _. destruct (N.eq_dec (n mod b) 0) as [E|E].
  - assert (Hq : n / b <> 0).
    { pose proof (N.div_mod' n b). nia. }
    destruct (IH Hq) as (c & k & Hck & Hc & Hm).
    exists c, (S k). split; [|done].
    rewrite Nat2N.inj_succ, N.pow_succ_r'.
    pose proof (N.div_mod' n b). nia.
  - exists n, 0%nat. simpl. split; [lia|done].
Qed.

Lemma strip_spec b c e : 2 <= b ->
  exists c' k, strip b c e = (c', (if N.eqb c 0 then 0 else e + Z.of_nat k)%Z)
               /\ c = c' * b ^ N.of_nat k
               /\ (c = 0 -> c' = 0) /\ (c <> 0 -> c' <> 0 /\ c' mod b <> 0).
Proof.
  intros Hb. destruct (N.eq_dec c 0) as [->|Hc].
  - exists 0, 0%nat. simpl. done.
  - destruct (trailing_zeros b c Hb Hc) as (c' & k & -> & Hc' & Hm).
    exists c', k. rewrite strip_mul_pow by done.
    destruct (N.eqb_spec (c' * b ^ N.of_nat k) 0); done.
Qed.

Lemma ndigits_le b (Hb : 2 <= b) k : forall n, n < b ^ N.of_nat k -> (ndigits b n <= k)%nat.
Proof.
  induction k as [|k IH]; intros n Hn.
  - simpl in Hn. assert (n = 0) by lia. subst. done.
  - destruct (N.eq_dec n 0) as [->|Hz]; [rewrite ndigits_0; lia|].
    unfold ndigits in *. rewrite to_digits_step, length_app by done. simpl.
    rewrite Nat2N.inj_succ, N.pow_succ_r' in Hn.
    assert (n / b < b ^ N.of_nat k) by (apply N.Div0.div_lt_upper_bound; lia).
    specialize (IH _ H). lia.
Qed.

Lemma numeral_digit d : d < 10 ->
  is_digit (numeral d) = true /\ digit_val (numeral d) = d.
Proof.
  intros Hd. unfold is_digit, digit_val, numeral.
  destruct (N.ltb_spec d 10); [|lia].
  rewrite N_ascii_embedding by lia.
  split; [|lia].
  apply andb_true_iff. split; apply N.leb_le; lia.
Qed.

Lemma render_digits n : Forall (fun a => is_digit a = true) (render 10 n).
Proof.
  unfold render. apply Forall_map.
  eapply Forall_impl; [apply (to_digits_lt 10 n); lia|].
  intros d Hd. by apply numeral_digit.
Qed.

Lemma render_length b n : length (render b n) = ndigits b n.
Proof. unfold render, ndigits. apply length_map. Qed.

Lemma chars_value_of_digits l :
  chars_value l = of_digits 10 (map digit_val l).
Proof.
  unfold chars_value, of_digits. generalize 0.
  induction l as [|a l IH]; intros acc; simpl; [done|apply IH].
Qed.

Lemma chars_value_app xs ys :
  chars_value (xs ++ ys)
  = chars_value xs * 10 ^ N.of_nat (length ys) + chars_value ys.
Proof.
  rewrite !chars_value_of_digits, map_app, of_digits_app, length_map. done.
Qed.

Lemma chars_value_render n : chars_value (render 10 n) = n.
Proof.
  rewrite chars_value_of_digits. unfold render. rewrite map_map.
  rewrite <- (of_to_digits 10 n) at 2 by lia. f_equal.
  rewrite <- (map_id (to_digits 10 n)) at 2.
  apply map_ext_Forall.
  eapply Forall_impl; [apply (to_digits_lt 10 n); lia|].
  intros d Hd. by apply numeral_digit.
Qed.

Lemma chars_value_zeros k : chars_value (zeros k) = 0.
Proof.
  unfold zeros. induction k as [|k IH]; [done|].
  change (repeat "0"%char (S k)) with (["0"%char] ++ repeat "0"%char k)%list.
  rewrite chars_value_app, IH. done.
Qed.

Lemma zeros_digits k : Forall (fun a => is_digit a = true) (zeros k).
Proof. unfold zeros. induction k; simpl; constructor; done. Qed.

Lemma zeros_length k : length (zeros k) = k.
Proof. apply repeat_length. Qed.

Lemma span_digits_app ds rest :
  Forall (fun a => is_digit a = true) ds -> stops rest ->
  span_digits (ds ++ rest) = (ds, rest).
Proof.
  intros Hds Hrest. induction Hds as [|a ds Ha _ IH]; cbn [app span_digits].
  - destruct rest as [|a r]; [done|]. cbn [stops] in Hrest.
    cbn [span_digits]. by rewrite Hrest.
  - by rewrite Ha, IH.
Qed.

Lemma span_digits_all ds :
  Forall (fun a => is_digit a = true) ds -> span_digits ds = (ds, []).
Proof.
  intros H. rewrite <- (app_nil_r ds) at 1. by apply span_digits_app.
Qed.

Lemma render_nonempty n : n <> 0 ->
  exists a r, render 10 n = a :: r /\ is_digit a = true /\ a <> "0"%char.
Proof.
  intros Hn. destruct (to_digits_nonzero 10 n) as (d & ds & E & Hd); [lia|done|].
  pose proof (to_digits_lt 10 n ltac:(lia)) as Hlt. rewrite E in Hlt.
  assert (d < 10) by (inversion Hlt; subst; lia).
  unfold render. rewrite E. simpl. eexists _, _. split; [done|].
  split; [by apply numeral_digit|].
  intros Hc. apply (f_equal digit_val) in Hc.
  rewrite (proj2 (numeral_digit d H)) in Hc. vm_compute in Hc. done.
Qed.

End DigitsFacts.

(** ** The engine *)

Module EngineFacts.
Import Digits DigitsFacts PreciseDecimal.
Local Open Scope N_scope.

Lemma clamp_wf neg c e : c = 0 \/ c mod 10 <> 0 -> wf (clamp neg (c, e)).
Proof.
  intros Hc. unfold clamp.
  destruct (N.eqb_spec c 0) as [->|Hz]; [by left|].
  destruct (Z.ltb_spec maxE (sci_exp c e)); [done|].
  destruct (Z.ltb_spec (sci_exp c e) minE); [by left|].
  right. destruct Hc; [done|]. repeat split; [done..|lia|lia].
Qed.

Lemma strip_wf neg c e : wf (clamp neg (strip 10 c e)).
Proof.
  destruct (strip_spec 10 c e) as (c' & k & -> & _ & H0 & H1); [lia|].
  apply clamp_wf. destruct (N.eq_dec c 0) as [Hc|Hc]; [left; auto|right].
  by apply H1.
Qed.

Lemma of_parts_wf neg c e : wf (of_parts neg c e).
Proof. apply strip_wf. Qed.

Lemma finalise_wf neg c e : wf (finalise neg c e).
Proof. unfold finalise. destruct (round_sd 10 precision c e). apply strip_wf. Qed.

Lemma zero_wf neg : wf (Fin neg 0 0).
Proof. by left. Qed.

Ltac wf_cases :=
  repeat match goal with
         | |- context [if ?b then _ else _] => destruct b
         end;
  first [done | apply zero_wf | apply finalise_wf].

Lemma plus_wf x y : wf (plus x y).
Proof. destruct x, y; cbn [plus]; wf_cases. Qed.

Lemma times_wf x y : wf (times x y).
Proof. destruct x, y; cbn [times]; wf_cases. Qed.

Lemma div_wf x y : wf (div x y).
Proof. destruct x, y; cbn [div]; wf_cases. Qed.

Lemma apply_arith_wf m x y : wf (apply_arith m x y).
Proof.
  destruct m; simpl; [apply times_wf|apply plus_wf|apply div_wf|apply plus_wf].
Qed.

Lemma unsigned_zero_wf x : wf x -> wf (unsigned_zero x).
Proof. destruct x as [| |s [|p] e]; simpl; try done. intros _. by left. Qed.

Lemma unsigned_zero_idem x : unsigned_zero (unsigned_zero x) = unsigned_zero x.
Proof. by destruct x as [| |s [|p] e]. Qed.

(** A normal form in range is what the constructor builds from it. *)
Lemma of_parts_normal neg c e : c <> 0 -> wf (Fin neg c e) ->
  of_parts neg c e = Fin neg c e.
Proof.
  intros Hc [[? _]|(_ & Hm & Hr)]; [done|].
  unfold of_parts. rewrite strip_normal by (done || lia).
  unfold clamp. destruct (N.eqb_spec c 0); [done|].
  destruct (Z.ltb_spec maxE (sci_exp c e)); [lia|].
  destruct (Z.ltb_spec (sci_exp c e) minE); [lia|done].
Qed.

Lemma of_parts_mul_pow neg c e k : c <> 0 -> wf (Fin neg c (e + Z.of_nat k)) ->
  of_parts neg (c * 10 ^ N.of_nat k) e = Fin neg c (e + Z.of_nat k).
Proof.
  intros Hc Hwf. rewrite <- (of_parts_normal neg c (e + Z.of_nat k)) by done.
  destruct Hwf as [[? _]|(_ & Hm & Hr)]; [done|].
  unfold of_parts. rewrite strip_mul_pow, strip_normal by (done || lia). done.
Qed.

(** *** Exact scaling by powers of ten *)





Lemma N_chars_digits n : Forall (fun a => is_digit a = true) (N_chars n).
Proof.
  unfold N_chars. destruct (N.eqb n 0); [by constructor|apply render_digits].
Qed.

Lemma N_chars_cons n : exists a r, N_chars n = a :: r /\ is_digit a = true.
Proof.
  unfold N_chars. destruct (N.eqb_spec n 0) as [|Hn]; [by eexists _, _|].
  destruct (render_nonempty n Hn) as (a & r & -> & Ha & _). by eexists _, _.
Qed.

Lemma N_chars_value n : chars_value (N_chars n) = n.
Proof.
  unfold N_chars. destruct (N.eqb_spec n 0) as [->|Hn]; [done|].
  apply chars_value_render.
Qed.

Lemma exp_suffix_cons E : exists r, exp_suffix E = "e"%char :: r.
Proof. unfold exp_suffix. destruct (E <? 0)%Z; by eexists. Qed.

Lemma parse_exponent_suffix E : parse_exponent (exp_suffix E) = Some E.
Proof.
  unfold exp_suffix, Z_chars.
  destruct (N_chars_cons (Z.abs_N E)) as (a & r & Hc & Ha).
  pose proof (N_chars_digits (Z.abs_N E)) as Hd.
  pose proof (N_chars_value (Z.abs_N E)) as Hv.
  destruct (Z.ltb_spec E 0); cbn [app parse_exponent Ascii.eqb Bool.eqb orb andb].
  - rewrite (span_digits_all _ Hd), Hc. rewrite <- Hc, Hv.
    unfold signed. f_equal. lia.
  - rewrite (span_digits_all _ Hd), Hc. rewrite <- Hc, Hv.
    unfold signed. f_equal. lia.
Qed.

Lemma parse_decimal_frac neg ip fp sfx :
  Forall (fun a => is_digit a = true) ip ->
  Forall (fun a => is_digit a = true) fp ->
  ip <> [] -> stops sfx ->
  parse_decimal neg (ip ++ "."%char :: fp ++ sfx)
  = match parse_exponent sfx with
    | Some ex => Some (of_parts neg (chars_value (ip ++ fp))
                                (ex - Z.of_nat (length fp)))
    | None => None
    end.
Proof.
  intros Hip Hfp Hne Hs. unfold parse_decimal.
  rewrite (span_digits_app ip) by done.
  cbn match. rewrite (span_digits_app fp sfx) by done.
  destruct ip; done.
Qed.

Lemma parse_decimal_int neg ip sfx :
  Forall (fun a => is_digit a = true) ip -> ip <> [] ->
  sfx = [] \/ (exists r, sfx = "e"%char :: r) ->
  parse_decimal neg (ip ++ sfx)
  = match parse_exponent sfx with
    | Some ex => Some (of_parts neg (chars_value ip) ex)
    | None => None
    end.
Proof.
  intros Hip Hne Hs. unfold parse_decimal.
  rewrite (span_digits_app ip sfx); [|done|by destruct Hs as [->|[r ->]]].
  destruct Hs as [->|[r ->]]; cbn match; rewrite app_nil_r;
    destruct ip; try done;
    match goal with |- context [parse_exponent ?s] => destruct (parse_exponent s) end;
    try done; cbn [length]; change (Z.of_nat 0) with 0%Z; by rewrite Z.sub_0_r.
Qed.

Lemma stops_exp_suffix E : stops (exp_suffix E).
Proof. destruct (exp_suffix_cons E) as [r ->]. done. Qed.

Lemma parse_decimal_finite neg c e :
  c <> 0 -> wf (Fin neg c e) ->
  parse_decimal neg (finite_chars c e) = Some (Fin neg c e).
Proof.
  intros Hc Hwf.
  pose proof (render_digits c) as Hds.
  pose proof (render_length 10 c) as Hlen.
  pose proof (chars_value_render c) as Hval.
  destruct (render_nonempty c Hc) as (a & r & Hr & Ha & _).
  unfold finite_chars, sci_exp. rewrite <- Hlen.
  set (ds := render 10 c) in *. clearbody ds.
  set (E := (e + Z.of_nat (length ds) - 1)%Z).
  assert (HE : E = sci_exp c e) by (unfold E, sci_exp; lia).
  destruct ((E <=? toExpNeg)%Z || (toExpPos <=? E)%Z).
  - (* exponential notation *)
    subst ds. destruct r as [|a' r].
    + change ([a] ++ exp_suffix E)%list with ([a] ++ exp_suffix E)%list.
      rewrite parse_decimal_int; [|done|done|right; apply exp_suffix_cons].
      rewrite parse_exponent_suffix, Hval. f_equal.
      replace E with e by (unfold E; simpl; lia).
      by apply of_parts_normal.
    + change ((a :: "."%char :: a' :: r) ++ exp_suffix E)%list
        with ([a] ++ "."%char :: (a' :: r) ++ exp_suffix E)%list.
      apply Forall_cons in Hds as [_ Hds].
      rewrite parse_decimal_frac; [|by constructor|done|done|apply stops_exp_suffix].
      rewrite parse_exponent_suffix. cbn [app]. rewrite Hval. f_equal.
      replace (E - Z.of_nat (length (a' :: r)))%Z with e
        by (unfold E; cbn [length]; lia).
      by apply of_parts_normal.
  - destruct (Z.ltb_spec E 0).
    + (* 0.000ddd *)
      change (["0"; "."]%char ++ zeros (Z.to_nat (- E - 1)) ++ ds)%list
        with (["0"%char] ++ "."%char :: (zeros (Z.to_nat (- E - 1)) ++ ds))%list.
      rewrite <- (app_nil_r (zeros _ ++ ds)).
      rewrite parse_decimal_frac;
        [|by constructor|apply Forall_app; split; [apply zeros_digits|done]|done|done].
      cbn [parse_exponent].
      change (["0"%char] ++ ?x)%list with (zeros 1 ++ x)%list.
      rewrite !chars_value_app, !chars_value_zeros, Hval, length_app, zeros_length.
      f_equal. rewrite !N.mul_0_l, !N.add_0_l.
      replace (0 - Z.of_nat (Z.to_nat (- E - 1) + length ds))%Z with e
        by (unfold E in *; lia).
      by apply of_parts_normal.
    + destruct (Z.leb_spec (Z.of_nat (length ds)) E).
      * (* ddd000 *)
        rewrite <- (app_nil_r (ds ++ zeros _)).
        rewrite parse_decimal_int;
          [|apply Forall_app; split; [done|apply zeros_digits]
           |subst ds; done|by left].
        cbn [parse_exponent].
        rewrite chars_value_app, chars_value_zeros, Hval, zeros_length, N.add_0_r.
        f_equal.
        assert (Hk : (0 + Z.of_nat (Z.to_nat (E + 1 - Z.of_nat (length ds))) = e)%Z)
          by (unfold E in *; lia).
        rewrite <- Hk. apply of_parts_mul_pow; [done|]. by rewrite Hk.
      * destruct (Z.ltb_spec (E + 1) (Z.of_nat (length ds))).
        -- (* dd.ddd *)
           set (j := Z.to_nat (E + 1)).
           rewrite <- (app_nil_r (drop j ds)).
           rewrite parse_decimal_frac;
             [|by apply Forall_take|by apply Forall_drop| |done].
           ++ cbn [parse_exponent]. rewrite take_drop, Hval, length_drop.
              f_equal.
              replace (0 - Z.of_nat (length ds - j))%Z with e
                by (unfold j, E in *; lia).
              by apply of_parts_normal.
           ++ subst ds. unfold j.
              destruct (Z.to_nat (E + 1)) eqn:Hj; [lia|done].
        -- (* ddd *)
           rewrite <- (app_nil_r ds).
           rewrite parse_decimal_int; [|done|subst ds; done|by left].
           cbn [parse_exponent]. rewrite Hval. f_equal.
           replace 0%Z with e at 1 by (unfold E in *; lia).
           by apply of_parts_normal.
Qed.

Lemma split_sign_digit a r : is_digit a = true -> split_sign (a :: r) = (false, a :: r).
Proof.
  intros Ha. unfold split_sign.
  destruct (Ascii.eqb_spec a "-") as [->|_]; [done|].
  destruct (Ascii.eqb_spec a "+") as [->|_]; done.
Qed.

Lemma parse_decimal_not_sign neg c e a r :
  c <> 0 -> wf (Fin neg c e) -> finite_chars c e = a :: r ->
  split_sign (a :: r) = (false, a :: r).
Proof.
  intros Hc Hwf E. pose proof (parse_decimal_finite neg c e Hc Hwf) as H.
  rewrite E in H. unfold split_sign.
  destruct (Ascii.eqb_spec a "-") as [->|_]; [done|].
  destruct (Ascii.eqb_spec a "+") as [->|_]; done.
Qed.

Lemma parse_chars_toString x : wf x ->
  parse_chars (toString_chars x) = Parsed (unsigned_zero x).
Proof.
  intros Hwf. destruct x as [|[]|neg c e]; [done..|].
  unfold toString_chars. destruct (N.eqb_spec c 0) as [->|Hc].
  - destruct Hwf as [[_ ->]|[? _]]; done.
  - assert (Hu : unsigned_zero (Fin neg c e) = Fin neg c e) by (by destruct c).
    rewrite Hu. unfold parse_chars.
    destruct neg.
    + cbn [app split_sign Ascii.eqb Bool.eqb].
      by rewrite parse_decimal_finite.
    + cbn [app]. destruct (finite_chars c e) as [|a r] eqn:E.
      * pose proof (parse_decimal_finite false c e Hc Hwf) as H.
        by rewrite E in H.
      * rewrite (parse_decimal_not_sign false c e a r Hc Hwf E), <- E.
        by rewrite parse_decimal_finite.
Qed.

Lemma parse_toString x : wf x -> parse (toString x) = Parsed (unsigned_zero x).
Proof.
  intros Hwf. unfold parse, toString.
  rewrite list_ascii_of_string_of_list_ascii. by apply parse_chars_toString.
Qed.


Lemma parse_wf s d : parse s = Parsed d -> wf d.
Proof.
  unfold parse, parse_chars. destruct (split_sign _) as [neg v].
  unfold parse_decimal.
  destruct (span_digits v) as [ip r1].
  set (X := match r1 with "."%char :: r => _ | _ => _ end).
  destruct X as [[fp r2] dot].
  set (ok := match ip with [] => _ | _ => _ end).
  assert (Hother : parse_other neg v = Parsed d -> wf d).
  { unfold parse_other, parse_radix.
    repeat case_match; intros HP; try discriminate HP; injection HP as <-;
      first [done | apply of_parts_wf]. }
  destruct ok; [|exact Hother].
  destruct (parse_exponent r2); [|exact Hother].
  intros [= <-]. apply of_parts_wf.
Qed.

(** *** Integral numbers as exponents *)

Lemma parse_Z_chars z :
  parse (string_of_list_ascii (Z_chars z))
  = Parsed (of_parts (z <? 0)%Z (Z.abs_N z) 0).
Proof.
  unfold parse. rewrite list_ascii_of_string_of_list_ascii.
  unfold Z_chars, parse_chars.
  pose proof (N_chars_digits (Z.abs_N z)) as Hd.
  destruct (N_chars_cons (Z.abs_N z)) as (a & r & Hc & Ha).
  assert (Hne : N_chars (Z.abs_N z) <> []) by (by rewrite Hc).
  destruct (Z.ltb_spec z 0).
  - cbn [split_sign Ascii.eqb Bool.eqb].
    rewrite <- (app_nil_r (N_chars _)), parse_decimal_int by (done || by left).
    cbn [parse_exponent]. by rewrite N_chars_value.
  - rewrite Hc, (split_sign_digit a r Ha), <- Hc.
    rewrite <- (app_nil_r (N_chars _)), parse_decimal_int by (done || by left).
    cbn [parse_exponent]. by rewrite N_chars_value.
Qed.

Lemma pow_ten_integer z : js_integer z ->
  pow ten (of_parts (z <? 0)%Z (Z.abs_N z) 0) = Some (pow10 z).
Proof.
  intros Hz. unfold of_parts.
  destruct (strip_spec 10 (Z.abs_N z) 0) as (c & k & -> & Hv & H0 & H1); [lia|].
  destruct (N.eqb_spec (Z.abs_N z) 0) as [E|E].
  - rewrite (H0 E). assert (z = 0%Z) by lia. subst z. done.
  - destruct (H1 E) as [Hc Hm].
    assert (Hnd : (ndigits 10 c + k <= 21)%nat).
    { rewrite <- ndigits_mul_pow, <- Hv by (done || lia).
      apply ndigits_le; [lia|]. unfold js_integer in Hz.
      change (N.of_nat 21) with 21. lia. }
    pose proof (ndigits_pos 10 c ltac:(lia) Hc) as Hpos.
    unfold clamp. destruct (N.eqb_spec c 0); [done|].
    unfold sci_exp.
    destruct (Z.ltb_spec maxE (0 + Z.of_nat k + Z.of_nat (ndigits 10 c) - 1));
      [unfold maxE in *; lia|].
    destruct (Z.ltb_spec (0 + Z.of_nat k + Z.of_nat (ndigits 10 c) - 1) minE);
      [unfold minE in *; lia|].
    cbn [pow is_ten ten]. destruct (N.eqb_spec c 0); [done|].
    destruct (Z.leb_spec 0 (0 + Z.of_nat k)); [|lia].
    unfold pow10. do 2 f_equal.
    assert (Hzv : Z.of_N (Z.abs_N z) = (Z.of_N c * 10 ^ Z.of_nat k)%Z).
    { rewrite Hv, N2Z.inj_mul, N2Z.inj_pow. do 2 f_equal. lia. }
    rewrite Z.add_0_l. unfold signed.
    destruct (Z.ltb_spec z 0); lia.
Qed.

End EngineFacts.
Module StoreFacts.
Import PreciseDecimal EngineFacts.

Lemma run_bind {A B} (m : M A) (k : A -> M B) h :
  run (m ≫= k) h = match run m h with
                   | (Ok a, h1) => run (k a) h1
                   | (Throw e, h1) => (Throw e, h1)
                   end.
Proof. reflexivity. Qed.

(** *** The store only grows *)

Lemma grows_ret {A} (a : A) : grows (ret a).
Proof. intros h. done. Qed.

Lemma grows_throw {A} e : grows (@throw A e).
Proof. intros h. done. Qed.

Lemma grows_bind {A B} (m : M A) (k : A -> M B) :
  grows m -> (forall a, grows (k a)) -> grows (m ≫= k).
Proof.
  intros Hm Hk h. rewrite run_bind. specialize (Hm h).
  destruct (run m h) as [[a|e] h1]; [|done].
  etrans; [exact Hm|apply Hk].
Qed.

Lemma fresh_None (h : heap) : h !! fresh (dom h) = None.
Proof. apply not_elem_of_dom, is_fresh. Qed.

Lemma grows_alloc c : grows (alloc c).
Proof. intros h. apply insert_subseteq, fresh_None. Qed.

Lemma allocates_alloc c : allocates (alloc c).
Proof. intros h. apply fresh_None. Qed.

Lemma grows_read l : grows (read l).
Proof. intros h. unfold run, read. by destruct (h !! l). Qed.

Lemma grows_read_decimal l : grows (read_decimal l).
Proof.
  apply grows_bind; [apply grows_read|]. intros []; [apply grows_ret|apply grows_throw].
Qed.

Lemma grows_read_bigval l : grows (read_bigval l).
Proof.
  apply grows_bind; [apply grows_read|]. intros []; [apply grows_throw|apply grows_ret].
Qed.

Ltac grows_step :=
  match goal with
  | |- grows (_ ≫= _) => apply grows_bind
  | |- grows (ret _) => apply grows_ret
  | |- grows (mret _) => apply grows_ret
  | |- grows (throw _) => apply grows_throw
  | |- grows (alloc _) => apply grows_alloc
  | |- grows (read_decimal _) => apply grows_read_decimal
  | |- grows (read_bigval _) => apply grows_read_bigval
  | |- forall _ : _ * _, _ => intros []
  | |- forall _, _ => intro
  | |- grows (match ?x with _ => _ end) => destruct x
  | |- grows (if ?b then _ else _) => destruct b
  | |- grows (let '(_, _) := ?x in _) => destruct x
  end.

Lemma grows_template a : grows (template a).
Proof. destruct a; cbn [template]; repeat grows_step. Qed.

Lemma grows_toDecimal a : grows (toDecimal a).
Proof. unfold toDecimal. apply grows_bind; [apply grows_template|]. repeat grows_step. Qed.

Lemma allocates_bind {A} (m : M A) (k : A -> M loc) :
  grows m -> (forall a, allocates (k a)) -> allocates (m ≫= k).
Proof.
  intros Hm Hk h. rewrite run_bind. specialize (Hm h).
  destruct (run m h) as [[a|e] h1]; [|done]. specialize (Hk a h1).
  destruct (run (k a) h1) as [[l|e] h2]; [|done]. simpl in *.
  by eapply lookup_weaken_None.
Qed.

Lemma allocates_throw e : allocates (throw e).
Proof. intros h. done. Qed.

Lemma allocates_toDecimal a : allocates (toDecimal a).
Proof.
  unfold toDecimal. apply allocates_bind; [apply grows_template|].
  intros s. destruct (parse s); [apply allocates_alloc|apply allocates_throw..].
Qed.

Lemma grows_ten_pow v : grows (ten_pow v).
Proof.
  unfold ten_pow. repeat (apply grows_toDecimal || grows_step).
Qed.

Lemma grows_toString_of this base : grows (toString_of this base).
Proof. unfold toString_of. repeat grows_step. Qed.

(** Assigning a field of an object that was allocated on the way keeps
    the objects of the initial store. *)
Lemma grows_retag (m : M loc) tag :
  grows m -> allocates m ->
  grows (n ← m; set_scale n tag;; mret n).
Proof.
  intros Hg Ha h. rewrite run_bind. specialize (Hg h). specialize (Ha h).
  destruct (run m h) as [[n|e] h1]; [|done]. simpl in Hg, Ha.
  rewrite run_bind. unfold set_scale. rewrite run_bind.
  pose proof (grows_read_bigval n h1) as Hr.
  destruct (run (read_bigval n) h1) as [[[[n' sc] cfg]|e] h2] eqn:E; simpl in Hr.
  - assert (h2 = h1) as ->.
    { unfold read_bigval, run, mbind, M_bind, bind, read in E.
      destruct (h1 !! n) as [[]|]; by inversion E. }
    cbn. by apply insert_subseteq_r.
  - simpl. by etrans.
Qed.

End StoreFacts.
Module FrameFacts.
Import PreciseDecimal EngineFacts StoreFacts.

Ltac grows_auto :=
  repeat first [ apply grows_toDecimal | apply grows_ten_pow | grows_step ].

Ltac allocates_step :=
  match goal with
  | |- allocates (_ ≫= _) => apply allocates_bind; [grows_auto|]
  | |- allocates (alloc _) => apply allocates_alloc
  | |- allocates (throw _) => apply allocates_throw
  | |- forall _ : _ * _, _ => intros []
  | |- forall _, _ => intro
  | |- allocates (match ?x with _ => _ end) => destruct x
  end.

Lemma grows_new src scale config : grows (BigVal.new src scale config).
Proof. destruct src; cbn [BigVal.new]; grows_auto. Qed.

Lemma allocates_new src scale config : allocates (BigVal.new src scale config).
Proof.
  destruct src; cbn [BigVal.new]; repeat allocates_step.
Qed.

Lemma grows_arith_core m this operand :
  grows operand -> grows (BigVal.arith_core m this operand).
Proof.
  intros Ho. unfold BigVal.arith_core.
  repeat first [ exact Ho | apply grows_new | grows_step ].
Qed.

Lemma allocates_arith_core m this operand :
  grows operand -> allocates (BigVal.arith_core m this operand).
Proof.
  intros Ho. unfold BigVal.arith_core.
  repeat first [ apply allocates_new
               | apply allocates_bind; [exact Ho|]
               | allocates_step ].
Qed.

Lemma grows_compare_core m this operand :
  grows operand -> grows (BigVal.compare_core m this operand).
Proof.
  intros Ho. unfold BigVal.compare_core. repeat first [ exact Ho | grows_step ].
Qed.

Lemma grows_scaleDown this v : grows (BigVal.scaleDown this v).
Proof.
  unfold BigVal.scaleDown. apply grows_bind; [apply grows_ten_pow|].
  intros p. apply grows_arith_core, grows_toDecimal.
Qed.

Lemma allocates_scaleDown this v : allocates (BigVal.scaleDown this v).
Proof.
  unfold BigVal.scaleDown. apply allocates_bind; [apply grows_ten_pow|].
  intros p. apply allocates_arith_core, grows_toDecimal.
Qed.

Lemma grows_scaleUp this v : grows (BigVal.scaleUp this v).
Proof.
  unfold BigVal.scaleUp. apply grows_bind; [apply grows_ten_pow|].
  intros p. apply grows_arith_core, grows_toDecimal.
Qed.

Lemma allocates_scaleUp this v : allocates (BigVal.scaleUp this v).
Proof.
  unfold BigVal.scaleUp. apply allocates_bind; [apply grows_ten_pow|].
  intros p. apply allocates_arith_core, grows_toDecimal.
Qed.

Lemma grows_toSmallestScale this : grows (BigVal.toSmallestScale this).
Proof.
  unfold BigVal.toSmallestScale. apply grows_bind; [apply grows_read_bigval|].
  intros [[n sc] cfg]. destruct (decide _); [apply grows_ret|].
  apply grows_retag; [apply grows_scaleDown|apply allocates_scaleDown].
Qed.

Lemma grows_toNormalScale this : grows (BigVal.toNormalScale this).
Proof.
  unfold BigVal.toNormalScale. apply grows_bind; [apply grows_read_bigval|].
  intros [[n sc] cfg]. destruct (decide _); [apply grows_ret|].
  apply grows_retag; [apply grows_scaleUp|apply allocates_scaleUp].
Qed.

Lemma grows_toScale this scale : grows (BigVal.toScale this scale).
Proof.
  unfold BigVal.toScale.
  destruct scale as [[|[]|]|];
    first [apply grows_toSmallestScale | apply grows_toNormalScale | apply grows_throw].
Qed.

Lemma grows_toDecimalAtOriginalScale input reference :
  grows (BigVal.toDecimalAtOriginalScale input reference).
Proof.
  destruct input; cbn [BigVal.toDecimalAtOriginalScale];
    repeat first [ apply grows_toDecimal | apply grows_toScale | grows_step ].
Qed.

Lemma grows_arith_method m this v : grows (BigVal.arith_method m this v).
Proof. apply grows_arith_core, grows_toDecimalAtOriginalScale. Qed.

Lemma allocates_arith_method m this v : allocates (BigVal.arith_method m this v).
Proof. apply allocates_arith_core, grows_toDecimalAtOriginalScale. Qed.

Lemma grows_compare_method m this v : grows (BigVal.compare_method m this v).
Proof. apply grows_compare_core, grows_toDecimalAtOriginalScale. Qed.

Lemma is_bigval_weaken h h' l d sc cfg :
  h ⊆ h' -> is_bigval h l d sc cfg -> is_bigval h' l d sc cfg.
Proof.
  intros Hsub (n & Hl & Hn). exists n. split; by eapply lookup_weaken.
Qed.

End FrameFacts.


(** ** Normal forms are an invariant of the store *)

Module InvariantFacts.
Import PreciseDecimal EngineFacts StoreFacts.

Lemma store_ok_empty : store_ok ∅.
Proof. intros l d Hl. by rewrite lookup_empty in Hl. Qed.

Lemma store_ok_insert h l c :
  store_ok h -> (forall d, c = CDecimal d -> wf d) -> store_ok (<[l := c]> h).
Proof.
  intros Hok Hc l' d Hl'. destruct (decide (l = l')) as [->|Hne].
  - rewrite lookup_insert_eq in Hl'. injection Hl' as ->. by apply Hc.
  - rewrite lookup_insert_ne in Hl' by done. by eapply Hok.
Qed.

Lemma store_ok_magnitude h l x sc cfg :
  store_ok h -> is_bigval h l x sc cfg -> wf x.
Proof. intros Hok (n & _ & Hn). by eapply Hok. Qed.

Lemma keeps_ok_ret {A} (a : A) : keeps_ok (mret a).
Proof. intros h Hok. done. Qed.

Lemma keeps_ok_throw {A} e : keeps_ok (@throw A e).
Proof. intros h Hok. done. Qed.

Lemma keeps_ok_bind {A B} (m : M A) (k : A -> M B) :
  keeps_ok m -> (forall a, keeps_ok (k a)) -> keeps_ok (m ≫= k).
Proof.
  intros Hm Hk h Hok. rewrite run_bind. specialize (Hm h Hok).
  destruct (run m h) as [[a|e] h1]; [|done]. by apply Hk.
Qed.

Lemma keeps_ok_alloc_decimal d : wf d -> keeps_ok (alloc (CDecimal d)).
Proof.
  intros Hwf h Hok. apply store_ok_insert; [done|]. by intros d' [= <-].
Qed.

Lemma keeps_ok_alloc_bigval n sc cfg : keeps_ok (alloc (CBigVal n sc cfg)).
Proof. intros h Hok. by apply store_ok_insert. Qed.

Lemma keeps_ok_read l : keeps_ok (read l).
Proof. intros h Hok. unfold run, read. by destruct (h !! l). Qed.

Lemma keeps_ok_read_decimal l : keeps_ok (read_decimal l).
Proof.
  apply keeps_ok_bind; [apply keeps_ok_read|].
  intros []; [apply keeps_ok_ret|apply keeps_ok_throw].
Qed.

Lemma keeps_ok_read_bigval l : keeps_ok (read_bigval l).
Proof.
  apply keeps_ok_bind; [apply keeps_ok_read|].
  intros []; [apply keeps_ok_throw|apply keeps_ok_ret].
Qed.

Lemma keeps_ok_set_scale l tag : keeps_ok (set_scale l tag).
Proof.
  unfold set_scale. apply keeps_ok_bind; [apply keeps_ok_read_bigval|].
  intros [[n sc] cfg] h Hok. by apply store_ok_insert.
Qed.

Ltac ok_step :=
  match goal with
  | |- keeps_ok (_ ≫= _) => apply keeps_ok_bind
  | |- keeps_ok (mret _) => apply keeps_ok_ret
  | |- keeps_ok (ret _) => apply (keeps_ok_ret (A := _))
  | |- keeps_ok (throw _) => apply keeps_ok_throw
  | |- keeps_ok (alloc (CBigVal _ _ _)) => apply keeps_ok_alloc_bigval
  | |- keeps_ok (read_decimal _) => apply keeps_ok_read_decimal
  | |- keeps_ok (read_bigval _) => apply keeps_ok_read_bigval
  | |- keeps_ok (set_scale _ _) => apply keeps_ok_set_scale
  | |- forall _ : _ * _, _ => intros []
  | |- forall _, _ => intro
  | |- keeps_ok (match ?x with _ => _ end) => destruct x
  | |- keeps_ok (if ?b then _ else _) => destruct b
  end.

Lemma keeps_ok_template a : keeps_ok (template a).
Proof. destruct a; cbn [template]; repeat ok_step. Qed.

Lemma keeps_ok_toDecimal a : keeps_ok (toDecimal a).
Proof.
  unfold toDecimal. apply keeps_ok_bind; [apply keeps_ok_template|].
  intros s. destruct (parse s) as [d| |] eqn:E;
    [|apply keeps_ok_throw..].
  eapply keeps_ok_alloc_decimal, parse_wf, E.
Qed.

Lemma pow_wf x y r : pow x y = Some r -> wf r.
Proof.
  unfold pow. destruct (is_ten x); [|done].
  destruct y as [|[]|s c e]; try (intros [= <-]; done || by left).
  destruct (N.eqb c 0); [intros [= <-]; by right|].
  destruct (0 <=? e)%Z; [|done]. intros [= <-]. apply finalise_wf.
Qed.

Lemma keeps_ok_ten_pow v : keeps_ok (ten_pow v).
Proof.
  unfold ten_pow.
  apply keeps_ok_bind; [apply keeps_ok_toDecimal|]. intros p.
  apply keeps_ok_bind; [apply keeps_ok_toDecimal|]. intros y.
  apply keeps_ok_bind; [apply keeps_ok_read_decimal|]. intros dp.
  apply keeps_ok_bind; [apply keeps_ok_read_decimal|]. intros dy.
  destruct (pow dp dy) as [r|] eqn:E; [|apply keeps_ok_throw].
  eapply keeps_ok_alloc_decimal, pow_wf, E.
Qed.

Ltac ok_auto :=
  repeat first [ apply keeps_ok_toDecimal | apply keeps_ok_ten_pow
               | apply keeps_ok_alloc_decimal, apply_arith_wf | ok_step ].

Lemma keeps_ok_new src scale config : keeps_ok (BigVal.new src scale config).
Proof. destruct src; cbn [BigVal.new]; ok_auto. Qed.

Lemma keeps_ok_arith_core m this operand :
  keeps_ok operand -> keeps_ok (BigVal.arith_core m this operand).
Proof.
  intros Ho. unfold BigVal.arith_core.
  repeat first [ exact Ho | apply keeps_ok_new
               | apply keeps_ok_alloc_decimal, apply_arith_wf | ok_step ].
Qed.

Lemma keeps_ok_scaleDown this v : keeps_ok (BigVal.scaleDown this v).
Proof.
  unfold BigVal.scaleDown. apply keeps_ok_bind; [apply keeps_ok_ten_pow|].
  intros p. apply keeps_ok_arith_core, keeps_ok_toDecimal.
Qed.

Lemma keeps_ok_scaleUp this v : keeps_ok (BigVal.scaleUp this v).
Proof.
  unfold BigVal.scaleUp. apply keeps_ok_bind; [apply keeps_ok_ten_pow|].
  intros p. apply keeps_ok_arith_core, keeps_ok_toDecimal.
Qed.

Lemma keeps_ok_toSmallestScale this : keeps_ok (BigVal.toSmallestScale this).
Proof.
  unfold BigVal.toSmallestScale.
  repeat first [ apply keeps_ok_scaleDown | ok_step ].
Qed.

Lemma keeps_ok_toNormalScale this : keeps_ok (BigVal.toNormalScale this).
Proof.
  unfold BigVal.toNormalScale.
  repeat first [ apply keeps_ok_scaleUp | ok_step ].
Qed.

Lemma keeps_ok_toScale this scale : keeps_ok (BigVal.toScale this scale).
Proof.
  unfold BigVal.toScale.
  destruct scale as [[|[]|]|];
    first [ apply keeps_ok_toSmallestScale | apply keeps_ok_toNormalScale
          | apply keeps_ok_throw ].
Qed.

Lemma keeps_ok_operand input reference :
  keeps_ok (BigVal.toDecimalAtOriginalScale input reference).
Proof.
  destruct input; cbn [BigVal.toDecimalAtOriginalScale];
    repeat first [ apply keeps_ok_toDecimal | apply keeps_ok_toScale | ok_step ].
Qed.

(** Every method of the class keeps the engine values of the store in
    normal form. *)
Lemma keeps_ok_arith_method m this v : keeps_ok (BigVal.arith_method m this v).
Proof. apply keeps_ok_arith_core, keeps_ok_operand. Qed.

End InvariantFacts.

(** ** Normal and exceptional returns *)

Module SpecFacts.
Import PreciseDecimal EngineFacts StoreFacts FrameFacts.

Lemma returns_ret {A} (a : A) h (Q : A -> heap -> Prop) :
  Q a h -> returns (mret a) h Q.
Proof. intros HQ. by exists a, h. Qed.

Lemma returns_ret_eq {A} (a : A) h :
  returns (mret a) h (fun r h' => r = a /\ h' = h).
Proof. by apply returns_ret. Qed.

Lemma returns_bind {A B} (m : M A) (k : A -> M B) h P Q :
  returns m h P ->
  (forall a h1, h ⊆ h1 -> P a h1 -> returns (k a) h1 Q) ->
  returns (m ≫= k) h Q.
Proof.
  intros (a & h1 & Em & Hsub & HP) Hk.
  destruct (Hk a h1 Hsub HP) as (b & h2 & Ek & Hsub2 & HQ).
  exists b, h2. rewrite run_bind, Em. split; [done|]. split; [by etrans|done].
Qed.

Lemma returns_mono {A} (m : M A) h (P Q : A -> heap -> Prop) :
  returns m h P -> (forall a h', h ⊆ h' -> P a h' -> Q a h') -> returns m h Q.
Proof.
  intros (a & h' & Em & Hsub & HP) HPQ. exists a, h'. auto.
Qed.

Lemma throws_throw {A} e h : throws (@throw A e) h e.
Proof. by exists h. Qed.

Lemma throws_bind_l {A B} (m : M A) (k : A -> M B) h e :
  throws m h e -> throws (m ≫= k) h e.
Proof. intros (h' & Em). exists h'. by rewrite run_bind, Em. Qed.

Lemma throws_bind {A B} (m : M A) (k : A -> M B) h P e :
  returns m h P ->
  (forall a h1, h ⊆ h1 -> P a h1 -> throws (k a) h1 e) ->
  throws (m ≫= k) h e.
Proof.
  intros (a & h1 & Em & Hsub & HP) Hk.
  destruct (Hk a h1 Hsub HP) as (h2 & Ek).
  exists h2. by rewrite run_bind, Em.
Qed.

(** A computation does not both return and throw. *)
Lemma returns_not_throws {A} (m : M A) h Q e :
  returns m h Q -> ~ throws m h e.
Proof. intros (a & h1 & E1 & _) (h2 & E2). congruence. Qed.

Lemma returns_read l c h :
  h !! l = Some c -> returns (read l) h (fun r h' => r = c /\ h' = h).
Proof. intros Hl. exists c, h. unfold run, read. by rewrite Hl. Qed.

Lemma returns_read_bigval l n sc cfg h :
  h !! l = Some (CBigVal n sc cfg) ->
  returns (read_bigval l) h (fun r h' => r = (n, sc, cfg) /\ h' = h).
Proof.
  intros Hl. eapply returns_bind; [by apply returns_read|].
  intros c h1 _ [-> ->]. by apply returns_ret.
Qed.

Lemma returns_read_decimal l d h :
  h !! l = Some (CDecimal d) ->
  returns (read_decimal l) h (fun r h' => r = d /\ h' = h).
Proof.
  intros Hl. eapply returns_bind; [by apply returns_read|].
  intros c h1 _ [-> ->]. by apply returns_ret.
Qed.

Lemma returns_alloc c h :
  returns (alloc c) h (fun l h' => h !! l = None /\ h' !! l = Some c).
Proof.
  exists (fresh (dom h)), (<[fresh (dom h) := c]> h).
  pose proof (fresh_None h).
  split; [done|]. split; [by apply insert_subseteq|].
  split; [done|apply lookup_insert_eq].
Qed.

(** *** Coercions *)

Lemma returns_parsed (m : M string) h s d :
  returns m h (fun r h' => r = s /\ h' = h) -> parse s = Parsed d ->
  returns (r ← m;
           match parse r with
           | Parsed d => alloc (CDecimal d)
           | Invalid => throw (DecimalError r)
           | Unmodelled => throw OutsideModel
           end) h
          (fun l h' => h !! l = None /\ h' !! l = Some (CDecimal d)).
Proof.
  intros Hm Hp. eapply returns_bind; [exact Hm|].
  intros r h1 _ [-> ->]. rewrite Hp. apply returns_alloc.
Qed.

Lemma returns_toDecimal_decimal l d h :
  h !! l = Some (CDecimal d) -> wf d ->
  returns (toDecimal (JDecimal l)) h
          (fun l' h' => h !! l' = None /\
                        h' !! l' = Some (CDecimal (unsigned_zero d))).
Proof.
  intros Hl Hwf. unfold toDecimal.
  apply returns_parsed with (s := toString d); [|by apply parse_toString].
  cbn [template]. eapply returns_bind; [by apply returns_read_decimal|].
  intros r h1 _ [-> ->]. by apply returns_ret.
Qed.

Lemma returns_toDecimal_num z h :
  returns (toDecimal (JNum z)) h
          (fun l' h' => h !! l' = None /\
                        h' !! l' = Some (CDecimal (of_parts (z <? 0)%Z (Z.abs_N z) 0))).
Proof.
  unfold toDecimal. eapply returns_parsed; [|apply parse_Z_chars].
  cbn [template]. by apply returns_ret.
Qed.

Lemma returns_toDecimal_str s d h :
  parse s = Parsed d ->
  returns (toDecimal (JStr s)) h
          (fun l' h' => h !! l' = None /\ h' !! l' = Some (CDecimal d)).
Proof.
  intros Hp. unfold toDecimal. eapply returns_parsed; [|exact Hp].
  cbn [template]. by apply returns_ret.
Qed.

Lemma throws_toDecimal_undefined h :
  throws (toDecimal JUndefined) h (DecimalError "undefined").
Proof. by eexists. Qed.

Lemma unsigned_zero_clamp ce : unsigned_zero (clamp false ce) = clamp false ce.
Proof.
  destruct ce as [c e]. unfold clamp.
  destruct (N.eqb_spec c 0); [done|].
  destruct (_ <? _)%Z; [done|]. destruct (_ <? _)%Z; [done|].
  by destruct c.
Qed.

Lemma unsigned_zero_pow10 D : unsigned_zero (pow10 D) = pow10 D.
Proof.
  unfold pow10, finalise. destruct (Digits.round_sd _ _ _ _).
  apply unsigned_zero_clamp.
Qed.

Lemma pow10_wf D : wf (pow10 D).
Proof. apply finalise_wf. Qed.

(** [toDecimal(10).pow(toDecimal(D))] *)
Lemma returns_ten_pow D h :
  js_integer D ->
  returns (ten_pow (JNum D)) h
          (fun p h' => h !! p = None /\ h' !! p = Some (CDecimal (pow10 D))).
Proof.
  intros HD. unfold ten_pow.
  eapply returns_bind; [apply returns_toDecimal_num|].
  intros p h1 Hs1 [_ Hp]. change (of_parts _ _ _) with ten in Hp.
  eapply returns_bind; [apply returns_toDecimal_num|].
  intros y h2 Hs2 [_ Hy].
  eapply returns_bind; [apply returns_read_decimal; by eapply lookup_weaken|].
  intros dp h3 _ [-> ->].
  eapply returns_bind; [by apply returns_read_decimal|].
  intros dy h3 _ [-> ->].
  rewrite pow_ten_integer by done.
  eapply returns_mono; [apply returns_alloc|].
  intros r h3 _ [Hr1 Hr2]. split; [|done].
  eapply lookup_weaken_None; [|exact Hs1].
  by eapply lookup_weaken_None.
Qed.

Lemma throws_ten_pow_undefined h :
  throws (ten_pow JUndefined) h (DecimalError "undefined").
Proof.
  unfold ten_pow. eapply throws_bind; [apply returns_toDecimal_num|].
  intros p h1 _ _. apply throws_bind_l, throws_toDecimal_undefined.
Qed.

End SpecFacts.

(** ** The class of [src/index.ts] *)

Module BigValFacts.
Import PreciseDecimal EngineFacts StoreFacts FrameFacts SpecFacts.

Lemma returns_new_decimal r d sc cfg h :
  h !! r = Some (CDecimal d) -> wf d ->
  returns (BigVal.new (JDecimal r) (Some sc) (Some cfg)) h
          (fun l h' => h !! l = None /\
                       is_bigval h' l (unsigned_zero d) sc cfg).
Proof.
  intros Hr Hwf. cbn [BigVal.new default].
  eapply returns_bind; [by apply returns_toDecimal_decimal|].
  intros n h1 Hs1 [Hn0 Hn].
  eapply returns_mono; [apply returns_alloc|].
  intros l h2 Hs2 [Hl0 Hl]. split; [by eapply lookup_weaken_None|].
  exists n. split; [done|by eapply lookup_weaken].
Qed.

Lemma returns_arith_core m this operand h x sc cfg dy :
  is_bigval h this x sc cfg ->
  returns operand h (fun y h1 => h1 !! y = Some (CDecimal dy)) ->
  returns (BigVal.arith_core m this operand) h
          (fun l h' => h !! l = None /\
                       is_bigval h' l (unsigned_zero (apply_arith m x dy)) sc cfg).
Proof.
  intros (n & Hl & Hn) Hop. unfold BigVal.arith_core.
  eapply returns_bind; [by apply returns_read_bigval|].
  intros ? ? _ [-> ->]. cbv beta iota.
  eapply returns_bind; [exact Hop|].
  intros y h1 Hs1 Hy. cbv beta in Hy.
  eapply returns_bind; [apply returns_read_decimal; by eapply lookup_weaken|].
  intros ? ? _ [-> ->].
  eapply returns_bind; [by apply returns_read_decimal|].
  intros ? ? _ [-> ->].
  eapply returns_bind; [apply returns_alloc|].
  intros r h2 Hs2 [Hr0 Hr].
  eapply returns_bind;
    [apply returns_read_bigval; eapply lookup_weaken; [|exact Hs2];
     by eapply lookup_weaken|].
  intros ? ? _ [-> ->]. cbv beta iota.
  eapply returns_mono; [by apply returns_new_decimal, apply_arith_wf|].
  intros l h3 Hs3 [Hl0 Hb]. split; [|done].
  eapply lookup_weaken_None; [|exact Hs1]. by eapply lookup_weaken_None.
Qed.

Lemma throws_arith_core m this operand h x sc cfg e :
  is_bigval h this x sc cfg -> throws operand h e ->
  throws (BigVal.arith_core m this operand) h e.
Proof.
  intros (n & Hl & Hn) Hop. unfold BigVal.arith_core.
  eapply throws_bind; [by apply returns_read_bigval|].
  intros ? ? _ [-> ->]. cbv beta iota. by apply throws_bind_l.
Qed.

Lemma returns_compare_core m this operand h x sc cfg dy :
  is_bigval h this x sc cfg ->
  returns operand h (fun y h1 => h1 !! y = Some (CDecimal dy)) ->
  returns (BigVal.compare_core m this operand) h
          (fun b _ => b = apply_compare m x dy).
Proof.
  intros (n & Hl & Hn) Hop. unfold BigVal.compare_core.
  eapply returns_bind; [by apply returns_read_bigval|].
  intros ? ? _ [-> ->]. cbv beta iota.
  eapply returns_bind; [exact Hop|].
  intros y h1 Hs1 Hy. cbv beta in Hy.
  eapply returns_bind; [apply returns_read_decimal; by eapply lookup_weaken|].
  intros ? ? _ [-> ->].
  eapply returns_bind; [by apply returns_read_decimal|].
  intros ? ? _ [-> ->]. by apply returns_ret.
Qed.

Lemma throws_compare_core m this operand h x sc cfg e :
  is_bigval h this x sc cfg -> throws operand h e ->
  throws (BigVal.compare_core m this operand) h e.
Proof.
  intros (n & Hl & Hn) Hop. unfold BigVal.compare_core.
  eapply throws_bind; [by apply returns_read_bigval|].
  intros ? ? _ [-> ->]. cbv beta iota. by apply throws_bind_l.
Qed.

(** The operand of the scaling helpers: the power of ten, coerced. *)
Lemma returns_power_operand p D h :
  h !! p = Some (CDecimal (pow10 D)) ->
  returns (toDecimal (JDecimal p)) h
          (fun y h1 => h1 !! y = Some (CDecimal (pow10 D))).
Proof.
  intros Hp. eapply returns_mono;
    [apply returns_toDecimal_decimal; [exact Hp|apply pow10_wf]|].
  intros y h1 _ [_ Hy]. by rewrite unsigned_zero_pow10 in Hy.
Qed.

Lemma returns_scaleDown this D h x sc cfg :
  is_bigval h this x sc cfg -> js_integer D ->
  returns (BigVal.scaleDown this (JNum D)) h
          (fun l h' => h !! l = None /\
                       is_bigval h' l (unsigned_zero (times x (pow10 D))) sc cfg).
Proof.
  intros Hb HD. unfold BigVal.scaleDown.
  eapply returns_bind; [by apply returns_ten_pow|].
  intros p h1 Hs1 [_ Hp].
  eapply returns_mono;
    [eapply (returns_arith_core Mul);
     [by eapply is_bigval_weaken|by apply returns_power_operand]|].
  intros l h2 _ [Hl0 Hl]. split; [by eapply lookup_weaken_None|done].
Qed.

Lemma returns_scaleUp this D h x sc cfg :
  is_bigval h this x sc cfg -> js_integer D ->
  returns (BigVal.scaleUp this (JNum D)) h
          (fun l h' => h !! l = None /\
                       is_bigval h' l (unsigned_zero (div x (pow10 D))) sc cfg).
Proof.
  intros Hb HD. unfold BigVal.scaleUp.
  eapply returns_bind; [by apply returns_ten_pow|].
  intros p h1 Hs1 [_ Hp].
  eapply returns_mono;
    [eapply (returns_arith_core Div);
     [by eapply is_bigval_weaken|by apply returns_power_operand]|].
  intros l h2 _ [Hl0 Hl]. split; [by eapply lookup_weaken_None|done].
Qed.

(** [n._scale = tag] on the fresh result of [m]. *)
Lemma returns_retag (m : M loc) tag h d sc cfg :
  returns m h (fun l h1 => h !! l = None /\ is_bigval h1 l d sc cfg) ->
  returns (n ← m; set_scale n tag;; mret n) h
          (fun l h2 => h !! l = None /\ is_bigval h2 l d tag cfg).
Proof.
  intros (n & h1 & Em & Hs & Hn0 & n' & Hl & Hn').
  exists n, (<[n := CBigVal n' tag cfg]> h1).
  split; [|split; [by apply insert_subseteq_r|]].
  - rewrite run_bind, Em.
    unfold run, set_scale, read_bigval, read, write, mbind, M_bind, bind.
    by rewrite Hl.
  - split; [done|]. exists n'. split; [apply lookup_insert_eq|].
    rewrite lookup_insert_ne; [done|]. intros ->. congruence.
Qed.

Lemma returns_toSmallestScale this D h x sc cfg :
  is_bigval h this x sc cfg -> sc <> BigVal.SMALLEST ->
  decimals cfg = Some D -> js_integer D ->
  returns (BigVal.toSmallestScale this) h
          (fun l h' => h !! l = None /\
                       is_bigval h' l (unsigned_zero (times x (pow10 D)))
                                 BigVal.SMALLEST cfg).
Proof.
  intros Hb Hsc Hcfg HD. pose proof Hb as (n & Hl & Hn).
  unfold BigVal.toSmallestScale.
  eapply returns_bind; [by apply returns_read_bigval|].
  intros ? ? _ [-> ->]. cbv beta iota.
  destruct (decide (sc = BigVal.SMALLEST)); [done|].
  unfold config_decimals. rewrite Hcfg.
  eapply returns_retag. by apply returns_scaleDown.
Qed.

Lemma returns_toNormalScale this D h x sc cfg :
  is_bigval h this x sc cfg -> sc <> BigVal.NORMAL ->
  decimals cfg = Some D -> js_integer D ->
  returns (BigVal.toNormalScale this) h
          (fun l h' => h !! l = None /\
                       is_bigval h' l (unsigned_zero (div x (pow10 D)))
                                 BigVal.NORMAL cfg).
Proof.
  intros Hb Hsc Hcfg HD. pose proof Hb as (n & Hl & Hn).
  unfold BigVal.toNormalScale.
  eapply returns_bind; [by apply returns_read_bigval|].
  intros ? ? _ [-> ->]. cbv beta iota.
  destruct (decide (sc = BigVal.NORMAL)); [done|].
  unfold config_decimals. rewrite Hcfg.
  eapply returns_retag. by apply returns_scaleUp.
Qed.

Lemma run_toSmallestScale_same this h x cfg :
  is_bigval h this x BigVal.SMALLEST cfg ->
  run (BigVal.toSmallestScale this) h = (Ok this, h).
Proof.
  intros (n & Hl & Hn).
  unfold run, BigVal.toSmallestScale, read_bigval, read, mbind, M_bind, bind.
  by rewrite Hl.
Qed.

Lemma run_toNormalScale_same this h x cfg :
  is_bigval h this x BigVal.NORMAL cfg ->
  run (BigVal.toNormalScale this) h = (Ok this, h).
Proof.
  intros (n & Hl & Hn).
  unfold run, BigVal.toNormalScale, read_bigval, read, mbind, M_bind, bind.
  by rewrite Hl.
Qed.

Lemma throws_toSmallestScale_undefined this h x sc cfg :
  is_bigval h this x sc cfg -> sc <> BigVal.SMALLEST -> decimals cfg = None ->
  throws (BigVal.toSmallestScale this) h (DecimalError "undefined").
Proof.
  intros Hb Hsc Hcfg. pose proof Hb as (n & Hl & Hn).
  unfold BigVal.toSmallestScale.
  eapply throws_bind; [by apply returns_read_bigval|].
  intros ? ? _ [-> ->]. cbv beta iota.
  destruct (decide (sc = BigVal.SMALLEST)); [done|].
  unfold config_decimals. rewrite Hcfg.
  apply throws_bind_l. unfold BigVal.scaleDown.
  apply throws_bind_l, throws_ten_pow_undefined.
Qed.

Lemma throws_toNormalScale_undefined this h x sc cfg :
  is_bigval h this x sc cfg -> sc <> BigVal.NORMAL -> decimals cfg = None ->
  throws (BigVal.toNormalScale this) h (DecimalError "undefined").
Proof.
  intros Hb Hsc Hcfg. pose proof Hb as (n & Hl & Hn).
  unfold BigVal.toNormalScale.
  eapply throws_bind; [by apply returns_read_bigval|].
  intros ? ? _ [-> ->]. cbv beta iota.
  destruct (decide (sc = BigVal.NORMAL)); [done|].
  unfold config_decimals. rewrite Hcfg.
  apply throws_bind_l. unfold BigVal.scaleUp.
  apply throws_bind_l, throws_ten_pow_undefined.
Qed.

Lemma throws_toScale_unrecognized this tag h :
  tag <> BigVal.SMALLEST -> tag <> BigVal.NORMAL ->
  throws (BigVal.toScale this tag) h (UnrecognizedScale tag).
Proof.
  intros H0 H1. unfold BigVal.toScale.
  destruct tag as [[|[]|]|]; try done; apply throws_throw.
Qed.

(** [toScale] against the conversion rules. *)
Lemma toScale_aligned this target h x sc cfg :
  is_bigval h this x sc cfg -> config_ok cfg ->
  match aligned_magnitude target x sc cfg with
  | Ok y => returns (BigVal.toScale this target) h
                    (fun l h' => is_bigval h' l y target cfg)
  | Throw e => throws (BigVal.toScale this target) h e
  end.
Proof.
  intros Hb Hcfg. unfold aligned_magnitude, config_ok in *.
  destruct (decide (target = BigVal.SMALLEST)) as [->|H0].
  - change (BigVal.toScale this BigVal.SMALLEST) with (BigVal.toSmallestScale this).
    destruct (decide (sc = BigVal.SMALLEST)) as [->|Hsc].
    + exists this, h. by rewrite (run_toSmallestScale_same this h x cfg).
    + destruct (decimals cfg) as [D|] eqn:HD.
      * eapply returns_mono; [by eapply returns_toSmallestScale|].
        by intros l h' _ [_ ?].
      * by eapply throws_toSmallestScale_undefined.
  - destruct (decide (target = BigVal.NORMAL)) as [->|H1].
    + change (BigVal.toScale this BigVal.NORMAL) with (BigVal.toNormalScale this).
      destruct (decide (sc = BigVal.NORMAL)) as [->|Hsc].
      * exists this, h. by rewrite (run_toNormalScale_same this h x cfg).
      * destruct (decimals cfg) as [D|] eqn:HD.
        -- eapply returns_mono; [by eapply returns_toNormalScale|].
           by intros l h' _ [_ ?].
        -- by eapply throws_toNormalScale_undefined.
    + by apply throws_toScale_unrecognized.
Qed.

(** The operand of a bound method when it is an instance. *)
Lemma operand_aligned r v h xr sr cr xv sv cv :
  is_bigval h r xr sr cr -> is_bigval h v xv sv cv -> config_ok cv ->
  match aligned_magnitude sr xv sv cv with
  | Ok y => returns (BigVal.toDecimalAtOriginalScale (JBigVal v) r) h
                    (fun n h' => h' !! n = Some (CDecimal y))
  | Throw e => throws (BigVal.toDecimalAtOriginalScale (JBigVal v) r) h e
  end.
Proof.
  intros Hr Hv Hcv. pose proof Hr as (nr & Hlr & Hnr).
  pose proof Hv as (nv & Hlv & Hnv).
  pose proof (toScale_aligned v sr h xv sv cv Hv Hcv) as Hts.
  cbn [BigVal.toDecimalAtOriginalScale].
  destruct (aligned_magnitude sr xv sv cv) as [y|e].
  - eapply returns_bind; [by apply returns_read_bigval|].
    intros ? ? _ [-> ->]. cbv beta iota.
    eapply returns_bind; [by apply returns_read_bigval|].
    intros ? ? _ [-> ->]. cbv beta iota.
    eapply returns_bind; [exact Hts|].
    intros l h1 Hs1 (n & Hl & Hn).
    eapply returns_bind; [by apply returns_read_bigval|].
    intros ? ? _ [-> ->]. cbv beta iota. by apply returns_ret.
  - eapply throws_bind; [by apply returns_read_bigval|].
    intros ? ? _ [-> ->]. cbv beta iota.
    eapply throws_bind; [by apply returns_read_bigval|].
    intros ? ? _ [-> ->]. cbv beta iota. by apply throws_bind_l.
Qed.

(** The constructor on an existing instance. *)
Lemma returns_new_copy h s n x sc cfg scale config :
  h !! s = Some (CBigVal n sc cfg) -> h !! n = Some (CDecimal x) -> wf x ->
  returns (BigVal.new (JBigVal s) scale config) h
          (fun l h' => exists n',
               h' !! l = Some (CBigVal n' sc cfg) /\
               h' !! n' = Some (CDecimal (unsigned_zero x)) /\
               n' <> n /\ h !! n' = None /\ h !! l = None /\
               h' !! s = Some (CBigVal n sc cfg) /\
               h' !! n = Some (CDecimal x)).
Proof.
  intros Hs Hn Hwf. cbn [BigVal.new].
  eapply returns_bind; [by apply returns_read_bigval|].
  intros ? ? _ [-> ->]. cbv beta iota.
  eapply returns_bind; [by apply returns_toDecimal_decimal|].
  intros n' h1 Hs1 [Hn0 Hn'].
  eapply returns_mono; [apply returns_alloc|].
  intros l h2 Hs2 [Hl0 Hl]. exists n'.
  split; [done|]. split; [by eapply lookup_weaken|].
  split; [intros ->; congruence|]. split; [done|].
  split; [by eapply lookup_weaken_None|].
  split; (eapply lookup_weaken; [|exact Hs2]); by eapply lookup_weaken.
Qed.

End BigValFacts.

(** ** Trimming and splitting *)

Module JsStringFacts.
Import JsString.

Lemma chars_append s1 s2 :
  list_ascii_of_string (s1 +:+ s2)
  = (list_ascii_of_string s1 ++ list_ascii_of_string s2)%list.
Proof.
  induction s1 as [|a s1 IH]; [done|].
  change (String a s1 +:+ s2) with (String a (s1 +:+ s2)).
  cbn [list_ascii_of_string]. by rewrite IH.
Qed.





Lemma split_chars_token sep l : forall cur,
  Forall (fun a => Ascii.eqb a sep = false) l ->
  split_chars sep cur l = [(rev cur ++ l)%list].
Proof.
  induction l as [|a l IH]; intros cur Hl; cbn [split_chars].
  - by rewrite app_nil_r.
  - apply Forall_cons in Hl as [Ha Hl]. rewrite Ha, IH by done.
    cbn [rev]. by rewrite <- app_assoc.
Qed.

Lemma split_chars_sep sep l rest : forall cur,
  Forall (fun a => Ascii.eqb a sep = false) l ->
  split_chars sep cur (l ++ sep :: rest)
  = (rev cur ++ l)%list :: split_chars sep [] rest.
Proof.
  induction l as [|a l IH]; intros cur Hl; cbn [split_chars app].
  - by rewrite Ascii.eqb_refl, app_nil_r.
  - apply Forall_cons in Hl as [Ha Hl]. rewrite Ha, IH by done.
    cbn [rev]. by rewrite <- app_assoc.
Qed.

Lemma not_space_not_blank a : is_space a = false -> Ascii.eqb a " " = false.
Proof.
  intros Ha. destruct (Ascii.eqb_spec a " ") as [->|]; [|done].
  by vm_compute in Ha.
Qed.

Lemma token_no_blank l :
  Forall (fun a => is_space a = false) l ->
  Forall (fun a => Ascii.eqb a " " = false) l.
Proof.
  intros H. eapply Forall_impl; [exact H|]. intros a. apply not_space_not_blank.
Qed.

Lemma clean_token_chars s :
  clean_token s ->
  list_ascii_of_string s <> [] /\
  Forall (fun a => is_space a = false) (list_ascii_of_string s).
Proof. intros [Hne Hs]. split; [|done]. by destruct s. Qed.



End JsStringFacts.

(** ** The revision with string tags *)

Module StringScalesFacts.
Import PreciseDecimal EngineFacts StoreFacts FrameFacts SpecFacts.

Lemma returns_tagged_fresh src tag config h d :
  (forall l, src <> JBigVal l) ->
  returns (toDecimal src) h (fun n h1 => h1 !! n = Some (CDecimal d)) ->
  StringScales.SCALE_has tag = true ->
  returns (StringScales.new src (Some tag) config) h
          (fun l h' => h !! l = None /\
                       is_bigval h' l d tag
                                 (default StringScales.DefaultBigValConfig config)).
Proof.
  intros Hsrc Hd Htag. unfold StringScales.new.
  assert (StringScales.isBigVal src = mret false) as ->.
  { destruct src; try done. by destruct (Hsrc l). }
  eapply returns_bind; [apply returns_ret_eq|].
  intros ? ? _ [-> ->]. cbv beta iota.
  eapply returns_bind; [exact Hd|].
  intros n h1 Hs1 Hn. cbv beta in Hn.
  change (default StringScales.min (Some tag)) with tag.
  unfold StringScales.assertValidScale. rewrite Htag.
  eapply returns_bind; [apply returns_ret_eq|].
  intros ? ? _ [-> ->].
  eapply returns_mono; [apply returns_alloc|].
  intros l h2 Hs2 [Hl0 Hl]. split; [by eapply lookup_weaken_None|].
  exists n. split; [done|by eapply lookup_weaken].
Qed.

Lemma throws_new_invalid src tag config h d :
  (forall l, src <> JBigVal l) ->
  returns (toDecimal src) h (fun n h1 => h1 !! n = Some (CDecimal d)) ->
  StringScales.SCALE_has tag = false ->
  throws (StringScales.new src (Some tag) config) h (InvalidScale tag).
Proof.
  intros Hsrc Hd Htag. unfold StringScales.new.
  assert (StringScales.isBigVal src = mret false) as ->.
  { destruct src; try done. by destruct (Hsrc l). }
  eapply throws_bind; [apply returns_ret_eq|].
  intros ? ? _ [-> ->]. cbv beta iota.
  eapply throws_bind; [exact Hd|].
  intros n h1 Hs1 Hn.
  change (default StringScales.min (Some tag)) with tag.
  unfold StringScales.assertValidScale. rewrite Htag.
  apply throws_bind_l, throws_throw.
Qed.

Lemma returns_tagged_copy s scale config h x sc cfg :
  is_bigval h s x sc cfg -> wf x -> StringScales.truthy sc = true ->
  returns (StringScales.new (JBigVal s) scale config) h
          (fun l h' => h !! l = None /\ is_bigval h' l (unsigned_zero x) sc cfg).
Proof.
  intros (n & Hl & Hn) Hwf Ht. unfold StringScales.new.
  cbn [StringScales.isBigVal].
  eapply returns_bind.
  { eapply returns_bind; [by apply returns_read_bigval|].
    intros ? ? _ [-> ->]. cbv beta iota. apply returns_ret.
    instantiate (1 := fun b h' => b = true /\ h' = h). by rewrite Ht. }
  intros ? ? _ [-> ->]. cbv beta iota.
  eapply returns_bind; [by apply returns_read_bigval|].
  intros ? ? _ [-> ->]. cbv beta iota.
  eapply returns_bind; [by apply returns_toDecimal_decimal|].
  intros n' h1 Hs1 [Hn0 Hn'].
  eapply returns_mono; [apply returns_alloc|].
  intros l h2 Hs2 [Hl0 Hl']. split; [by eapply lookup_weaken_None|].
  exists n'. split; [done|by eapply lookup_weaken].
Qed.

Lemma returns_tagged_decimal r d sc cfg h :
  h !! r = Some (CDecimal d) -> wf d -> StringScales.SCALE_has sc = true ->
  returns (StringScales.new (JDecimal r) (Some sc) (Some cfg)) h
          (fun l h' => h !! l = None /\ is_bigval h' l (unsigned_zero d) sc cfg).
Proof.
  intros Hr Hwf Hsc.
  eapply returns_mono.
  - apply (returns_tagged_fresh (JDecimal r) sc (Some cfg) h (unsigned_zero d));
      [done| |done].
    eapply returns_mono; [by apply returns_toDecimal_decimal|].
    by intros n h1 _ [_ ?].
  - done.
Qed.





End StringScalesFacts.

(** ** Binary output *)

Module FormatFacts.
Import Digits DigitsFacts PreciseDecimal EngineFacts.
Local Open Scope N_scope.

Lemma render_binary m : Forall binary_char (render 2 m).
Proof.
  unfold render. apply Forall_map.
  eapply Forall_impl; [apply (to_digits_lt 2 m); lia|].
  intros d Hd. cbv beta in Hd. unfold binary_char.
  assert (d = 0 \/ d = 1) as [->| ->] by lia; auto.
Qed.

Lemma zeros_binary k : Forall binary_char (zeros k).
Proof. unfold zeros. induction k; constructor; [by left|done]. Qed.

Lemma base_chars_binary c e : Forall binary_char (base_chars 2 c e).
Proof.
  unfold base_chars. destruct (round_sd _ _ _ _) as [c1 e1].
  destruct (strip 2 c1 e1) as [m ex].
  pose proof (render_binary m) as Hr.
  repeat case_match;
    repeat first [ apply Forall_app; split | apply Forall_cons; split
                 | apply zeros_binary | by apply Forall_take
                 | by apply Forall_drop | done
                 | left; reflexivity | right; right; reflexivity
                 | apply Forall_nil ].
Qed.

Lemma binary_char_not_minus a : binary_char a -> a <> "-"%char.
Proof. intros [->|[->| ->]]; discriminate. Qed.

Lemma base_body_binary c e : Forall binary_char (base_body 2 c e).
Proof.
  unfold base_body. destruct (N.eqb c 0);
    [constructor; [by left|done]|apply base_chars_binary].
Qed.

Lemma toBinary_positive c e :
  toBinary (Fin false c e)
  = String "0" (String "b" (string_of_list_ascii (base_body 2 c e))).
Proof. reflexivity. Qed.

Lemma toBinary_negative c e :
  toBinary (Fin true c e)
  = String "-" (String "0" (String "b" (string_of_list_ascii (base_body 2 c e)))).
Proof. reflexivity. Qed.

Lemma strip_b_negative c e :
  let str := toBinary (Fin true c e) in
  JsString.substr str (JsString.indexOf str "b" + 1)
  = string_of_list_ascii (base_body 2 c e).
Proof.
  cbv zeta. rewrite toBinary_negative.
  generalize (base_body 2 c e). intros B.
  unfold JsString.substr, JsString.indexOf.
  cbn [list_ascii_of_string JsString.index_chars Ascii.eqb Bool.eqb].
  change (Z.to_nat (0 + 1 + 1 + 1)) with 3%nat. cbn [drop].
  by rewrite list_ascii_of_string_of_list_ascii.
Qed.

End FormatFacts.

(** ** The layered definitions against the source text *)

Module SourceText.

(** [scaleDown(v) { return this.mul(toDecimal(10).pow(toDecimal(v))) }] *)
Lemma scaleDown_calls_mul this v :
  BigVal.scaleDown this v = (p ← ten_pow v; BigVal.mul this (JDecimal p)).
Proof. reflexivity. Qed.

(** [scaleUp(v) { return this.div(toDecimal(10).pow(toDecimal(v))) }] *)
Lemma scaleUp_calls_div this v :
  BigVal.scaleUp this v = (p ← ten_pow v; BigVal.div this (JDecimal p)).
Proof. reflexivity. Qed.

(** An operand without a scale is coerced by [toDecimal] directly. *)
Lemma operand_without_scale input reference :
  (forall l, input <> JBigVal l) -> input <> JUndefined -> input <> JNull ->
  BigVal.toDecimalAtOriginalScale input reference = toDecimal input.
Proof. intros H1 H2 H3. destruct input; try done. by destruct (H1 l). Qed.

End SourceText.

(** ** The expectations of [test/index.test.ts], run on the model *)

Module RepositoryTests.
Import PreciseDecimal.
Local Open Scope Z_scope.

Example test_toString :
  shown (JNum 123) 10 = Ok "123" /\
  shown (JStr "123") 10 = Ok "123" /\
  shown (JStr "0x123") 10 = Ok "291" /\
  shown (JStr "0xFFaab1324") 10 = Ok "68630024996" /\
  shown_copy (JNum 100000000000000000000) 10 = Ok "100000000000000000000".
Proof. repeat split; vm_compute; reflexivity. Qed.

Example test_toString_16 :
  shown (JNum 123) 16 = Ok "0x7b" /\
  shown (JStr "0x123") 16 = Ok "0x123" /\
  shown (JStr "0xFFaab1324") 16 = Ok "0xffaab1324" /\
  shown_copy (JNum 100000000000000000000) 16 = Ok "0x56bc75e2d63100000".
Proof. repeat split; vm_compute; reflexivity. Qed.

(** The last two expectations show the rounding to 20 significant
    binary digits. *)
Example test_toString_2 :
  shown (JNum 123) 2 = Ok "1111011" /\
  shown (JStr "0x123") 2 = Ok "100100011" /\
  shown (JStr "0xFFaab1324") 2 = Ok "111111111010101010110000000000000000" /\
  shown_copy (JNum 100000000000000000000) 2
  = Ok "1010110101111000111100000000000000000000000000000000000000000000000".
Proof. repeat split; vm_compute; reflexivity. Qed.

Example test_toFixed :
  fixed_shown (JStr "123.23344") 2 = Ok "123.23" /\
  fixed_shown (JStr "123.23584") 3 = Ok "123.236" /\
  fixed_shown (JStr "123.23584") 0 = Ok "123".
Proof. repeat split; vm_compute; reflexivity. Qed.

(** The README's example of decimals and rounding. *)
Example readme_rounding :
  (run (v ← BigVal.new (JNum 100) None None;
        v2 ← BigVal.div v (JNum 3);
        v3 ← BigVal.round v2;
        s1 ← BigVal.toFixed v2 1;
        s2 ← BigVal.toString v3 10;
        mret (s1, s2)) ∅).1 = Ok ("33.3", "33").
Proof. vm_compute. reflexivity. Qed.

Example test_arithmetic :
  Forall (fun v => arith_shown Add v 10 = Ok "118" /\
                   arith_shown Sub v 10 = Ok "78" /\
                   arith_shown Mul v 10 = Ok "1960" /\
                   arith_shown Div v 3 = Ok "4.9")
         [JNum 20; JStr "20"; JStr "0x14"].
Proof. repeat constructor; vm_compute; reflexivity. Qed.

Example test_arithmetic_instance :
  (run (a ← BigVal.new (JNum 98) None None;
        v ← BigVal.new (JNum 20) None None;
        r ← BigVal.div a (JBigVal v);
        BigVal.toString r 3) ∅).1 = Ok "4.9".
Proof. vm_compute. reflexivity. Qed.

Example test_boolean_logic :
  compared Eq (JNum 100) = Ok true /\ compared Gte (JStr "100") = Ok true /\
  compared Gt (JStr "0x64") = Ok false /\ compared Gt (JNum 99) = Ok true /\
  compared Lte (JNum 100) = Ok true /\ compared Lt (JStr "100") = Ok false /\
  compared Lt (JStr "0x65") = Ok true.
Proof. repeat split; vm_compute; reflexivity. Qed.

Example test_construction_basics :
  (run (e ← StringScales.new (JStr "0.00000001") (Some StringScales.coins)
                             (Some {| decimals := Some 8 |});
        StringScales.toString e 10) ∅).1 = Ok "1e-8".
Proof. vm_compute. reflexivity. Qed.

Example test_scale_up_down :
  (run (a ← StringScales.new (JStr "123.4") (Some StringScales.coins)
                             (Some {| decimals := Some 2 |});
        m ← StringScales.toMinScale a;
        c ← StringScales.toCoinScale m;
        s1 ← StringScales.toString m 10;
        s2 ← StringScales.toString c 10;
        '(_, t1, _) ← read_bigval m;
        '(_, t2, _) ← read_bigval c;
        mret (s1, t1, s2, t2, bool_decide (m = a))) ∅).1
  = Ok ("12340", StringScales.min, "123.4", StringScales.coins, false).
Proof. vm_compute. reflexivity. Qed.

Example test_toMinStr :
  (run (StringScales.minStr "0" None) ∅).1 = Ok "0" /\
  (run (StringScales.minStr "100" None) ∅).1 = Ok "100" /\
  (run (StringScales.minStr "100 min" None) ∅).1 = Ok "100" /\
  (run (StringScales.minStr "1 coins" None) ∅).1 = Ok "1000000000000000000" /\
  (run (StringScales.minStr "1 coins" (Some {| decimals := Some 2 |})) ∅).1
  = Ok "100".
Proof. repeat split; vm_compute; reflexivity. Qed.

(** The revision whose [toMinScale] assigns [SCALE.coins]: the magnitude
    is scaled, the tag is wrong. *)
Example toMinScale_wrong_tag :
  (run (a ← StringScalesAligned.new (JNum 1) (Some StringScales.coins)
                                   (Some {| decimals := Some 2 |});
        m ← StringScalesAligned.toMinScale a;
        s ← toString_of m 10;
        '(_, t, _) ← read_bigval m;
        mret (s, t)) ∅).1 = Ok ("100", StringScales.coins).
Proof. vm_compute. reflexivity. Qed.

End RepositoryTests.
(** ** Printing integers *)

Module PrintFacts.
Import Digits DigitsFacts PreciseDecimal EngineFacts.
Local Open Scope N_scope.

Lemma numeral_0 : numeral 0 = "0"%char.
Proof. reflexivity. Qed.




End PrintFacts.

(** ** Operands and fresh construction *)

Module OperandFacts.
Import PreciseDecimal EngineFacts StoreFacts FrameFacts SpecFacts BigValFacts.

(** [toString()] leaves the store as it is. *)
Lemma returns_toString_of this base h x sc cfg :
  is_bigval h this x sc cfg -> base <> 2%Z -> base <> 16%Z ->
  returns (toString_of this base) h
          (fun s h' => s = PreciseDecimal.toString x /\ h' = h).
Proof.
  intros (n & Hl & Hn) H2 H16. unfold toString_of.
  eapply returns_bind; [by apply returns_read_bigval|].
  intros ? ? _ [-> ->]. cbv beta iota.
  eapply returns_bind; [by apply returns_read_decimal|].
  intros ? ? _ [-> ->]. apply returns_ret. split; [|done].
  destruct base as [|p|p]; try done.
  do 5 (destruct p as [p|p|]; try done).
Qed.

(** The constructor on a source that is not an instance. *)
Lemma returns_new_fresh src scale config h d :
  (forall l, src <> JBigVal l) ->
  returns (toDecimal src) h (fun n h1 => h1 !! n = Some (CDecimal d)) ->
  returns (BigVal.new src scale config) h
          (fun l h' => h !! l = None /\
                       is_bigval h' l d (default BigVal.SMALLEST scale)
                                 (default BigVal.default_config config)).
Proof.
  intros Hsrc Hd.
  assert (BigVal.new src scale config
          = (n' ← toDecimal src;
             alloc (CBigVal n' (default BigVal.SMALLEST scale)
                            (default BigVal.default_config config)))) as ->.
  { destruct src; try done. by destruct (Hsrc l). }
  eapply returns_bind; [exact Hd|].
  intros n h1 Hs1 Hn. cbv beta in Hn.
  eapply returns_mono; [apply returns_alloc|].
  intros l h2 Hs2 [Hl0 Hl]. split; [by eapply lookup_weaken_None|].
  exists n. split; [done|by eapply lookup_weaken].
Qed.

Lemma returns_toDecimal_value src h d :
  returns (toDecimal src) h
          (fun n h1 => h !! n = None /\ h1 !! n = Some (CDecimal d)) ->
  returns (toDecimal src) h (fun n h1 => h1 !! n = Some (CDecimal d)).
Proof. intros H. eapply returns_mono; [exact H|]. by intros n h1 _ [_ ?]. Qed.


End OperandFacts.

(** ** Exact scaling *)

Module ScaleFacts.
Import PreciseDecimal EngineFacts.
Local Open Scope Z_scope.




End ScaleFacts.

(** ** Rounding to whole numbers *)

Module RoundFacts.
Import Digits DigitsFacts PreciseDecimal EngineFacts.
Local Open Scope N_scope.

(** Half-up rounding picks the multiple of [b^k] nearest to [c], the
    larger one at a tie. *)
Lemma round_half_up_near b c k :
  2 <= b ->
  let p := b ^ N.of_nat k in
  let q := round_half_up b c k in
  2 * c < 2 * q * p + p /\ 2 * q * p <= 2 * c + p.
Proof.
  intros Hb p q. unfold q, round_half_up. fold p.
  assert (Hp : p <> 0) by (apply N.pow_nonzero; lia).
  pose proof (N.div_mod c p Hp) as Hdm.
  pose proof (N.mod_lt c p Hp) as Hlt.
  set (d := c / p) in *. set (r := c mod p) in *.
  destruct (N.leb_spec p (2 * r)).
  - replace (2 * (d + 1) * p) with (2 * (p * d) + 2 * p) by ring. lia.
  - replace (2 * d * p) with (2 * (p * d)) by ring. lia.
Qed.

Lemma round_places_wf x dp : wf x -> wf (round_places x dp).
Proof.
  intros Hwf. destruct x as [| |s c e]; [done..|]. cbn [round_places].
  destruct (N.eqb c 0); [done|]. destruct (_ <=? _)%Z; [done|].
  apply of_parts_wf.
Qed.

(** What the constructor builds at exponent zero has no fraction digits. *)
Lemma of_parts_whole neg q : whole (of_parts neg q 0).
Proof.
  unfold of_parts.
  destruct (strip_spec 10 q 0%Z ltac:(lia)) as (c' & k & -> & _).
  unfold clamp. destruct (N.eqb c' 0); [by left|].
  destruct (_ <? _)%Z; [done|]. destruct (_ <? _)%Z; [by left|].
  right. destruct (N.eqb q 0); lia.
Qed.

Lemma round_places_whole x : wf x -> whole (round_places x 0).
Proof.
  intros Hwf. destruct x as [| |s c e]; [done..|]. cbn [round_places].
  destruct (N.eqb_spec c 0) as [->|Hc].
  - destruct Hwf as [[_ ->]|[? _]]; [by left|done].
  - destruct (Z.leb_spec (- 0) e); [right; lia|apply of_parts_whole].
Qed.

Lemma unsigned_zero_whole x : whole x -> whole (unsigned_zero x).
Proof. destruct x as [| |s [|p] e]; try done. intros _. by left. Qed.

(** A whole number is its own rounding. *)
Lemma round_places_of_whole x : whole x -> round_places x 0 = x.
Proof.
  destruct x as [| |s c e]; [done..|]. intros [->|He]; cbn [round_places].
  - done.
  - destruct (N.eqb c 0); [done|]. by rewrite (proj2 (Z.leb_le (- 0) e)) by lia.
Qed.

(** The rounded value, as the constructor builds it from a whole number
    of units. *)
Lemma round_places_units s c e :
  wf (Fin s c e) ->
  round_places (Fin s c e) 0 = of_parts s (units c e) 0.
Proof.
  intros Hwf. unfold units. cbn [round_places].
  destruct (N.eqb_spec c 0) as [->|Hc].
  - destruct Hwf as [[_ ->]|[? _]]; [|done]. reflexivity.
  - destruct (Z.leb_spec (- 0) e) as [He|He];
      destruct (Z.leb_spec 0 e) as [He'|He']; try lia.
    + rewrite <- (Z2Nat.id e) in Hwf by lia.
      rewrite <- Z_nat_N, of_parts_mul_pow by done.
      by rewrite Z2Nat.id by lia.
    + by replace (- 0 - e)%Z with (- e)%Z by lia.
Qed.

End RoundFacts.

Module RoundMethodFacts.
Import PreciseDecimal EngineFacts StoreFacts FrameFacts SpecFacts BigValFacts.

Lemma returns_magnitude_of l h x sc cfg :
  is_bigval h l x sc cfg ->
  returns (magnitude_of l) h (fun d h' => d = x /\ h' = h).
Proof.
  intros (n & Hl & Hn). unfold magnitude_of.
  eapply returns_bind; [by apply returns_read_bigval|].
  intros ? ? _ [-> ->]. cbv beta iota. by apply returns_read_decimal.
Qed.

Lemma returns_round this h x sc cfg :
  is_bigval h this x sc cfg -> wf x ->
  returns (BigVal.round this) h
          (fun l h' => h !! l = None /\
                       is_bigval h' l (unsigned_zero (toDecimalPlaces x 0)) sc cfg).
Proof.
  intros (n & Hl & Hn) Hwf. unfold BigVal.round.
  eapply returns_bind; [by apply returns_read_bigval|].
  intros ? ? _ [-> ->]. cbv beta iota.
  eapply returns_bind; [by apply returns_read_decimal|].
  intros ? ? _ [-> ->].
  eapply returns_bind; [apply returns_alloc|].
  intros r h2 Hs2 [Hr0 Hr].
  eapply returns_bind;
    [apply returns_read_bigval; by eapply lookup_weaken|].
  intros ? ? _ [-> ->]. cbv beta iota.
  eapply returns_mono;
    [by apply returns_new_decimal, RoundFacts.round_places_wf|].
  intros l h3 Hs3 [Hl0 Hb]. split; [by eapply lookup_weaken_None|done].
Qed.

End RoundMethodFacts.

(** ** The revision with string tags: conversions, operands, invariant *)

Module RevisionFacts.
Import PreciseDecimal EngineFacts StoreFacts FrameFacts SpecFacts StringScalesFacts.

(** Case analysis on the first characters of a string. *)
Ltac crack k n :=
  lazymatch n with
  | O => idtac
  | S ?n' =>
      let a := fresh "a" in
      let k' := fresh "k" in
      destruct k as [|a k'];
      [try done
      |destruct a as [[] [] [] [] [] [] [] []]; try done; crack k' n']
  end.

Lemma SCALE_has_truthy sc :
  StringScales.SCALE_has sc = true -> StringScales.truthy sc = true.
Proof. destruct sc as [z|[|a s]]; done. Qed.

(** [`${v}`] for an instance [v] is the string of its magnitude. *)
Lemma returns_toDecimal_bigval v h x sc cfg :
  is_bigval h v x sc cfg -> wf x ->
  returns (toDecimal (JBigVal v)) h
          (fun n h1 => h !! n = None /\
                       h1 !! n = Some (CDecimal (unsigned_zero x))).
Proof.
  intros (n & Hl & Hn) Hwf. unfold toDecimal.
  apply returns_parsed with (s := toString x); [|by apply parse_toString].
  cbn [template].
  eapply returns_bind; [by apply returns_read_bigval|].
  intros ? ? _ [-> ->]. cbv beta iota.
  eapply returns_bind; [by apply returns_read_decimal|].
  intros ? ? _ [-> ->]. by apply returns_ret.
Qed.

Lemma returns_arith_operand m this v h x sc cfg dy :
  is_bigval h this x sc cfg -> StringScales.SCALE_has sc = true ->
  returns (toDecimal v) h (fun y h1 => h1 !! y = Some (CDecimal dy)) ->
  returns (StringScales.arith_method m this v) h
          (fun l h' => h !! l = None /\
                       is_bigval h' l (unsigned_zero (apply_arith m x dy)) sc cfg).
Proof.
  intros (n & Hl & Hn) Hsc Hop. unfold StringScales.arith_method.
  eapply returns_bind; [by apply returns_read_bigval|].
  intros ? ? _ [-> ->]. cbv beta iota.
  eapply returns_bind; [exact Hop|].
  intros y h1 Hs1 Hy. cbv beta in Hy.
  eapply returns_bind; [apply returns_read_decimal; by eapply lookup_weaken|].
  intros ? ? _ [-> ->].
  eapply returns_bind; [by apply returns_read_decimal|].
  intros ? ? _ [-> ->].
  eapply returns_bind; [apply returns_alloc|].
  intros r h2 Hs2 [Hr0 Hr].
  eapply returns_bind;
    [apply returns_read_bigval; eapply lookup_weaken; [|exact Hs2];
     by eapply lookup_weaken|].
  intros ? ? _ [-> ->]. cbv beta iota.
  eapply returns_mono;
    [apply returns_tagged_decimal; [done|apply apply_arith_wf|done]|].
  intros l h3 Hs3 [Hl0 Hb]. split; [|done].
  eapply lookup_weaken_None; [|exact Hs1]. by eapply lookup_weaken_None.
Qed.

Lemma returns_compare_operand m this v h x sc cfg dy :
  is_bigval h this x sc cfg ->
  returns (toDecimal v) h (fun y h1 => h1 !! y = Some (CDecimal dy)) ->
  returns (StringScales.compare_method m this v) h
          (fun b _ => b = apply_compare m x dy).
Proof.
  intros (n & Hl & Hn) Hop. unfold StringScales.compare_method.
  eapply returns_bind; [by apply returns_read_bigval|].
  intros ? ? _ [-> ->]. cbv beta iota.
  eapply returns_bind; [exact Hop|].
  intros y h1 Hs1 Hy. cbv beta in Hy.
  eapply returns_bind; [apply returns_read_decimal; by eapply lookup_weaken|].
  intros ? ? _ [-> ->].
  eapply returns_bind; [by apply returns_read_decimal|].
  intros ? ? _ [-> ->]. by apply returns_ret.
Qed.

(** A conversion that scales: the power of ten, the product or quotient,
    the new tag. *)
Lemma returns_scaled m this tag h x sc cfg D :
  is_bigval h this x sc cfg -> StringScales.SCALE_has sc = true ->
  js_integer D ->
  returns (p ← ten_pow (JNum D);
           n ← StringScales.arith_method m this (JDecimal p);
           set_scale n tag;; mret n) h
          (fun l h' => h !! l = None /\
                       is_bigval h' l (unsigned_zero (apply_arith m x (pow10 D)))
                                 tag cfg).
Proof.
  intros Hb Hsc HD.
  eapply returns_bind; [by apply returns_ten_pow|].
  intros p h1 Hs1 [_ Hp].
  eapply returns_mono.
  - eapply BigValFacts.returns_retag.
    eapply (returns_arith_operand m this (JDecimal p) h1 x sc cfg (pow10 D));
      [by eapply is_bigval_weaken|done|].
    by apply BigValFacts.returns_power_operand.
  - intros l h2 _ [Hl0 Hl]. split; [by eapply lookup_weaken_None|done].
Qed.

Lemma returns_toMinScale_scaled this h x sc cfg D :
  is_bigval h this x sc cfg -> StringScales.SCALE_has sc = true ->
  sc <> StringScales.min -> decimals cfg = Some D -> js_integer D ->
  returns (StringScales.toMinScale this) h
          (fun l h' => h !! l = None /\
                       is_bigval h' l (unsigned_zero (times x (pow10 D)))
                                 StringScales.min cfg).
Proof.
  intros Hb Hsc Hne Hd HD. pose proof Hb as (n & Hl & Hn).
  unfold StringScales.toMinScale.
  eapply returns_bind; [by apply returns_read_bigval|].
  intros ? ? _ [-> ->]. cbv beta iota.
  destruct (decide (sc = StringScales.min)); [done|].
  unfold config_decimals. rewrite Hd.
  by apply (returns_scaled Mul this StringScales.min h x sc cfg D).
Qed.

Lemma returns_toCoinScale_scaled this h x sc cfg D :
  is_bigval h this x sc cfg -> StringScales.SCALE_has sc = true ->
  sc <> StringScales.coins -> decimals cfg = Some D -> js_integer D ->
  returns (StringScales.toCoinScale this) h
          (fun l h' => h !! l = None /\
                       is_bigval h' l (unsigned_zero (div x (pow10 D)))
                                 StringScales.coins cfg).
Proof.
  intros Hb Hsc Hne Hd HD. pose proof Hb as (n & Hl & Hn).
  unfold StringScales.toCoinScale.
  eapply returns_bind; [by apply returns_read_bigval|].
  intros ? ? _ [-> ->]. cbv beta iota.
  destruct (decide (sc = StringScales.coins)); [done|].
  unfold config_decimals. rewrite Hd.
  by apply (returns_scaled Div this StringScales.coins h x sc cfg D).
Qed.

Lemma returns_toMinScale_copy this h x cfg :
  is_bigval h this x StringScales.min cfg -> wf x ->
  returns (StringScales.toMinScale this) h
          (fun l h' => h !! l = None /\
                       is_bigval h' l (unsigned_zero x) StringScales.min cfg).
Proof.
  intros Hb Hwf. pose proof Hb as (n & Hl & Hn).
  unfold StringScales.toMinScale.
  eapply returns_bind; [by apply returns_read_bigval|].
  intros ? ? _ [-> ->]. cbv beta iota.
  destruct (decide (StringScales.min = StringScales.min)); [|done].
  by apply returns_tagged_copy.
Qed.

Lemma returns_toCoinScale_copy this h x cfg :
  is_bigval h this x StringScales.coins cfg -> wf x ->
  returns (StringScales.toCoinScale this) h
          (fun l h' => h !! l = None /\
                       is_bigval h' l (unsigned_zero x) StringScales.coins cfg).
Proof.
  intros Hb Hwf. pose proof Hb as (n & Hl & Hn).
  unfold StringScales.toCoinScale.
  eapply returns_bind; [by apply returns_read_bigval|].
  intros ? ? _ [-> ->]. cbv beta iota.
  destruct (decide (StringScales.coins = StringScales.coins)); [|done].
  by apply returns_tagged_copy.
Qed.

End RevisionFacts.

(** ** Valid tags are an invariant of the revision with string tags *)

Module TagFacts.
Import PreciseDecimal EngineFacts StoreFacts.

Lemma tags_ok_empty : tags_ok ∅.
Proof. intros l c Hl. by rewrite lookup_empty in Hl. Qed.

Lemma tags_ok_insert h l c : tags_ok h -> tag_ok c -> tags_ok (<[l := c]> h).
Proof.
  intros Hok Hc l' c' Hl'. destruct (decide (l = l')) as [->|Hne].
  - rewrite lookup_insert_eq in Hl'. by injection Hl' as <-.
  - rewrite lookup_insert_ne in Hl' by done. by eapply Hok.
Qed.

Lemma keeps_tags_ret {A} (a : A) : keeps_tags (mret a).
Proof. intros h Hok. done. Qed.

Lemma keeps_tags_throw {A} e : keeps_tags (@throw A e).
Proof. intros h Hok. done. Qed.

Lemma keeps_tags_bind {A B} (m : M A) (k : A -> M B) :
  keeps_tags m -> (forall a, keeps_tags (k a)) -> keeps_tags (m ≫= k).
Proof.
  intros Hm Hk h Hok. rewrite run_bind. specialize (Hm h Hok).
  destruct (run m h) as [[a|e] h1]; [|done]. by apply Hk.
Qed.

Lemma keeps_tags_alloc c : tag_ok c -> keeps_tags (alloc c).
Proof. intros Hc h Hok. by apply tags_ok_insert. Qed.

Lemma keeps_tags_read l : keeps_tags (read l).
Proof. intros h Hok. unfold run, read. by destruct (h !! l). Qed.

Lemma keeps_tags_read_decimal l : keeps_tags (read_decimal l).
Proof.
  apply keeps_tags_bind; [apply keeps_tags_read|].
  intros []; [apply keeps_tags_ret|apply keeps_tags_throw].
Qed.

(** What is read from an instance of a store with valid tags is a valid
    tag. *)
Lemma keeps_tags_read_bigval {B} l (k : loc * ScaleTag * BigValConfig -> M B) :
  (forall n sc cfg, StringScales.SCALE_has sc = true -> keeps_tags (k (n, sc, cfg))) ->
  keeps_tags (read_bigval l ≫= k).
Proof.
  intros Hk h Hok. rewrite run_bind.
  unfold read_bigval, read, run, mbind, M_bind, bind.
  destruct (h !! l) as [[d|n sc cfg]|] eqn:E; [done| |done].
  apply Hk; [|done]. by apply (Hok l _ E).
Qed.

Lemma keeps_tags_set_scale l tag :
  StringScales.SCALE_has tag = true -> keeps_tags (set_scale l tag).
Proof.
  intros Ht. unfold set_scale. apply keeps_tags_read_bigval.
  intros n sc cfg _ h Hok. by apply tags_ok_insert.
Qed.

Lemma keeps_tags_assert {B} tag (k : M B) :
  (StringScales.SCALE_has tag = true -> keeps_tags k) ->
  keeps_tags (StringScales.assertValidScale tag ≫= fun _ => k).
Proof.
  intros Hk h Hok. rewrite run_bind. unfold StringScales.assertValidScale.
  destruct (StringScales.SCALE_has tag) eqn:E; cbn; [by apply Hk|done].
Qed.

Ltac tags_step :=
  match goal with
  | |- keeps_tags (read_bigval _ ≫= _) => apply keeps_tags_read_bigval
  | |- keeps_tags (StringScales.assertValidScale _ ≫= _) => apply keeps_tags_assert
  | |- keeps_tags (_ ≫= _) => apply keeps_tags_bind
  | |- keeps_tags (mret _) => apply keeps_tags_ret
  | |- keeps_tags (ret _) => apply (keeps_tags_ret (A := _))
  | |- keeps_tags (throw _) => apply keeps_tags_throw
  | |- keeps_tags (alloc (CDecimal _)) => by apply keeps_tags_alloc
  | |- keeps_tags (alloc (CBigVal _ _ _)) => by apply keeps_tags_alloc
  | |- keeps_tags (read_decimal _) => apply keeps_tags_read_decimal
  | |- keeps_tags (set_scale _ _) => by apply keeps_tags_set_scale
  | |- forall _ : _ * _, _ => intros []
  | |- forall _, _ => intro
  | |- keeps_tags (match ?x with _ => _ end) => destruct x
  | |- keeps_tags (if ?b then _ else _) => destruct b
  end.

Lemma keeps_tags_template a : keeps_tags (template a).
Proof. destruct a; cbn [template]; repeat tags_step. Qed.

Lemma keeps_tags_toDecimal a : keeps_tags (toDecimal a).
Proof.
  unfold toDecimal. apply keeps_tags_bind; [apply keeps_tags_template|].
  repeat tags_step.
Qed.

Lemma keeps_tags_ten_pow v : keeps_tags (ten_pow v).
Proof.
  unfold ten_pow. repeat first [ apply keeps_tags_toDecimal | tags_step ].
Qed.

Lemma keeps_tags_isBigVal v : keeps_tags (StringScales.isBigVal v).
Proof. destruct v; cbn [StringScales.isBigVal]; repeat tags_step. Qed.

Lemma keeps_tags_new src scale config :
  keeps_tags (StringScales.new src scale config).
Proof.
  unfold StringScales.new.
  apply keeps_tags_bind; [apply keeps_tags_isBigVal|].
  intros b. destruct b, src;
    repeat first [ apply keeps_tags_toDecimal | tags_step ].
Qed.

Lemma keeps_tags_arith_method m this v :
  keeps_tags (StringScales.arith_method m this v).
Proof.
  unfold StringScales.arith_method.
  repeat first [ apply keeps_tags_toDecimal | apply keeps_tags_new | tags_step ].
Qed.

Lemma keeps_tags_compare_method m this v :
  keeps_tags (StringScales.compare_method m this v).
Proof.
  unfold StringScales.compare_method.
  repeat first [ apply keeps_tags_toDecimal | tags_step ].
Qed.

Lemma keeps_tags_toMinScale this : keeps_tags (StringScales.toMinScale this).
Proof.
  unfold StringScales.toMinScale.
  repeat first [ apply keeps_tags_ten_pow | apply keeps_tags_new
               | apply keeps_tags_arith_method | tags_step ].
Qed.

Lemma keeps_tags_toCoinScale this : keeps_tags (StringScales.toCoinScale this).
Proof.
  unfold StringScales.toCoinScale.
  repeat first [ apply keeps_tags_ten_pow | apply keeps_tags_new
               | apply keeps_tags_arith_method | tags_step ].
Qed.

Lemma keeps_tags_toScale this scale : keeps_tags (StringScales.toScale this scale).
Proof.
  unfold StringScales.toScale. apply keeps_tags_assert. intros _.
  repeat first [ apply keeps_tags_toMinScale | apply keeps_tags_toCoinScale
               | tags_step ].
Qed.

Lemma keeps_tags_round this : keeps_tags (StringScales.round this).
Proof.
  unfold StringScales.round. repeat first [ apply keeps_tags_new | tags_step ].
Qed.

Lemma keeps_tags_toString_of this base : keeps_tags (toString_of this base).
Proof. unfold toString_of. repeat tags_step. Qed.

Lemma keeps_tags_fromStr s config : keeps_tags (StringScales.fromStr s config).
Proof. apply keeps_tags_new. Qed.

Lemma keeps_tags_minStr v config : keeps_tags (StringScales.minStr v config).
Proof.
  unfold StringScales.minStr.
  repeat first [ apply keeps_tags_new | apply keeps_tags_toMinScale
               | apply keeps_tags_toString_of | tags_step ].
Qed.

(** In a store with valid tags [isBigVal] recognises every instance. *)
Lemma isBigVal_instance h l x sc cfg :
  tags_ok h -> is_bigval h l x sc cfg ->
  run (StringScales.isBigVal (JBigVal l)) h = (Ok true, h).
Proof.
  intros Hok (n & Hl & Hn). pose proof (Hok l _ Hl) as Ht. cbn in Ht.
  unfold run, StringScales.isBigVal, read_bigval, read, mbind, M_bind, bind.
  rewrite Hl. cbn. by rewrite RevisionFacts.SCALE_has_truthy.
Qed.

End TagFacts.

(** ** Splitting without trimming *)

Module SplitFacts.
Import JsString JsStringFacts.

Lemma split_space_token s :
  clean_token s -> split_space s = [s].
Proof.
  intros Hc. destruct (clean_token_chars s Hc) as [_ Hs]. unfold split_space.
  rewrite split_chars_token by by apply token_no_blank.
  cbn [rev app map]. by rewrite string_of_list_ascii_of_string.
Qed.

Lemma split_space_cons s rest :
  Forall (fun a => is_space a = false) (list_ascii_of_string s) ->
  split_space (s +:+ " " +:+ rest) = s :: split_space rest.
Proof.
  intros Hs. unfold split_space.
  rewrite !chars_append. cbn [list_ascii_of_string app].
  rewrite split_chars_sep by by apply token_no_blank.
  cbn [rev app map]. by rewrite string_of_list_ascii_of_string.
Qed.

Lemma split_space_two num name :
  clean_token num -> clean_token name ->
  split_space (num +:+ " " +:+ name) = [num; name].
Proof.
  intros [_ H1] H2. rewrite split_space_cons by done.
  by rewrite split_space_token.
Qed.

(** A leading blank makes the first piece empty. *)
Lemma split_space_leading rest :
  split_space (" " +:+ rest) = ""%string :: split_space rest.
Proof. apply (split_space_cons ""%string rest). constructor. Qed.



End SplitFacts.

(** ** The revision with string tags and aligned operands *)

Module AlignedFacts.
Import PreciseDecimal EngineFacts StoreFacts FrameFacts SpecFacts.

Lemma returns_aligned_new_decimal r d sc cfg h :
  h !! r = Some (CDecimal d) -> wf d -> StringScales.SCALE_has sc = true ->
  returns (StringScalesAligned.new (JDecimal r) (Some sc) (Some cfg)) h
          (fun l h' => h !! l = None /\
                       is_bigval h' l (unsigned_zero d) sc cfg).
Proof.
  intros Hr Hwf Hsc. cbn [StringScalesAligned.new].
  eapply returns_bind; [by apply returns_toDecimal_decimal|].
  intros n h1 Hs1 [Hn0 Hn].
  change (default StringScales.min (Some sc)) with sc.
  unfold StringScales.assertValidScale. rewrite Hsc.
  eapply returns_bind; [apply returns_ret_eq|].
  intros ? ? _ [-> ->].
  eapply returns_mono; [apply returns_alloc|].
  intros l h2 Hs2 [Hl0 Hl]. split; [by eapply lookup_weaken_None|].
  exists n. split; [done|by eapply lookup_weaken].
Qed.

Lemma returns_aligned_arith_core m this operand h x sc cfg dy :
  is_bigval h this x sc cfg -> StringScales.SCALE_has sc = true ->
  returns operand h (fun y h1 => h1 !! y = Some (CDecimal dy)) ->
  returns (StringScalesAligned.arith_core m this operand) h
          (fun l h' => h !! l = None /\
                       is_bigval h' l (unsigned_zero (apply_arith m x dy)) sc cfg).
Proof.
  intros (n & Hl & Hn) Hsc Hop. unfold StringScalesAligned.arith_core.
  eapply returns_bind; [by apply returns_read_bigval|].
  intros ? ? _ [-> ->]. cbv beta iota.
  eapply returns_bind; [exact Hop|].
  intros y h1 Hs1 Hy. cbv beta in Hy.
  eapply returns_bind; [apply returns_read_decimal; by eapply lookup_weaken|].
  intros ? ? _ [-> ->].
  eapply returns_bind; [by apply returns_read_decimal|].
  intros ? ? _ [-> ->].
  eapply returns_bind; [apply returns_alloc|].
  intros r h2 Hs2 [Hr0 Hr].
  eapply returns_bind;
    [apply returns_read_bigval; eapply lookup_weaken; [|exact Hs2];
     by eapply lookup_weaken|].
  intros ? ? _ [-> ->]. cbv beta iota.
  eapply returns_mono;
    [apply returns_aligned_new_decimal; [done|apply apply_arith_wf|done]|].
  intros l h3 Hs3 [Hl0 Hb]. split; [|done].
  eapply lookup_weaken_None; [|exact Hs1]. by eapply lookup_weaken_None.
Qed.

Lemma returns_aligned_compare_core m this operand h x sc cfg dy :
  is_bigval h this x sc cfg ->
  returns operand h (fun y h1 => h1 !! y = Some (CDecimal dy)) ->
  returns (StringScalesAligned.compare_core m this operand) h
          (fun b _ => b = apply_compare m x dy).
Proof.
  intros (n & Hl & Hn) Hop. unfold StringScalesAligned.compare_core.
  eapply returns_bind; [by apply returns_read_bigval|].
  intros ? ? _ [-> ->]. cbv beta iota.
  eapply returns_bind; [exact Hop|].
  intros y h1 Hs1 Hy. cbv beta in Hy.
  eapply returns_bind; [apply returns_read_decimal; by eapply lookup_weaken|].
  intros ? ? _ [-> ->].
  eapply returns_bind; [by apply returns_read_decimal|].
  intros ? ? _ [-> ->]. by apply returns_ret.
Qed.

Lemma returns_aligned_scaleDown this D h x sc cfg :
  is_bigval h this x sc cfg -> StringScales.SCALE_has sc = true ->
  js_integer D ->
  returns (StringScalesAligned.scaleDown this (JNum D)) h
          (fun l h' => h !! l = None /\
                       is_bigval h' l (unsigned_zero (times x (pow10 D))) sc cfg).
Proof.
  intros Hb Hsc HD. unfold StringScalesAligned.scaleDown.
  eapply returns_bind; [by apply returns_ten_pow|].
  intros p h1 Hs1 [_ Hp].
  eapply returns_mono;
    [eapply (returns_aligned_arith_core Mul);
     [by eapply is_bigval_weaken|done
     |by apply BigValFacts.returns_power_operand]|].
  intros l h2 _ [Hl0 Hl]. split; [by eapply lookup_weaken_None|done].
Qed.

Lemma returns_aligned_scaleUp this D h x sc cfg :
  is_bigval h this x sc cfg -> StringScales.SCALE_has sc = true ->
  js_integer D ->
  returns (StringScalesAligned.scaleUp this (JNum D)) h
          (fun l h' => h !! l = None /\
                       is_bigval h' l (unsigned_zero (div x (pow10 D))) sc cfg).
Proof.
  intros Hb Hsc HD. unfold StringScalesAligned.scaleUp.
  eapply returns_bind; [by apply returns_ten_pow|].
  intros p h1 Hs1 [_ Hp].
  eapply returns_mono;
    [eapply (returns_aligned_arith_core Div);
     [by eapply is_bigval_weaken|done
     |by apply BigValFacts.returns_power_operand]|].
  intros l h2 _ [Hl0 Hl]. split; [by eapply lookup_weaken_None|done].
Qed.

(** The branch of [toMinScale] that scales assigns ['coins']. *)
Lemma returns_toMinScale this D h x sc cfg :
  is_bigval h this x sc cfg -> StringScales.SCALE_has sc = true ->
  sc <> StringScales.min -> decimals cfg = Some D -> js_integer D ->
  returns (StringScalesAligned.toMinScale this) h
          (fun l h' => h !! l = None /\
                       is_bigval h' l (unsigned_zero (times x (pow10 D)))
                                 StringScales.coins cfg).
Proof.
  intros Hb Hs Hsc Hcfg HD. pose proof Hb as (n & Hl & Hn).
  unfold StringScalesAligned.toMinScale.
  eapply returns_bind; [by apply returns_read_bigval|].
  intros ? ? _ [-> ->]. cbv beta iota.
  destruct (decide (sc = StringScales.min)); [done|].
  unfold config_decimals. rewrite Hcfg.
  eapply BigValFacts.returns_retag. by apply returns_aligned_scaleDown.
Qed.

Lemma returns_toCoinsScale this D h x sc cfg :
  is_bigval h this x sc cfg -> StringScales.SCALE_has sc = true ->
  sc <> StringScales.coins -> decimals cfg = Some D -> js_integer D ->
  returns (StringScalesAligned.toCoinsScale this) h
          (fun l h' => h !! l = None /\
                       is_bigval h' l (unsigned_zero (div x (pow10 D)))
                                 StringScales.coins cfg).
Proof.
  intros Hb Hs Hsc Hcfg HD. pose proof Hb as (n & Hl & Hn).
  unfold StringScalesAligned.toCoinsScale.
  eapply returns_bind; [by apply returns_read_bigval|].
  intros ? ? _ [-> ->]. cbv beta iota.
  destruct (decide (sc = StringScales.coins)); [done|].
  unfold config_decimals. rewrite Hcfg.
  eapply BigValFacts.returns_retag. by apply returns_aligned_scaleUp.
Qed.

(** The operand of a bound method: an instance brought to the receiver's
    scale, of which only the magnitude is read. *)
Lemma returns_operand (r v : loc) (target : ScaleTag) (conv : M loc) h
      xr cr xv sv cv y :
  is_bigval h r xr target cr -> is_bigval h v xv sv cv ->
  StringScalesAligned.toScale v target = conv ->
  returns conv h (fun l h' => exists t, is_bigval h' l y t cv) ->
  returns (StringScalesAligned.toDecimalAtOriginalScale (JBigVal v) r) h
          (fun n h' => h' !! n = Some (CDecimal y)).
Proof.
  intros (nr & Hlr & Hnr) (nv & Hlv & Hnv) <- Hconv.
  cbn [StringScalesAligned.toDecimalAtOriginalScale].
  eapply returns_bind; [by apply returns_read_bigval|].
  intros ? ? _ [-> ->]. cbv beta iota.
  eapply returns_bind; [by apply returns_read_bigval|].
  intros ? ? _ [-> ->]. cbv beta iota.
  eapply returns_bind; [exact Hconv|].
  intros l h1 Hs1 (t & n & Hl & Hn).
  eapply returns_bind; [by apply returns_read_bigval|].
  intros ? ? _ [-> ->]. cbv beta iota. by apply returns_ret.
Qed.

End AlignedFacts.

(** ** Binary and hexadecimal output of whole numbers *)

Module RadixFacts.
Import Digits DigitsFacts PreciseDecimal EngineFacts.
Local Open Scope N_scope.

Lemma render_base_mul_pow b n k : 2 <= b -> n <> 0 ->
  render b (n * b ^ N.of_nat k) = (render b n ++ zeros k)%list.
Proof.
  intros Hb Hn. unfold render, zeros.
  rewrite to_digits_mul_pow by done.
  by rewrite map_app, map_repeat.
Qed.

Lemma ndigits_one b : 2 <= b -> ndigits b 1 = 1%nat.
Proof.
  intros Hb. unfold ndigits. rewrite to_digits_step by lia.
  rewrite N.div_small by lia. by rewrite to_digits_0.
Qed.

(** A whole number with at most [precision] digits in base [b] is printed
    digit for digit. *)
Lemma base_chars_whole b c e :
  2 <= b -> c <> 0 -> (0 <= e)%Z ->
  (ndigits b (c * 10 ^ Z.to_N e) <= precision)%nat ->
  base_chars b c e = render b (c * 10 ^ Z.to_N e).
Proof.
  intros Hb Hc He Hlen. unfold base_chars.
  set (n := c * 10 ^ Z.to_N e) in *.
  assert (Hn : n <> 0).
  { unfold n. apply N.neq_mul_0. split; [done|]. apply N.pow_nonzero. lia. }
  replace (Z.to_N (- e)) with 0 by lia. rewrite N.pow_0_r, N.div_1_r.
  rewrite ndigits_one by done.
  set (L := ndigits b n) in *.
  assert (HL : (0 < L)%nat) by (apply ndigits_pos; done).
  unfold round_sd.
  rewrite ndigits_mul_pow by done. fold L.
  unfold precision in *.
  destruct (Nat.ltb_spec 20 (L + (1 + 21))) as [_|?]; [|lia].
  replace (L + (1 + 21) - 20)%nat with (L + 2)%nat by lia.
  unfold round_half_up.
  assert (Hq : n * b ^ N.of_nat (1 + 21)
               = n * b ^ N.of_nat (20 - L) * b ^ N.of_nat (L + 2)).
  { rewrite <- N.mul_assoc, <- N.pow_add_r. do 2 f_equal. lia. }
  assert (Hp : b ^ N.of_nat (L + 2) <> 0) by (apply N.pow_nonzero; lia).
  rewrite Hq, N.div_mul, N.Div0.mod_mul by done.
  destruct (N.leb_spec (b ^ N.of_nat (L + 2)) (2 * 0)) as [?|_]; [lia|].
  destruct (trailing_zeros b n Hb Hn) as (m & j & En & Hm & Hmod).
  rewrite En, <- N.mul_assoc, <- N.pow_add_r, <- Nat2N.inj_add.
  rewrite strip_mul_pow by done.
  rewrite render_length.
  destruct (Z.leb_spec 0 (- Z.of_nat (1 + 21) + Z.of_nat (L + 2)
                          + Z.of_nat (j + (20 - L)))) as [_|?]; [|lia].
  rewrite render_base_mul_pow by done. do 2 f_equal. lia.
Qed.

Lemma numeral_bdigit b d : d < b -> b <= 16 -> bdigit b (numeral d) = Some d.
Proof.
  intros Hd Hb. unfold bdigit.
  assert (Hh : hex_val (numeral d) = Some d).
  { assert (d = 0 \/ d = 1 \/ d = 2 \/ d = 3 \/ d = 4 \/ d = 5 \/ d = 6 \/ d = 7 \/
            d = 8 \/ d = 9 \/ d = 10 \/ d = 11 \/ d = 12 \/ d = 13 \/ d = 14 \/
            d = 15) as Hcases by lia.
    repeat (destruct Hcases as [->|Hcases]; [reflexivity|]). by subst. }
  rewrite Hh. by rewrite (proj2 (N.ltb_lt d b)).
Qed.

End RadixFacts.

Module RadixParseFacts.
Import Digits DigitsFacts PreciseDecimal EngineFacts RadixFacts.
Local Open Scope N_scope.

Lemma numeral_not_underscore d : d < 16 -> Ascii.eqb "_" (numeral d) = false.
Proof.
  intros Hd.
  assert (d = 0 \/ d = 1 \/ d = 2 \/ d = 3 \/ d = 4 \/ d = 5 \/ d = 6 \/ d = 7 \/
          d = 8 \/ d = 9 \/ d = 10 \/ d = 11 \/ d = 12 \/ d = 13 \/ d = 14 \/
          d = 15) as Hcases by lia.
  repeat (destruct Hcases as [->|Hcases]; [reflexivity|]). by subst.
Qed.

Lemma render_no_underscore b n : 2 <= b -> b <= 16 ->
  existsb (Ascii.eqb "_") (render b n) = false.
Proof.
  intros Hb Hb16. unfold render.
  pose proof (to_digits_lt b n Hb) as Hlt.
  induction (to_digits b n) as [|d ds IH]; [done|].
  apply Forall_cons in Hlt as [Hd Hds]. cbn [map existsb].
  rewrite numeral_not_underscore by lia. by apply IH.
Qed.

Lemma bdigits_render b n : 2 <= b -> b <= 16 ->
  bdigits b (render b n) = Some (to_digits b n).
Proof.
  intros Hb Hb16. unfold render.
  pose proof (to_digits_lt b n Hb) as Hlt.
  induction (to_digits b n) as [|d ds IH]; [done|].
  apply Forall_cons in Hlt as [Hd Hds]. cbn [map bdigits].
  rewrite numeral_bdigit by done. by rewrite IH.
Qed.

Lemma render_cons b n : 2 <= b -> n <> 0 ->
  exists a r, render b n = a :: r.
Proof.
  intros Hb Hn. destruct (to_digits_nonzero b n Hb Hn) as (d & ds & E & _).
  unfold render. rewrite E. by eexists _, _.
Qed.

(** What the engine prints in hexadecimal for a whole number it reads
    back as that number. *)
Lemma parse_chars_hex (neg : bool) (n : N) : n <> 0 ->
  parse_chars ((if neg then ["-"%char] else []) ++ "0"%char :: "x"%char :: render 16 n)
  = Parsed (of_parts neg n 0).
Proof.
  intros Hn.
  assert (Hs : split_sign ((if neg then ["-"%char] else [])
                           ++ "0"%char :: "x"%char :: render 16 n)
               = (neg, "0"%char :: "x"%char :: render 16 n))
    by (by destruct neg).
  unfold parse_chars. rewrite Hs.
  assert (Hd : parse_decimal neg ("0"%char :: "x"%char :: render 16 n) = None)
    by reflexivity.
  rewrite Hd. unfold parse_other. cbn [existsb].
  rewrite render_no_underscore by lia.
  change (Ascii.eqb "_" "0" || (Ascii.eqb "_" "x" || false)) with false.
  cbv iota.
  change (String.eqb (string_of_list_ascii ("0"%char :: "x"%char :: render 16 n))
                     "Infinity") with false.
  change (String.eqb (string_of_list_ascii ("0"%char :: "x"%char :: render 16 n))
                     "NaN") with false.
  cbv iota. change (Ascii.eqb "x" "x" || Ascii.eqb "x" "X") with true. cbv iota.
  pose proof (bdigits_render 16 n ltac:(lia) ltac:(lia)) as Hb.
  destruct (render_cons 16 n ltac:(lia) Hn) as (a & r & E).
  rewrite E in Hb |- *. unfold parse_radix. rewrite Hb.
  by rewrite of_to_digits by lia.
Qed.

Lemma toHexadecimal_whole (s : bool) (c : N) (e : Z) :
  c <> 0 -> (0 <= e)%Z ->
  (ndigits 16 (c * 10 ^ Z.to_N e) <= precision)%nat ->
  toHexadecimal (Fin s c e)
  = string_of_list_ascii ((if s then ["-"%char] else [])
                          ++ "0"%char :: "x"%char :: render 16 (c * 10 ^ Z.to_N e)).
Proof.
  intros Hc He Hlen. unfold toHexadecimal, toStringBinary_chars, base_body.
  rewrite (proj2 (N.eqb_neq c 0) Hc), base_chars_whole by (done || lia).
  reflexivity.
Qed.

Lemma strip_b_positive c e :
  let str := toBinary (Fin false c e) in
  JsString.substr str (JsString.indexOf str "b" + 1)
  = string_of_list_ascii (base_body 2 c e).
Proof.
  cbv zeta. rewrite FormatFacts.toBinary_positive.
  generalize (base_body 2 c e). intros B.
  unfold JsString.substr, JsString.indexOf.
  cbn [list_ascii_of_string JsString.index_chars Ascii.eqb Bool.eqb].
  change (Z.to_nat (0 + 1 + 1)) with 2%nat. cbn [drop].
  by rewrite list_ascii_of_string_of_list_ascii.
Qed.

End RadixParseFacts.

(** ** Fixed-point output *)

Module FixedFacts.
Import Digits DigitsFacts PreciseDecimal EngineFacts.
Local Open Scope N_scope.

Lemma lt_pow_ndigits b (Hb : 2 <= b) n : n < b ^ N.of_nat (ndigits b n).
Proof.
  induction n as [|n Hn IH] using (N_div_ind b Hb).
  - rewrite ndigits_0. simpl. lia.
  - unfold ndigits in *. rewrite to_digits_step, length_app by done.
    cbn [length]. rewrite Nat.add_1_r, Nat2N.inj_succ, N.pow_succ_r'.
    pose proof (N.div_mod n b ltac:(lia)) as Hdm.
    pose proof (N.mod_lt n b ltac:(lia)) as Hlt. nia.
Qed.



End FixedFacts.

Module FixedPrintFacts.
Import Digits DigitsFacts PreciseDecimal EngineFacts.
Local Open Scope N_scope.







End FixedPrintFacts.

(** ** The store under the remaining methods *)

Module MethodFrameFacts.
Import PreciseDecimal EngineFacts StoreFacts FrameFacts.

Lemma grows_preserves {A} (m : M A) h : grows m -> preserves m h.
Proof. intros Hg l c Hl. by eapply lookup_weaken; [|apply Hg]. Qed.

Lemma grows_round this : grows (BigVal.round this).
Proof.
  unfold BigVal.round. repeat first [ apply grows_new | grows_step ].
Qed.

Lemma allocates_round this : allocates (BigVal.round this).
Proof.
  unfold BigVal.round.
  repeat first [ apply allocates_new | allocates_step ].
Qed.

Lemma self_or_new_retag (m : M loc) tag h this :
  allocates m -> grows m ->
  self_or_new (n ← m; set_scale n tag;; mret n) h this.
Proof.
  intros Ha Hg. unfold self_or_new. rewrite run_bind.
  specialize (Ha h). specialize (Hg h).
  destruct (run m h) as [[n|e] h1]; [|done]. simpl in Ha, Hg.
  rewrite run_bind. unfold set_scale. rewrite run_bind.
  destruct (run (read_bigval n) h1) as [[[[n' sc] cfg]|e] h2]; [|done].
  cbn. by right.
Qed.

Lemma self_or_new_toSmallestScale this h :
  self_or_new (BigVal.toSmallestScale this) h this.
Proof.
  unfold self_or_new, BigVal.toSmallestScale. rewrite run_bind.
  destruct (run (read_bigval this) h) as [[[[n sc] cfg]|e] h1] eqn:E; [|done].
  assert (h1 = h) as ->.
  { unfold read_bigval, run, mbind, M_bind, bind, read in E.
    destruct (h !! this) as [[]|]; by inversion E. }
  destruct (decide (sc = BigVal.SMALLEST)); [by left|].
  apply self_or_new_retag; [apply allocates_scaleDown|apply grows_scaleDown].
Qed.

Lemma self_or_new_toNormalScale this h :
  self_or_new (BigVal.toNormalScale this) h this.
Proof.
  unfold self_or_new, BigVal.toNormalScale. rewrite run_bind.
  destruct (run (read_bigval this) h) as [[[[n sc] cfg]|e] h1] eqn:E; [|done].
  assert (h1 = h) as ->.
  { unfold read_bigval, run, mbind, M_bind, bind, read in E.
    destruct (h !! this) as [[]|]; by inversion E. }
  destruct (decide (sc = BigVal.NORMAL)); [by left|].
  apply self_or_new_retag; [apply allocates_scaleUp|apply grows_scaleUp].
Qed.

(** Printing reads the store and nothing else. *)
Lemma toString_of_pure this base h : (run (toString_of this base) h).2 = h.
Proof.
  unfold run, toString_of, read_bigval, read_decimal, read, mbind, M_bind, bind.
  destruct (h !! this) as [[d|n sc cfg]|]; try done. cbn.
  destruct (h !! n) as [[d|n' sc' cfg']|]; done.
Qed.

Lemma toFixed_of_pure this dp h : (run (toFixed_of this dp) h).2 = h.
Proof.
  unfold run, toFixed_of, read_bigval, read_decimal, read, mbind, M_bind, bind.
  destruct (h !! this) as [[d|n sc cfg]|]; try done.
  cbn -[toFixed Z_chars MAX_DIGITS Z.leb].
  destruct (h !! n) as [[d|n' sc' cfg']|]; try done.
  cbn -[toFixed Z_chars MAX_DIGITS Z.leb].
  by destruct (_ && _).
Qed.

End MethodFrameFacts.

(** ** Comparisons under scaling *)

Module OrderFacts.
Import Digits PreciseDecimal EngineFacts.
Local Open Scope Z_scope.










End OrderFacts.


(** ** The precision of arithmetic results *)

Module PrecisionFacts.
Import Digits DigitsFacts PreciseDecimal EngineFacts.
Local Open Scope N_scope.

Lemma strip_digits c e : (ndigits 10 (strip 10 c e).1 <= ndigits 10 c)%nat.
Proof.
  destruct (strip_spec 10 c e ltac:(lia)) as (c' & k & -> & Ec & Hz & Hnz).
  cbn [fst]. destruct (N.eq_dec c 0) as [->|Hc].
  - rewrite (Hz eq_refl). done.
  - destruct (Hnz Hc) as [Hc' _]. rewrite Ec.
    rewrite ndigits_mul_pow by (done || lia). lia.
Qed.

Lemma clamp_digits neg c e : (sig_digits (clamp neg (c, e)) <= ndigits 10 c)%nat.
Proof.
  unfold clamp. destruct (N.eqb c 0); [cbn; rewrite ndigits_0; lia|].
  destruct (_ <? _)%Z; [cbn; lia|].
  destruct (_ <? _)%Z; [cbn; rewrite ndigits_0; lia|done].
Qed.

(** Rounding to [sd] digits gives fewer than [10^sd], or [10^sd] itself
    by a carry. *)
Lemma round_half_up_bound c sd k :
  ndigits 10 c = (sd + k)%nat ->
  round_half_up 10 c k <= 10 ^ N.of_nat sd.
Proof.
  intros Hn. pose proof (FixedFacts.lt_pow_ndigits 10 ltac:(lia) c) as Hlt.
  rewrite Hn in Hlt. unfold round_half_up. set (p := 10 ^ N.of_nat k).
  assert (Hp : p <> 0) by (apply N.pow_nonzero; lia).
  assert (Hq : c / p < 10 ^ N.of_nat sd).
  { apply N.Div0.div_lt_upper_bound. unfold p.
    rewrite <- N.pow_add_r, <- Nat2N.inj_add.
    by replace (k + sd)%nat with (sd + k)%nat by lia. }
  destruct (_ <=? _); lia.
Qed.

Lemma finalise_digits neg c e : (sig_digits (finalise neg c e) <= precision)%nat.
Proof.
  unfold finalise, round_sd.
  destruct (Nat.ltb_spec precision (ndigits 10 c)) as [Hlt|Hle].
  - set (k := (ndigits 10 c - precision)%nat).
    pose proof (round_half_up_bound c precision k ltac:(unfold k; lia)) as Hq.
    set (q := round_half_up 10 c k) in *.
    destruct (strip 10 q (e + Z.of_nat k)) as [c1 e1] eqn:Es.
    etrans; [apply clamp_digits|].
    pose proof (strip_digits q (e + Z.of_nat k)) as Hs. rewrite Es in Hs.
    cbn [fst] in Hs.
    destruct (N.eq_dec q (10 ^ N.of_nat precision)) as [Eq|Hne].
    + rewrite Eq in Es.
      rewrite <- (N.mul_1_l (10 ^ _)), strip_mul_pow in Es by (done || lia).
      injection Es as <- _. unfold precision.
      rewrite RadixFacts.ndigits_one by lia. lia.
    + etrans; [exact Hs|]. apply ndigits_le; lia.
  - destruct (strip 10 c e) as [c1 e1] eqn:Es.
    etrans; [apply clamp_digits|].
    pose proof (strip_digits c e) as Hs. rewrite Es in Hs. cbn [fst] in Hs. lia.
Qed.

Lemma zero_digits neg : (sig_digits (Fin neg 0 0) <= precision)%nat.
Proof. cbn. rewrite ndigits_0. lia. Qed.

Ltac digit_cases :=
  repeat match goal with
         | |- context [if ?b then _ else _] => destruct b
         end;
  first [apply finalise_digits | apply zero_digits | cbn; lia].

Lemma plus_digits x y : (sig_digits (plus x y) <= precision)%nat.
Proof. destruct x as [|?|? ? ?], y as [|?|? ? ?]; cbn [plus]; digit_cases. Qed.

Lemma times_digits x y : (sig_digits (times x y) <= precision)%nat.
Proof. destruct x as [|?|? ? ?], y as [|?|? ? ?]; cbn [times]; digit_cases. Qed.

Lemma div_digits x y : (sig_digits (div x y) <= precision)%nat.
Proof. destruct x as [|?|? ? ?], y as [|?|? ? ?]; cbn [div]; digit_cases. Qed.

(** Every result of the engine's arithmetic has at most [precision]
    significant digits. *)
Lemma apply_arith_digits m x y :
  (sig_digits (apply_arith m x y) <= precision)%nat.
Proof.
  destruct m; cbn [apply_arith];
    [apply times_digits|apply plus_digits|apply div_digits|apply plus_digits].
Qed.

Lemma unsigned_zero_digits x : sig_digits (unsigned_zero x) = sig_digits x.
Proof. by destruct x as [| |s [|p] e]. Qed.

End PrecisionFacts.

(** ** What a bound arithmetic method returns *)

Module ResultFacts.
Import PreciseDecimal EngineFacts StoreFacts FrameFacts SpecFacts BigValFacts.

Lemma run_read_bigval_inv l h n sc cfg h' :
  run (read_bigval l) h = (Ok (n, sc, cfg), h') ->
  h' = h /\ h !! l = Some (CBigVal n sc cfg).
Proof.
  unfold read_bigval, run, mbind, M_bind, bind, read.
  destruct (h !! l) as [[d|n0 sc0 cfg0]|]; try done. cbn. by intros [= -> -> -> ->].
Qed.

Lemma run_read_decimal_inv l h d h' :
  run (read_decimal l) h = (Ok d, h') -> h' = h /\ h !! l = Some (CDecimal d).
Proof.
  unfold read_decimal, run, mbind, M_bind, bind, read.
  destruct (h !! l) as [[d0|n0 sc0 cfg0]|]; try done. cbn. by intros [= -> ->].
Qed.

(** Whatever the operand, a result of a bound arithmetic method holds
    what the engine computed, stored again. *)
Lemma arith_core_result m this operand h l h' :
  run (BigVal.arith_core m this operand) h = (Ok l, h') ->
  exists x y sc cfg,
    is_bigval h' l (unsigned_zero (apply_arith m x y)) sc cfg.
Proof.
  unfold BigVal.arith_core. rewrite run_bind.
  destruct (run (read_bigval this) h) as [[[[n sc0] cfg0]|e0] h0] eqn:E0; [|done].
  rewrite run_bind.
  destruct (run operand h0) as [[y|e1] h1] eqn:E1; [|done].
  rewrite run_bind.
  destruct (run (read_decimal n) h1) as [[dx|e2] h2] eqn:E2; [|done].
  apply run_read_decimal_inv in E2 as [-> Hn].
  rewrite run_bind.
  destruct (run (read_decimal y) h1) as [[dy|e3] h3] eqn:E3; [|done].
  apply run_read_decimal_inv in E3 as [-> Hy].
  rewrite run_bind.
  destruct (returns_alloc (CDecimal (apply_arith m dx dy)) h1)
    as (r & h4 & E4 & _ & _ & Hr).
  rewrite E4. rewrite run_bind.
  destruct (run (read_bigval this) h4) as [[[[n' sc] cfg]|e5] h5] eqn:E5; [|done].
  apply run_read_bigval_inv in E5 as [-> Hthis].
  intros E.
  destruct (returns_new_decimal r (apply_arith m dx dy) sc cfg h4 Hr
              (apply_arith_wf m dx dy)) as (l' & h6 & E6 & _ & _ & Hb).
  rewrite E in E6. injection E6 as <- <-. by exists dx, dy, sc, cfg.
Qed.

End ResultFacts.

(* ===================================================================== *)
(** * The claims *)
(* ===================================================================== *)

Import PreciseDecimal.
Local Open Scope Z_scope.


(** C1. When the operand [v] of [add], [sub], [mul], [div], [gt], [gte],
    [lt], [lte] or [eq] is itself an instance, its magnitude is first
    brought to the receiver's scale ([v.toScale(r.scale)], with [v]'s own
    [decimals]) and the engine then combines or compares the receiver's
    magnitude with the converted one; when the conversion throws, the
    method throws the same error and nothing is combined. In particular a
    [NORMAL] operand 1 with [decimals = 18] adds 1000000000000000000, the
    engine value [1e18], to a [SMALLEST] receiver. *)
Theorem C1_operand_aligned_to_receiver_scale
  (h : heap) (r v : loc) (xr xv : t) (sr sv : ScaleTag) (cr cv : BigValConfig) :
  is_bigval h r xr sr cr -> is_bigval h v xv sv cv -> config_ok cv ->
  (forall m : arith,
      match aligned_magnitude sr xv sv cv with
      | Ok y => returns (BigVal.arith_method m r (JBigVal v)) h
                        (fun l h' => h !! l = None /\
                                     is_bigval h' l (unsigned_zero (apply_arith m xr y)) sr cr)
      | Throw e => throws (BigVal.arith_method m r (JBigVal v)) h e
      end) /\
  (forall m : compare,
      match aligned_magnitude sr xv sv cv with
      | Ok y => returns (BigVal.compare_method m r (JBigVal v)) h
                        (fun b _ => b = apply_compare m xr y)
      | Throw e => throws (BigVal.compare_method m r (JBigVal v)) h e
      end) /\
  (sr = BigVal.SMALLEST -> sv = BigVal.NORMAL -> decimals cv = Some 18 ->
   parse "1" = Parsed xv ->
   exists y, parse "1000000000000000000" = Parsed y /\ y <> xv /\
             returns (BigVal.add r (JBigVal v)) h
                     (fun l h' => is_bigval h' l (unsigned_zero (plus xr y))
                                            BigVal.SMALLEST cr)).
Proof.
  intros Hr Hv Hcv.
  pose proof (BigValFacts.operand_aligned r v h xr sr cr xv sv cv Hr Hv Hcv) as Hop.
  assert (Harith : forall m : arith,
      match aligned_magnitude sr xv sv cv with
      | Ok y => returns (BigVal.arith_method m r (JBigVal v)) h
                        (fun l h' => h !! l = None /\
                                     is_bigval h' l (unsigned_zero (apply_arith m xr y)) sr cr)
      | Throw e => throws (BigVal.arith_method m r (JBigVal v)) h e
      end).
  { intros m. destruct (aligned_magnitude sr xv sv cv) as [y|e].
    - by eapply BigValFacts.returns_arith_core.
    - by eapply BigValFacts.throws_arith_core. }
  split; [exact Harith|]. split.
  - intros m. destruct (aligned_magnitude sr xv sv cv) as [y|e].
    + by eapply BigValFacts.returns_compare_core.
    + by eapply BigValFacts.throws_compare_core.
  - intros -> -> Hd Hone. injection Hone as <-.
    exists (Fin false 1 18). split; [done|]. split; [done|].
    specialize (Harith Add). unfold aligned_magnitude in Harith.
    rewrite Hd in Harith. cbn in Harith.
    eapply SpecFacts.returns_mono; [exact Harith|]. by intros l h' _ [_ ?].
Qed.

Lemma C1_witness :
  returns (BigVal.add 2%positive (JBigVal 4%positive)) store_mixed
          (fun l h' => is_bigval h' l (Fin false 1000000000000000005 0)
                                 BigVal.SMALLEST BigVal.default_config).
Proof.
  destruct (C1_operand_aligned_to_receiver_scale store_mixed 2 4
              (Fin false 5 0) (Fin false 1 0) BigVal.SMALLEST BigVal.NORMAL
              BigVal.default_config BigVal.default_config)
    as (_ & _ & H).
  - exists 1%positive. split; reflexivity.
  - exists 3%positive. split; reflexivity.
  - vm_compute. reflexivity.
  - destruct (H eq_refl eq_refl eq_refl eq_refl) as (y & Hy & _ & Hret).
    vm_compute in Hy. injection Hy as <-. exact Hret.
Defined.






(** C4. After [a.add(b)], [a.sub(b)], [a.mul(b)], [a.div(b)] and after each
    of the five comparisons, every object of the store (the receiver, its
    magnitude, the operand and its magnitude among them) is exactly as it
    was, for every receiver and operand and for every outcome; a result of
    an arithmetic method is an object the store did not hold before. *)
Theorem C4_operations_are_immutable (h : heap) (a : loc) (b : any) :
  (forall m : arith,
      let '(r, h') := run (BigVal.arith_method m a b) h in
      (forall l c, h !! l = Some c -> h' !! l = Some c) /\
      (forall l d sc cfg, is_bigval h l d sc cfg -> is_bigval h' l d sc cfg) /\
      match r with Ok l => h !! l = None | Throw _ => True end) /\
  (forall m : compare,
      let '(_, h') := run (BigVal.compare_method m a b) h in
      (forall l c, h !! l = Some c -> h' !! l = Some c) /\
      (forall l d sc cfg, is_bigval h l d sc cfg -> is_bigval h' l d sc cfg)).
Proof.
  split; intros m.
  - pose proof (FrameFacts.grows_arith_method m a b h) as Hg.
    pose proof (FrameFacts.allocates_arith_method m a b h) as Ha.
    destruct (run (BigVal.arith_method m a b) h) as [r h']. simpl in Hg, Ha.
    split; [|split; [|exact Ha]].
    + intros l c Hl. by eapply lookup_weaken.
    + intros l d sc cfg. by apply FrameFacts.is_bigval_weaken.
  - pose proof (FrameFacts.grows_compare_method m a b h) as Hg.
    destruct (run (BigVal.compare_method m a b) h) as [r h']. simpl in Hg.
    split.
    + intros l c Hl. by eapply lookup_weaken.
    + intros l d sc cfg. by apply FrameFacts.is_bigval_weaken.
Qed.

Lemma C4_witness :
  let h' := (run (BigVal.add 2%positive (JBigVal 4%positive)) store_mixed).2 in
  is_bigval h' 2%positive (Fin false 5 0) BigVal.SMALLEST BigVal.default_config /\
  is_bigval h' 4%positive (Fin false 1 0) BigVal.NORMAL BigVal.default_config.
Proof.
  destruct (C4_operations_are_immutable store_mixed 2 (JBigVal 4)) as [H _].
  specialize (H Add). change (BigVal.arith_method Add) with BigVal.add in H.
  cbv zeta.
  destruct (run (BigVal.add 2%positive (JBigVal 4%positive)) store_mixed) as [r h'].
  destruct H as (_ & H & _).
  split; apply H; [exists 1%positive|exists 3%positive]; split; reflexivity.
Defined.




(** C6, as stated, fails: [toString(3)] does not fail; it returns the
    base-10 string, as the repository's own arithmetic tests expect
    ([a.div(v).toString(3)] is ['4.9']). *)
Lemma C6_counterexample :
  (run (a ← BigVal.new (JNum 98) None None;
        r ← BigVal.div a (JNum 20);
        BigVal.toString r 3) ∅).1 = Ok "4.9"%string.
Proof. vm_compute. reflexivity. Qed.

(** C6, amended. For every instance and every base argument other than 2
    and 16, [toString(base)] returns the engine's base-10 string of the
    magnitude, as [toString(10)] does; no base makes it fail. *)
Theorem C6_other_bases_print_base_10
  (h : heap) (v : loc) (x : t) (sc : ScaleTag) (cfg : BigValConfig) (base : Z) :
  is_bigval h v x sc cfg -> base <> 2 -> base <> 16 ->
  run (BigVal.toString v base) h = (Ok (PreciseDecimal.toString x), h) /\
  run (BigVal.toString v base) h = run (BigVal.toString v 10) h.
Proof.
  intros (n & Hl & Hn) H2 H16.
  assert (forall b, b <> 2 -> b <> 16 ->
            run (BigVal.toString v b) h = (Ok (PreciseDecimal.toString x), h)) as H.
  { intros b Hb2 Hb16.
    unfold run, BigVal.toString, toString_of, read_bigval, read_decimal, read,
      mbind, M_bind, bind.
    rewrite Hl. cbn. rewrite Hn. cbn.
    destruct b as [|p|p]; try done.
    do 5 (destruct p as [p|p|]; try done). }
  split; [by apply H|]. rewrite !H; done.
Qed.

Lemma C6_witness :
  run (BigVal.toString 2%positive 3) store_normal = (Ok "123.4"%string, store_normal).
Proof.
  apply (C6_other_bases_print_base_10 store_normal 2 (Fin false 1234 (-1))
           BigVal.NORMAL {| decimals := Some 2 |} 3).
  - exists 1%positive. split; reflexivity.
  - discriminate.
  - discriminate.
Defined.

(** C7. Constructing from an existing instance [s] stores a new engine
    value, numerically the magnitude of [s] (the sign of a zero is not
    kept), in an object of its own: the new instance's [_n] is an address
    the store did not hold, so it is not the [_n] of [s]; the tag and the
    configuration are those of [s], and the [scale] and [config] arguments
    play no part. *)
Theorem C7_copy_construction
  (h : heap) (s n : loc) (x : t) (sc : ScaleTag) (cfg : BigValConfig)
  (scale : option ScaleTag) (config : option BigValConfig) :
  h !! s = Some (CBigVal n sc cfg) -> h !! n = Some (CDecimal x) -> wf x ->
  returns (BigVal.new (JBigVal s) scale config) h
          (fun l h' => exists n',
               h' !! l = Some (CBigVal n' sc cfg) /\
               h' !! n' = Some (CDecimal (unsigned_zero x)) /\
               n' <> n /\ h !! n' = None /\ h !! l = None /\
               h' !! s = Some (CBigVal n sc cfg) /\
               h' !! n = Some (CDecimal x)) /\
  run (BigVal.new (JBigVal s) scale config) h
  = run (BigVal.new (JBigVal s) None None) h.
Proof.
  intros Hs Hn Hwf. split; [|reflexivity].
  by apply BigValFacts.returns_new_copy.
Qed.

Lemma C7_witness :
  returns (BigVal.new (JBigVal 2%positive) (Some BigVal.SMALLEST) None) store_normal
          (fun l h' => exists n',
               h' !! l = Some (CBigVal n' BigVal.NORMAL {| decimals := Some 2 |}) /\
               h' !! n' = Some (CDecimal (Fin false 1234 (-1))) /\
               n' <> 1%positive).
Proof.
  destruct (C7_copy_construction store_normal 2 1 (Fin false 1234 (-1)) BigVal.NORMAL
              {| decimals := Some 2 |} (Some BigVal.SMALLEST) None) as [H _].
  - reflexivity.
  - reflexivity.
  - right. vm_compute. repeat split; discriminate.
  - eapply SpecFacts.returns_mono; [exact H|].
    intros l h' _ (n' & H1 & H2 & H3 & _). by exists n'.
Defined.

(** C8, as stated, fails: the constructor of [src/index.ts] stores any tag,
    and for an instance carrying a tag other than the two recognised ones
    [v.toScale(v.scale)] throws. *)
Lemma C8_counterexample :
  (run (v ← BigVal.new (JNum 1) (Some (NumTag 7)) None;
        BigVal.toScale v (NumTag 7)) ∅).1
  = Throw (UnrecognizedScale (NumTag 7)).
Proof. vm_compute. reflexivity. Qed.

(** C8, amended. For every instance whose tag is [SMALLEST] or [NORMAL],
    [v.toScale(v.scale)] returns [v] itself and leaves the store as it
    is; and for every instance, [toScale] applied to a tag other than
    these two throws [Unrecognized scale]. *)
Theorem C8_toScale_identity_and_rejection
  (h : heap) (v : loc) (x : t) (sc : ScaleTag) (cfg : BigValConfig) :
  is_bigval h v x sc cfg ->
  (sc = BigVal.SMALLEST \/ sc = BigVal.NORMAL ->
   run (BigVal.toScale v sc) h = (Ok v, h)) /\
  (forall tag, tag <> BigVal.SMALLEST -> tag <> BigVal.NORMAL ->
               throws (BigVal.toScale v tag) h (UnrecognizedScale tag)).
Proof.
  intros Hv. split.
  - intros [-> | ->].
    + by eapply BigValFacts.run_toSmallestScale_same.
    + by eapply BigValFacts.run_toNormalScale_same.
  - intros tag H0 H1. by apply BigValFacts.throws_toScale_unrecognized.
Qed.

Lemma C8_witness :
  run (BigVal.toScale 2%positive BigVal.NORMAL) store_normal = (Ok 2%positive, store_normal)
  /\ throws (BigVal.toScale 2%positive (StrTag "coins")) store_normal
            (UnrecognizedScale (StrTag "coins")).
Proof.
  destruct (C8_toScale_identity_and_rejection store_normal 2 (Fin false 1234 (-1))
              BigVal.NORMAL {| decimals := Some 2 |}) as [H1 H2].
  - exists 1%positive. split; reflexivity.
  - split; [apply H1; by right|apply H2; discriminate].
Defined.



(** C10, as stated, fails for the negative magnitude [-Infinity]: the
    engine prints it without a ['b'], nothing is stripped, and the minus
    sign stays. *)
Lemma C10_counterexample :
  (run (v ← BigVal.new (JStr "-Infinity") None None;
        s ← BigVal.toString v 2;
        x ← magnitude_of v;
        mret (x, s)) ∅).1 = Ok (Inf true, "-Infinity"%string).
Proof. vm_compute. reflexivity. Qed.

(** C10, amended. For every instance whose magnitude is finite and
    negative, [toString(2)] returns what the engine's [toBinary] prints
    for the absolute value after its ["0b"] prefix: everything up to and
    including the first ['b'] of ["-0b..."] is dropped, and no minus sign
    is left in the result. *)
Theorem C10_binary_drops_sign
  (h : heap) (v : loc) (c : N) (e : Z) (sc : ScaleTag) (cfg : BigValConfig) :
  is_bigval h v (Fin true c e) sc cfg ->
  exists body : string,
    toBinary (Fin false c e) = String "0" (String "b" body) /\
    toBinary (Fin true c e) = String "-" (String "0" (String "b" body)) /\
    run (BigVal.toString v 2) h = (Ok body, h) /\
    Forall (fun a => a <> "-"%char) (list_ascii_of_string body).
Proof.
  intros (n & Hl & Hn).
  exists (string_of_list_ascii (base_body 2 c e)).
  split; [reflexivity|]. split; [reflexivity|]. split.
  - unfold run, BigVal.toString, toString_of, read_bigval, read_decimal, read,
      mbind, M_bind, bind.
    rewrite Hl. cbn -[toBinary JsString.substr JsString.indexOf].
    rewrite Hn. cbn -[toBinary JsString.substr JsString.indexOf].
    by rewrite FormatFacts.strip_b_negative.
  - rewrite list_ascii_of_string_of_list_ascii.
    eapply Forall_impl; [apply FormatFacts.base_body_binary|].
    apply FormatFacts.binary_char_not_minus.
Qed.

Lemma C10_witness :
  run (BigVal.toString 2%positive 2) store_negative = (Ok "101"%string, store_negative).
Proof.
  destruct (C10_binary_drops_sign store_negative 2 5%N 0 BigVal.SMALLEST
              BigVal.default_config) as (body & Hb & _ & Hrun & _).
  - exists 1%positive. split; reflexivity.
  - vm_compute in Hb. injection Hb as <-. exact Hrun.
Defined.

(* ===================================================================== *)
(** * Further properties of the code around the claims *)
(* ===================================================================== *)

(** X1. The base-10 string of an instance, handed back to the constructor
    together with the instance's scale and configuration, gives a new
    instance with the same magnitude (a negative zero comes back as
    zero), scale and configuration. *)
Theorem X1_toString_reconstructs
  (h : heap) (v : loc) (x : t) (sc : ScaleTag) (cfg : BigValConfig) :
  is_bigval h v x sc cfg -> wf x ->
  returns (s ← BigVal.toString v 10; BigVal.new (JStr s) (Some sc) (Some cfg)) h
          (fun l h' => h !! l = None /\ is_bigval h' l (unsigned_zero x) sc cfg).
Proof.
  intros Hv Hwf.
  eapply SpecFacts.returns_bind;
    [by eapply (OperandFacts.returns_toString_of v 10)|].
  intros s h1 _ [-> ->].
  apply (OperandFacts.returns_new_fresh (JStr (toString x)) (Some sc) (Some cfg));
    [done|].
  apply OperandFacts.returns_toDecimal_value, SpecFacts.returns_toDecimal_str.
  by apply EngineFacts.parse_toString.
Qed.

Lemma X1_witness :
  returns (s ← BigVal.toString 2%positive 10;
           BigVal.new (JStr s) (Some BigVal.NORMAL) (Some {| decimals := Some 2 |}))
          store_normal
          (fun l h' => store_normal !! l = None /\
                       is_bigval h' l (unsigned_zero (Fin false 1234 (-1)))
                                 BigVal.NORMAL {| decimals := Some 2 |}).
Proof.
  apply (X1_toString_reconstructs store_normal 2%positive (Fin false 1234 (-1))).
  - exists 1%positive. split; reflexivity.
  - right. split; [done|]. split; [done|]. vm_compute. split; discriminate.
Defined.



(** X3. An [undefined] or [null] operand is rejected by every arithmetic
    and comparison method, and nothing is allocated. In [src/index.ts] the
    operand's [_n] is read first, so the call ends with a TypeError; in
    the revision whose closures hand the operand to [toDecimal] directly,
    the engine rejects the text ["undefined"] or ["null"]. *)
Theorem X3_nullish_operand_rejected
  (h : heap) (r : loc) (x : t) (sc : ScaleTag) (cfg : BigValConfig) :
  is_bigval h r x sc cfg ->
  (forall m : arith,
      run (BigVal.arith_method m r JUndefined) h = (Throw TypeError, h) /\
      run (BigVal.arith_method m r JNull) h = (Throw TypeError, h)) /\
  (forall m : compare,
      run (BigVal.compare_method m r JUndefined) h = (Throw TypeError, h) /\
      run (BigVal.compare_method m r JNull) h = (Throw TypeError, h)) /\
  (forall m : arith,
      run (StringScales.arith_method m r JUndefined) h
      = (Throw (DecimalError "undefined"), h) /\
      run (StringScales.arith_method m r JNull) h
      = (Throw (DecimalError "null"), h)) /\
  (forall m : compare,
      run (StringScales.compare_method m r JUndefined) h
      = (Throw (DecimalError "undefined"), h) /\
      run (StringScales.compare_method m r JNull) h
      = (Throw (DecimalError "null"), h)).
Proof.
  intros (n & Hl & Hn).
  repeat split;
    unfold run, BigVal.arith_method, BigVal.compare_method, BigVal.arith_core,
      BigVal.compare_core, StringScales.arith_method,
      StringScales.compare_method, read_bigval, read, mbind, M_bind, bind;
    rewrite Hl; reflexivity.
Qed.

Lemma X3_witness :
  run (BigVal.add 2%positive JUndefined) store_normal
  = (Throw TypeError, store_normal).
Proof.
  apply (X3_nullish_operand_rejected store_normal 2%positive
           (Fin false 1234 (-1)) BigVal.NORMAL {| decimals := Some 2 |}).
  exists 1%positive. split; reflexivity.
Defined.







(** X7. Converting twice is converting once: the instance returned by
    [toSmallestScale()] (or [toNormalScale()]) is already at that scale,
    so a second call returns that very object and leaves the store as it
    is. *)
Theorem X7_second_conversion_returns_its_receiver
  (h : heap) (v : loc) (x : t) (sc : ScaleTag) (cfg : BigValConfig) (D : Z) :
  is_bigval h v x sc cfg -> decimals cfg = Some D -> js_integer D ->
  (exists s h1, run (BigVal.toSmallestScale v) h = (Ok s, h1) /\
                run (BigVal.toSmallestScale s) h1 = (Ok s, h1)) /\
  (exists n h1, run (BigVal.toNormalScale v) h = (Ok n, h1) /\
                run (BigVal.toNormalScale n) h1 = (Ok n, h1)).
Proof.
  intros Hv Hd HD. split.
  - destruct (decide (sc = BigVal.SMALLEST)) as [->|Hsc].
    + exists v, h. split; by eapply BigValFacts.run_toSmallestScale_same.
    + destruct (BigValFacts.returns_toSmallestScale v D h x sc cfg Hv Hsc Hd HD)
        as (s & h1 & E & _ & _ & Hs).
      exists s, h1. split; [exact E|].
      by eapply BigValFacts.run_toSmallestScale_same.
  - destruct (decide (sc = BigVal.NORMAL)) as [->|Hsc].
    + exists v, h. split; by eapply BigValFacts.run_toNormalScale_same.
    + destruct (BigValFacts.returns_toNormalScale v D h x sc cfg Hv Hsc Hd HD)
        as (s & h1 & E & _ & _ & Hs).
      exists s, h1. split; [exact E|].
      by eapply BigValFacts.run_toNormalScale_same.
Qed.

Lemma X7_witness :
  exists s h1, run (BigVal.toSmallestScale 2%positive) store_normal = (Ok s, h1) /\
               run (BigVal.toSmallestScale s) h1 = (Ok s, h1).
Proof.
  apply (X7_second_conversion_returns_its_receiver store_normal 2%positive
           (Fin false 1234 (-1)) BigVal.NORMAL {| decimals := Some 2 |} 2).
  - exists 1%positive. split; reflexivity.
  - reflexivity.
  - unfold js_integer. vm_compute. reflexivity.
Defined.

(** X8. A configuration without [decimals] supports no conversion: on an
    instance that is not already at the target scale [toSmallestScale()],
    [toNormalScale()] and [toScale] throw the engine's
    [Invalid argument: undefined]; an instance already at the target
    scale is returned as it is, the configuration not being looked at. *)
Theorem X8_conversion_needs_decimals
  (h : heap) (v : loc) (x : t) (sc : ScaleTag) (cfg : BigValConfig) :
  is_bigval h v x sc cfg -> decimals cfg = None ->
  (sc <> BigVal.SMALLEST ->
   throws (BigVal.toSmallestScale v) h (DecimalError "undefined") /\
   throws (BigVal.toScale v BigVal.SMALLEST) h (DecimalError "undefined")) /\
  (sc <> BigVal.NORMAL ->
   throws (BigVal.toNormalScale v) h (DecimalError "undefined") /\
   throws (BigVal.toScale v BigVal.NORMAL) h (DecimalError "undefined")) /\
  (sc = BigVal.SMALLEST -> run (BigVal.toSmallestScale v) h = (Ok v, h)) /\
  (sc = BigVal.NORMAL -> run (BigVal.toNormalScale v) h = (Ok v, h)).
Proof.
  intros Hv Hd. split; [|split; [|split]].
  - intros Hsc. split; by eapply BigValFacts.throws_toSmallestScale_undefined.
  - intros Hsc. split; by eapply BigValFacts.throws_toNormalScale_undefined.
  - intros ->. by eapply BigValFacts.run_toSmallestScale_same.
  - intros ->. by eapply BigValFacts.run_toNormalScale_same.
Qed.

Lemma X8_witness :
  throws (BigVal.toSmallestScale 2%positive)
         (<[2%positive := CBigVal 1 BigVal.NORMAL {| decimals := None |}]>
            (<[1%positive := CDecimal (Fin false 1 0)]> ∅))
         (DecimalError "undefined").
Proof.
  apply (X8_conversion_needs_decimals
           (<[2%positive := CBigVal 1 BigVal.NORMAL {| decimals := None |}]>
              (<[1%positive := CDecimal (Fin false 1 0)]> ∅))
           2%positive (Fin false 1 0) BigVal.NORMAL {| decimals := None |}).
  - exists 1%positive. split; reflexivity.
  - reflexivity.
  - discriminate.
Defined.

(** X9. [round()] returns a new instance with the receiver's scale and
    configuration whose magnitude is the whole number nearest to the
    receiver's magnitude [c * 10^e], the one larger in magnitude at a
    tie, with the receiver's sign (a zero result is unsigned): writing
    the magnitude as the fraction [X / p] with [p] a power of ten, the
    result [q] satisfies [X/p - 1/2 < q <= X/p + 1/2]. The receiver is
    not changed. *)
Theorem X9_round_nearest_whole
  (h : heap) (v : loc) (s : bool) (c : N) (e : Z)
  (sc : ScaleTag) (cfg : BigValConfig) :
  is_bigval h v (Fin s c e) sc cfg -> wf (Fin s c e) ->
  let X := Z.of_N c * 10 ^ Z.max 0 e in
  let p := 10 ^ Z.max 0 (- e) in
  let q := Z.of_N (units c e) in
  (2 * X < 2 * q * p + p /\ 2 * q * p <= 2 * X + p) /\
  returns (BigVal.round v) h
          (fun l h' => h !! l = None /\
                       is_bigval h' l (unsigned_zero (of_parts s (units c e) 0))
                                 sc cfg /\
                       is_bigval h' v (Fin s c e) sc cfg).
Proof.
  intros Hv Hwf X p q. split.
  - unfold X, p, q, units. destruct (Z.leb_spec 0 e) as [He|He].
    + rewrite Z.max_r, Z.max_l by lia.
      rewrite N2Z.inj_mul, N2Z.inj_pow, Z2N.id by lia.
      change (Z.of_N 10) with 10. change (10 ^ 0) with 1. lia.
    + rewrite Z.max_l, Z.max_r by lia.
      destruct (RoundFacts.round_half_up_near 10 c (Z.to_nat (- e)) ltac:(lia))
        as [H1 H2].
      rewrite Z_nat_N in H1, H2.
      assert (Hp : Z.of_N (10 ^ Z.to_N (- e)) = 10 ^ (- e)).
      { rewrite N2Z.inj_pow, Z2N.id by lia. done. }
      rewrite <- Hp, Z.mul_1_r. lia.
  - eapply SpecFacts.returns_mono;
      [by apply RoundMethodFacts.returns_round|].
    intros l h' Hs [Hl0 Hl]. split; [done|].
    split; [|by eapply FrameFacts.is_bigval_weaken].
    unfold toDecimalPlaces in Hl.
    by rewrite RoundFacts.round_places_units in Hl.
Qed.

Lemma X9_witness :
  returns (BigVal.round 2%positive) store_normal
          (fun l h' => store_normal !! l = None /\
                       is_bigval h' l (unsigned_zero (of_parts false (units 1234 (-1)) 0))
                                 BigVal.NORMAL {| decimals := Some 2 |} /\
                       is_bigval h' 2%positive (Fin false 1234 (-1))
                                 BigVal.NORMAL {| decimals := Some 2 |}).
Proof.
  apply (X9_round_nearest_whole store_normal 2%positive false 1234 (-1)).
  - exists 1%positive. split; reflexivity.
  - right. split; [done|]. split; [done|]. vm_compute. split; discriminate.
Defined.

(** X10. Rounding twice is rounding once: the magnitude of
    [v.round().round()] is that of [v.round()], a value without fraction
    digits; and a receiver whose magnitude has no fraction digits is
    rounded to the same magnitude. *)
Theorem X10_round_is_idempotent
  (h : heap) (v : loc) (x : t) (sc : ScaleTag) (cfg : BigValConfig) :
  is_bigval h v x sc cfg -> wf x ->
  returns (a ← BigVal.round v;
           b ← BigVal.round a;
           xa ← magnitude_of a;
           xb ← magnitude_of b;
           mret (xa, xb)) h
          (fun r _ => r.1 = r.2 /\ whole r.1) /\
  (whole x ->
   returns (BigVal.round v) h
           (fun l h' => is_bigval h' l (unsigned_zero x) sc cfg)).
Proof.
  intros Hv Hwf.
  assert (Hw : whole (unsigned_zero (toDecimalPlaces x 0))).
  { by apply RoundFacts.unsigned_zero_whole, RoundFacts.round_places_whole. }
  split.
  - eapply SpecFacts.returns_bind; [by apply RoundMethodFacts.returns_round|].
    intros a h1 Hs1 [_ Ha].
    eapply SpecFacts.returns_bind.
    { apply (RoundMethodFacts.returns_round a h1 _ sc cfg Ha).
      by apply EngineFacts.unsigned_zero_wf, RoundFacts.round_places_wf. }
    intros b h2 Hs2 [_ Hb].
    eapply SpecFacts.returns_bind;
      [eapply RoundMethodFacts.returns_magnitude_of;
       by eapply FrameFacts.is_bigval_weaken|].
    intros xa h3 _ [-> ->].
    eapply SpecFacts.returns_bind;
      [by eapply RoundMethodFacts.returns_magnitude_of|].
    intros xb h3 _ [-> ->].
    apply SpecFacts.returns_ret. cbn [fst snd]. split; [|exact Hw].
    unfold toDecimalPlaces.
    rewrite (RoundFacts.round_places_of_whole
               (unsigned_zero (round_places x 0))) by exact Hw.
    by rewrite EngineFacts.unsigned_zero_idem.
  - intros Hx. eapply SpecFacts.returns_mono;
      [by apply RoundMethodFacts.returns_round|].
    intros l h' _ [_ Hl]. unfold toDecimalPlaces in Hl.
    by rewrite RoundFacts.round_places_of_whole in Hl.
Qed.

Lemma X10_witness :
  returns (a ← BigVal.round 2%positive;
           b ← BigVal.round a;
           xa ← magnitude_of a;
           xb ← magnitude_of b;
           mret (xa, xb)) store_normal
          (fun r _ => r.1 = r.2 /\ whole r.1).
Proof.
  apply (X10_round_is_idempotent store_normal 2%positive (Fin false 1234 (-1))
           BigVal.NORMAL {| decimals := Some 2 |}).
  - exists 1%positive. split; reflexivity.
  - right. split; [done|]. split; [done|]. vm_compute. split; discriminate.
Defined.

(** X11. In the revision with string tags, [toScale] rejects every tag
    other than ['min'] and ['coins'] before it looks at the receiver: a
    tag that is no property of the [SCALE] table with [Invalid scale],
    and a name the table inherits from [Object.prototype], such as
    ['constructor'], with [Unrecognized scale]; these inherited names are
    the only way into the [default] branch of the switch. *)
Theorem X11_string_toScale_rejections (h : heap) (v : loc) (tag : ScaleTag) :
  (StringScales.SCALE_has tag = false ->
   run (StringScales.toScale v tag) h = (Throw (InvalidScale tag), h)) /\
  (StringScales.SCALE_has tag = true ->
   tag <> StringScales.min -> tag <> StringScales.coins ->
   run (StringScales.toScale v tag) h = (Throw (UnrecognizedScale tag), h) /\
   exists k, tag = StrTag k /\ In k StringScales.inherited) /\
  run (StringScales.toScale v (StrTag "constructor")) h
  = (Throw (UnrecognizedScale (StrTag "constructor")), h).
Proof.
  split; [|split].
  - intros Hs. unfold run, StringScales.toScale, StringScales.assertValidScale,
      mbind, M_bind, bind. by rewrite Hs.
  - intros Hs Hm Hc. split.
    + unfold run, StringScales.toScale, StringScales.assertValidScale,
        mbind, M_bind, bind. rewrite Hs. cbn.
      destruct tag as [z|k]; [done|]. clear Hs.
      RevisionFacts.crack k 6%nat.
    + destruct tag as [z|k]; [done|]. exists k. split; [done|].
      cbn [StringScales.SCALE_has] in Hs.
      destruct (String.eqb k "coins") eqn:E1;
        [apply String.eqb_eq in E1; by subst|].
      destruct (String.eqb k "min") eqn:E2;
        [apply String.eqb_eq in E2; by subst|].
      cbn [orb] in Hs. apply existsb_exists in Hs as (k' & Hin & Hk').
      by apply String.eqb_eq in Hk' as ->.
  - reflexivity.
Qed.

(** X12. In the revision with string tags every conversion returns a new
    instance, also when the receiver is already at the target scale: a
    receiver tagged ['min'] is copied by [toMinScale()], any other
    receiver is multiplied by [10^decimals] and the result tagged
    ['min']; [toCoinScale()] copies a receiver tagged ['coins'], divides
    any other and tags the result ['coins']. The receiver is left as it
    was. *)
Theorem X12_string_conversions_return_new_instances
  (h : heap) (v : loc) (x : t) (sc : ScaleTag) (cfg : BigValConfig) (D : Z) :
  is_bigval h v x sc cfg -> wf x -> StringScales.SCALE_has sc = true ->
  decimals cfg = Some D -> js_integer D ->
  returns (StringScales.toMinScale v) h
          (fun l h' => h !! l = None /\ l <> v /\
                       is_bigval h' l
                         (unsigned_zero (if decide (sc = StringScales.min) then x
                                         else times x (pow10 D)))
                         StringScales.min cfg /\
                       is_bigval h' v x sc cfg) /\
  returns (StringScales.toCoinScale v) h
          (fun l h' => h !! l = None /\ l <> v /\
                       is_bigval h' l
                         (unsigned_zero (if decide (sc = StringScales.coins) then x
                                         else div x (pow10 D)))
                         StringScales.coins cfg /\
                       is_bigval h' v x sc cfg).
Proof.
  intros Hv Hwf Hsc Hd HD.
  assert (Hfresh : forall l, h !! l = None -> l <> v).
  { intros l Hl ->. destruct Hv as (n & Hv & _). congruence. }
  split.
  - destruct (decide (sc = StringScales.min)) as [->|Hne].
    + eapply SpecFacts.returns_mono;
        [by apply RevisionFacts.returns_toMinScale_copy|].
      intros l h' Hs [Hl0 Hl]. split; [done|]. split; [by apply Hfresh|].
      split; [done|by eapply FrameFacts.is_bigval_weaken].
    + eapply SpecFacts.returns_mono;
        [by eapply RevisionFacts.returns_toMinScale_scaled|].
      intros l h' Hs [Hl0 Hl]. split; [done|]. split; [by apply Hfresh|].
      split; [done|by eapply FrameFacts.is_bigval_weaken].
  - destruct (decide (sc = StringScales.coins)) as [->|Hne].
    + eapply SpecFacts.returns_mono;
        [by apply RevisionFacts.returns_toCoinScale_copy|].
      intros l h' Hs [Hl0 Hl]. split; [done|]. split; [by apply Hfresh|].
      split; [done|by eapply FrameFacts.is_bigval_weaken].
    + eapply SpecFacts.returns_mono;
        [by eapply RevisionFacts.returns_toCoinScale_scaled|].
      intros l h' Hs [Hl0 Hl]. split; [done|]. split; [by apply Hfresh|].
      split; [done|by eapply FrameFacts.is_bigval_weaken].
Qed.

Lemma X12_witness :
  returns (StringScales.toCoinScale 2%positive) store_coins
          (fun l h' => store_coins !! l = None /\ l <> 2%positive /\
                       is_bigval h' l (unsigned_zero (Fin false 1234 (-1)))
                                 StringScales.coins {| decimals := Some 2 |} /\
                       is_bigval h' 2%positive (Fin false 1234 (-1))
                                 StringScales.coins {| decimals := Some 2 |}).
Proof.
  apply (X12_string_conversions_return_new_instances store_coins 2%positive
           (Fin false 1234 (-1)) StringScales.coins {| decimals := Some 2 |} 2).
  - exists 1%positive. split; reflexivity.
  - right. split; [done|]. split; [done|]. vm_compute. split; discriminate.
  - reflexivity.
  - reflexivity.
  - unfold js_integer. vm_compute. reflexivity.
Defined.



(** X14. In the revision with string tags the arithmetic and comparison
    closures hand their operand to [toDecimal] as it is: an operand that
    is an instance contributes its magnitude unconverted, whatever its
    scale and configuration, and the result carries the receiver's scale
    and configuration. *)
Theorem X14_string_revision_takes_operand_unconverted
  (h : heap) (r v : loc) (xr xv : t) (sr sv : ScaleTag) (cr cv : BigValConfig) :
  is_bigval h r xr sr cr -> StringScales.SCALE_has sr = true ->
  is_bigval h v xv sv cv -> wf xv ->
  (forall m : arith,
      returns (StringScales.arith_method m r (JBigVal v)) h
              (fun l h' => h !! l = None /\
                           is_bigval h' l
                             (unsigned_zero (apply_arith m xr (unsigned_zero xv)))
                             sr cr)) /\
  (forall m : compare,
      returns (StringScales.compare_method m r (JBigVal v)) h
              (fun b _ => b = apply_compare m xr (unsigned_zero xv))).
Proof.
  intros Hr Hsr Hv Hwf.
  assert (Hop : returns (toDecimal (JBigVal v)) h
                        (fun y h1 => h1 !! y = Some (CDecimal (unsigned_zero xv)))).
  { eapply SpecFacts.returns_mono;
      [by eapply RevisionFacts.returns_toDecimal_bigval|].
    by intros n h1 _ [_ ?]. }
  split; intros m.
  - by eapply RevisionFacts.returns_arith_operand.
  - by eapply RevisionFacts.returns_compare_operand.
Qed.

Lemma X14_witness :
  returns (StringScales.compare_method Eq 2%positive (JBigVal 2%positive))
          store_coins
          (fun b _ => b = apply_compare Eq (Fin false 1234 (-1))
                                        (unsigned_zero (Fin false 1234 (-1)))).
Proof.
  destruct (X14_string_revision_takes_operand_unconverted store_coins
              2%positive 2%positive (Fin false 1234 (-1)) (Fin false 1234 (-1))
              StringScales.coins StringScales.coins
              {| decimals := Some 2 |} {| decimals := Some 2 |}) as [_ H].
  - exists 1%positive. split; reflexivity.
  - reflexivity.
  - exists 1%positive. split; reflexivity.
  - right. split; [done|]. split; [done|]. vm_compute. split; discriminate.
  - apply (H Eq).
Defined.

(** X15. In the revision with string tags the scale of every instance is
    a name [assertValidScale] accepts, and the constructor, [fromStr],
    the arithmetic closures, the conversions, [round] and [minStr] keep
    it so, whatever their arguments and outcome; hence [isBigVal]
    answers [true] for every instance the class has built. *)
Theorem X15_string_revision_keeps_tags_valid (h : heap) :
  tags_ok h ->
  (forall src scale config,
      tags_ok (run (StringScales.new src scale config) h).2) /\
  (forall s config, tags_ok (run (StringScales.fromStr s config) h).2) /\
  (forall m this v, tags_ok (run (StringScales.arith_method m this v) h).2) /\
  (forall this, tags_ok (run (StringScales.toMinScale this) h).2) /\
  (forall this, tags_ok (run (StringScales.toCoinScale this) h).2) /\
  (forall this scale, tags_ok (run (StringScales.toScale this scale) h).2) /\
  (forall this, tags_ok (run (StringScales.round this) h).2) /\
  (forall v config, tags_ok (run (StringScales.minStr v config) h).2) /\
  (forall l x sc cfg,
      is_bigval h l x sc cfg ->
      StringScales.SCALE_has sc = true /\
      run (StringScales.isBigVal (JBigVal l)) h = (Ok true, h)).
Proof.
  intros Hok. repeat split; intros.
  - by apply TagFacts.keeps_tags_new.
  - by apply TagFacts.keeps_tags_fromStr.
  - by apply TagFacts.keeps_tags_arith_method.
  - by apply TagFacts.keeps_tags_toMinScale.
  - by apply TagFacts.keeps_tags_toCoinScale.
  - by apply TagFacts.keeps_tags_toScale.
  - by apply TagFacts.keeps_tags_round.
  - by apply TagFacts.keeps_tags_minStr.
  - destruct H as (n & Hl & _). by apply (Hok l _ Hl).
  - by eapply TagFacts.isBigVal_instance.
Qed.

Lemma X15_witness :
  run (StringScales.isBigVal (JBigVal 2%positive)) store_coins
  = (Ok true, store_coins).
Proof.
  apply (X15_string_revision_keeps_tags_valid store_coins)
    with (x := Fin false 1234 (-1)) (sc := StringScales.coins)
         (cfg := {| decimals := Some 2 |}).
  - apply TagFacts.tags_ok_insert; [|reflexivity].
    apply TagFacts.tags_ok_insert; [|exact I]. apply TagFacts.tags_ok_empty.
  - exists 1%positive. split; reflexivity.
Defined.

(** X16. [fromStr] splits its argument at every single blank and does
    not trim it: ["<number> <name>"] is [from(<number>, <name>)] and
    ["<number>"] alone is [from(<number>)] at the default scale; a leading
    blank makes the number the empty string, which the engine rejects,
    and a second blank between number and name makes the scale the empty
    string, which [assertValidScale] rejects. *)
Theorem X16_fromStr_splits_at_blanks
  (number name : string) (config : option BigValConfig) :
  clean_token number -> clean_token name ->
  StringScales.fromStr (number +:+ " " +:+ name) config
  = StringScales.from (JStr number) (Some (StrTag name)) config /\
  StringScales.fromStr number config
  = StringScales.from (JStr number) None config /\
  (forall rest h,
      run (StringScales.fromStr (" " +:+ rest) config) h
      = (Throw (DecimalError ""), h)) /\
  (forall h d, parse number = Parsed d ->
      throws (StringScales.fromStr (number +:+ " " +:+ " " +:+ name) config) h
             (InvalidScale (StrTag ""))).
Proof.
  intros Hnum Hname. split; [|split; [|split]].
  - unfold StringScales.fromStr. by rewrite SplitFacts.split_space_two.
  - unfold StringScales.fromStr. by rewrite SplitFacts.split_space_token.
  - intros rest h. unfold StringScales.fromStr.
    rewrite SplitFacts.split_space_leading. reflexivity.
  - intros h d Hp. unfold StringScales.fromStr.
    destruct Hnum as [_ Hn].
    rewrite SplitFacts.split_space_cons, SplitFacts.split_space_leading by done.
    cbn [lookup list_lookup fmap option_fmap option_map StringScales.arg].
    apply (StringScalesFacts.throws_new_invalid (JStr number) (StrTag "") config h d);
      [done| |done].
    eapply SpecFacts.returns_mono; [by apply SpecFacts.returns_toDecimal_str|].
    by intros n h1 _ [_ ?].
Qed.

Lemma X16_witness :
  StringScales.fromStr "123.4 coins" None
  = StringScales.from (JStr "123.4") (Some (StrTag "coins")) None.
Proof.
  apply (X16_fromStr_splits_at_blanks "123.4" "coins" None).
  - split; [discriminate|]. repeat constructor.
  - split; [discriminate|]. repeat constructor.
Defined.


(** X18. In the revision of the class with string tags and aligned
    operands, [toMinScale()] on a receiver that is not tagged ['min']
    returns a new instance holding the magnitude multiplied by
    [10^decimals] but tagged ['coins']; so the result is taken for
    unconverted, and converting it again multiplies it again. *)
Theorem X18_second_revision_toMinScale_tags_coins
  (h : heap) (v : loc) (x : t) (sc : ScaleTag) (cfg : BigValConfig) (D : Z) :
  is_bigval h v x sc cfg -> StringScales.SCALE_has sc = true ->
  sc <> StringScales.min -> decimals cfg = Some D -> js_integer D ->
  returns (StringScalesAligned.toMinScale v) h
          (fun l h' => h !! l = None /\
                       is_bigval h' l (unsigned_zero (times x (pow10 D)))
                                 StringScales.coins cfg) /\
  returns (a ← StringScalesAligned.toMinScale v;
           StringScalesAligned.toMinScale a) h
          (fun l h' => is_bigval h' l
                         (unsigned_zero
                            (times (unsigned_zero (times x (pow10 D))) (pow10 D)))
                         StringScales.coins cfg).
Proof.
  intros Hv Hs Hsc Hd HD. split.
  - by eapply AlignedFacts.returns_toMinScale.
  - eapply SpecFacts.returns_bind; [by eapply AlignedFacts.returns_toMinScale|].
    intros a h1 _ [_ Ha].
    eapply SpecFacts.returns_mono;
      [by eapply (AlignedFacts.returns_toMinScale a D h1)|].
    by intros l h2 _ [_ ?].
Qed.

Lemma X18_witness :
  returns (StringScalesAligned.toMinScale 2%positive) store_coins
          (fun l h' => store_coins !! l = None /\
                       is_bigval h' l
                         (unsigned_zero (times (Fin false 1234 (-1)) (pow10 2)))
                         StringScales.coins {| decimals := Some 2 |}).
Proof.
  apply (X18_second_revision_toMinScale_tags_coins store_coins 2%positive
           (Fin false 1234 (-1)) StringScales.coins {| decimals := Some 2 |} 2).
  - exists 1%positive. split; reflexivity.
  - reflexivity.
  - discriminate.
  - reflexivity.
  - unfold js_integer. vm_compute. reflexivity.
Defined.

(** X19. In that revision the wrong tag does not reach the arithmetic:
    an operand tagged ['coins'] is still multiplied by [10^decimals] (its
    own [decimals]) before it is combined with or compared to a receiver
    tagged ['min'], and an operand tagged ['min'] is divided for a
    receiver tagged ['coins'], because only the magnitude of the
    converted operand is read. *)
Theorem X19_second_revision_aligns_operands
  (h : heap) (r v : loc) (xr xv : t) (cr cv : BigValConfig) (D : Z) :
  decimals cv = Some D -> js_integer D ->
  (is_bigval h r xr StringScales.min cr ->
   is_bigval h v xv StringScales.coins cv ->
   (forall m : arith,
       returns (StringScalesAligned.arith_method m r (JBigVal v)) h
               (fun l h' => h !! l = None /\
                            is_bigval h' l
                              (unsigned_zero
                                 (apply_arith m xr
                                    (unsigned_zero (times xv (pow10 D)))))
                              StringScales.min cr)) /\
   (forall m : compare,
       returns (StringScalesAligned.compare_method m r (JBigVal v)) h
               (fun b _ => b = apply_compare m xr
                                 (unsigned_zero (times xv (pow10 D)))))) /\
  (is_bigval h r xr StringScales.coins cr ->
   is_bigval h v xv StringScales.min cv ->
   (forall m : arith,
       returns (StringScalesAligned.arith_method m r (JBigVal v)) h
               (fun l h' => h !! l = None /\
                            is_bigval h' l
                              (unsigned_zero
                                 (apply_arith m xr
                                    (unsigned_zero (div xv (pow10 D)))))
                              StringScales.coins cr)) /\
   (forall m : compare,
       returns (StringScalesAligned.compare_method m r (JBigVal v)) h
               (fun b _ => b = apply_compare m xr
                                 (unsigned_zero (div xv (pow10 D)))))).
Proof.
  intros Hd HD. split; intros Hr Hv.
  - assert (Hop : returns (StringScalesAligned.toDecimalAtOriginalScale (JBigVal v) r) h
                    (fun n h' => h' !! n
                                 = Some (CDecimal (unsigned_zero (times xv (pow10 D)))))).
    { eapply (AlignedFacts.returns_operand r v StringScales.min); [done..|].
      eapply SpecFacts.returns_mono;
        [by eapply (AlignedFacts.returns_toMinScale v D)|].
      intros l h' _ [_ Hl]. by exists StringScales.coins. }
    split; intros m.
    + by eapply AlignedFacts.returns_aligned_arith_core.
    + by eapply AlignedFacts.returns_aligned_compare_core.
  - assert (Hop : returns (StringScalesAligned.toDecimalAtOriginalScale (JBigVal v) r) h
                    (fun n h' => h' !! n
                                 = Some (CDecimal (unsigned_zero (div xv (pow10 D)))))).
    { eapply (AlignedFacts.returns_operand r v StringScales.coins); [done..|].
      eapply SpecFacts.returns_mono;
        [by eapply (AlignedFacts.returns_toCoinsScale v D)|].
      intros l h' _ [_ Hl]. by exists StringScales.coins. }
    split; intros m.
    + by eapply AlignedFacts.returns_aligned_arith_core.
    + by eapply AlignedFacts.returns_aligned_compare_core.
Qed.

Lemma X19_witness :
  returns (StringScalesAligned.arith_method Add 2%positive (JBigVal 4%positive))
          store_tagged
          (fun l h' => store_tagged !! l = None /\
                       is_bigval h' l
                         (unsigned_zero
                            (plus (Fin false 5 0)
                                  (unsigned_zero (times (Fin false 1 0) (pow10 18)))))
                         StringScales.min StringScales.DefaultBigValConfig).
Proof.
  destruct (X19_second_revision_aligns_operands store_tagged 2%positive 4%positive
              (Fin false 5 0) (Fin false 1 0) StringScales.DefaultBigValConfig
              StringScales.DefaultBigValConfig 18) as [H _].
  - reflexivity.
  - unfold js_integer. vm_compute. reflexivity.
  - destruct H as [H _].
    + exists 1%positive. split; reflexivity.
    + exists 3%positive. split; reflexivity.
    + apply (H Add).
Defined.

(** X20. For an instance whose magnitude is a whole number, not zero,
    with at most 20 hexadecimal digits, [toString(16)] is the minus sign
    if the magnitude is negative, the prefix ["0x"] and the hexadecimal
    digits of the magnitude, digit for digit; handed back to the
    constructor with the instance's scale and configuration it gives a new
    instance with the same magnitude. *)
Theorem X20_hexadecimal_round_trip
  (h : heap) (v : loc) (s : bool) (c : N) (e : Z)
  (sc : ScaleTag) (cfg : BigValConfig) :
  is_bigval h v (Fin s c e) sc cfg -> wf (Fin s c e) ->
  c <> 0%N -> 0 <= e ->
  (Digits.ndigits 16 (c * 10 ^ Z.to_N e) <= 20)%nat ->
  let text := string_of_list_ascii
                ((if s then ["-"%char] else [])
                 ++ "0"%char :: "x"%char :: Digits.render 16 (c * 10 ^ Z.to_N e)) in
  run (BigVal.toString v 16) h = (Ok text, h) /\
  returns (str ← BigVal.toString v 16;
           BigVal.new (JStr str) (Some sc) (Some cfg)) h
          (fun l h' => h !! l = None /\ is_bigval h' l (Fin s c e) sc cfg).
Proof.
  intros Hv Hwf Hc He Hlen text.
  assert (Hrun : run (BigVal.toString v 16) h = (Ok text, h)).
  { destruct Hv as (n & Hl & Hn).
    unfold run, BigVal.toString, toString_of, read_bigval, read_decimal, read,
      mbind, M_bind, bind.
    rewrite Hl. cbn -[toHexadecimal]. rewrite Hn. cbn -[toHexadecimal].
    by rewrite RadixParseFacts.toHexadecimal_whole. }
  split; [exact Hrun|].
  eapply SpecFacts.returns_bind.
  { exists text, h. split; [exact Hrun|]. split; [done|].
    instantiate (1 := fun str h' => str = text /\ h' = h). done. }
  intros str h1 _ [-> ->].
  apply (OperandFacts.returns_new_fresh (JStr text) (Some sc) (Some cfg)); [done|].
  apply OperandFacts.returns_toDecimal_value, SpecFacts.returns_toDecimal_str.
  unfold parse, text. rewrite list_ascii_of_string_of_list_ascii.
  rewrite RadixParseFacts.parse_chars_hex.
  - f_equal. rewrite <- (Z2Nat.id e) in Hwf by lia.
    rewrite <- Z_nat_N.
    rewrite EngineFacts.of_parts_mul_pow; [|done|by rewrite Z.add_0_l].
    by rewrite Z.add_0_l, Z2Nat.id by lia.
  - apply N.neq_mul_0. split; [done|]. apply N.pow_nonzero. lia.
Qed.

Lemma X20_witness :
  run (BigVal.toString 2%positive 16) store_negative
  = (Ok "-0x5"%string, store_negative).
Proof.
  apply (X20_hexadecimal_round_trip store_negative 2%positive true 5 0
           BigVal.SMALLEST BigVal.default_config).
  - exists 1%positive. split; reflexivity.
  - right. split; [done|]. split; [done|]. vm_compute. split; discriminate.
  - discriminate.
  - lia.
  - vm_compute. lia.
Defined.

(** X21. For an instance whose magnitude is a whole number, not zero,
    with at most 20 binary digits, [toString(2)] is the binary expansion
    of the magnitude, digit for digit, without prefix and without sign. *)
Theorem X21_binary_digits_of_whole_numbers
  (h : heap) (v : loc) (s : bool) (c : N) (e : Z)
  (sc : ScaleTag) (cfg : BigValConfig) :
  is_bigval h v (Fin s c e) sc cfg -> c <> 0%N -> 0 <= e ->
  (Digits.ndigits 2 (c * 10 ^ Z.to_N e) <= 20)%nat ->
  run (BigVal.toString v 2) h
  = (Ok (string_of_list_ascii (Digits.render 2 (c * 10 ^ Z.to_N e))), h).
Proof.
  intros (n & Hl & Hn) Hc He Hlen.
  unfold run, BigVal.toString, toString_of, read_bigval, read_decimal, read,
    mbind, M_bind, bind.
  rewrite Hl. cbn -[toBinary JsString.substr JsString.indexOf].
  rewrite Hn. cbn -[toBinary JsString.substr JsString.indexOf].
  assert (Hb : base_body 2 c e = Digits.render 2 (c * 10 ^ Z.to_N e)).
  { unfold base_body. rewrite (proj2 (N.eqb_neq c 0) Hc).
    apply RadixFacts.base_chars_whole; (done || lia). }
  destruct s.
  - by rewrite FormatFacts.strip_b_negative, Hb.
  - by rewrite RadixParseFacts.strip_b_positive, Hb.
Qed.

Lemma X21_witness :
  run (BigVal.toString 2%positive 2) store_negative
  = (Ok "101"%string, store_negative).
Proof.
  apply (X21_binary_digits_of_whole_numbers store_negative 2%positive true 5 0
           BigVal.SMALLEST BigVal.default_config).
  - exists 1%positive. split; reflexivity.
  - discriminate.
  - lia.
  - vm_compute. lia.
Defined.



(** X23. Besides the arithmetic and comparison methods, every other
    method of the class leaves every object of the store as it was, for
    every receiver, argument and outcome: the constructor, [scaleDown],
    [scaleUp] and [round] only add objects and return an object the store
    did not hold; [toSmallestScale], [toNormalScale] and [toScale] only
    add objects and return their receiver or an object the store did not
    hold; [toString] and [toFixed] do not touch the store at all. *)
Theorem X23_remaining_methods_are_immutable (h : heap) (this : loc) :
  (forall src scale config,
      preserves (BigVal.new src scale config) h /\
      fresh_result (BigVal.new src scale config) h) /\
  (forall v, preserves (BigVal.scaleDown this v) h /\
             fresh_result (BigVal.scaleDown this v) h /\
             preserves (BigVal.scaleUp this v) h /\
             fresh_result (BigVal.scaleUp this v) h) /\
  (preserves (BigVal.round this) h /\ fresh_result (BigVal.round this) h) /\
  (preserves (BigVal.toSmallestScale this) h /\
   self_or_new (BigVal.toSmallestScale this) h this) /\
  (preserves (BigVal.toNormalScale this) h /\
   self_or_new (BigVal.toNormalScale this) h this) /\
  (forall scale, preserves (BigVal.toScale this scale) h /\
                 self_or_new (BigVal.toScale this scale) h this) /\
  (forall base, (run (BigVal.toString this base) h).2 = h) /\
  (forall dp, (run (BigVal.toFixed this dp) h).2 = h).
Proof.
  split.
  { intros src scale config. split.
    - apply MethodFrameFacts.grows_preserves, FrameFacts.grows_new.
    - apply FrameFacts.allocates_new. }
  split.
  { intros v. split; [|split; [|split]].
    - apply MethodFrameFacts.grows_preserves, FrameFacts.grows_scaleDown.
    - apply FrameFacts.allocates_scaleDown.
    - apply MethodFrameFacts.grows_preserves, FrameFacts.grows_scaleUp.
    - apply FrameFacts.allocates_scaleUp. }
  split.
  { split.
    - apply MethodFrameFacts.grows_preserves, MethodFrameFacts.grows_round.
    - apply MethodFrameFacts.allocates_round. }
  split.
  { split.
    - apply MethodFrameFacts.grows_preserves, FrameFacts.grows_toSmallestScale.
    - apply MethodFrameFacts.self_or_new_toSmallestScale. }
  split.
  { split.
    - apply MethodFrameFacts.grows_preserves, FrameFacts.grows_toNormalScale.
    - apply MethodFrameFacts.self_or_new_toNormalScale. }
  split.
  { intros scale. split.
    - apply MethodFrameFacts.grows_preserves, FrameFacts.grows_toScale.
    - unfold BigVal.toScale. destruct scale as [[|[]|]|]; try exact I.
      + apply MethodFrameFacts.self_or_new_toSmallestScale.
      + apply MethodFrameFacts.self_or_new_toNormalScale. }
  split.
  { intros base. exact (MethodFrameFacts.toString_of_pure this base h). }
  intros dp. exact (MethodFrameFacts.toFixed_of_pure this dp h).
Qed.



(** X25. No arithmetic result has more than 20 significant digits: for
    every receiver and operand, when [add], [sub], [mul], [div],
    [scaleDown] or [scaleUp] returns, the new instance's magnitude has at
    most 20 significant digits, the engine's precision, whereas the
    constructor keeps every digit it is given. So adding 1 to
    100000000000000000000 gives 100000000000000000000 again. *)
Theorem X25_arithmetic_results_have_20_digits (h : heap) (this : loc) :
  (forall (m : arith) (v : any),
      match run (BigVal.arith_method m this v) h with
      | (Ok l, h') => exists d sc cfg,
                        is_bigval h' l d sc cfg /\ (sig_digits d <= 20)%nat
      | (Throw _, _) => True
      end) /\
  (forall v : any,
      match run (BigVal.scaleDown this v) h with
      | (Ok l, h') => exists d sc cfg,
                        is_bigval h' l d sc cfg /\ (sig_digits d <= 20)%nat
      | (Throw _, _) => True
      end /\
      match run (BigVal.scaleUp this v) h with
      | (Ok l, h') => exists d sc cfg,
                        is_bigval h' l d sc cfg /\ (sig_digits d <= 20)%nat
      | (Throw _, _) => True
      end) /\
  (run (a ← BigVal.new (JStr "100000000000000000000") None None;
        x ← magnitude_of a;
        b ← BigVal.add a (JNum 1);
        s ← BigVal.toString b 10;
        mret (sig_digits x, s)) ∅).1
  = Ok (1%nat, "100000000000000000000"%string) /\
  (run (a ← BigVal.new (JStr "100000000000000000001") None None;
        x ← magnitude_of a;
        s ← BigVal.toString a 10;
        mret (sig_digits x, s)) ∅).1
  = Ok (21%nat, "100000000000000000001"%string).
Proof.
  assert (Hcore : forall m operand h0,
             match run (BigVal.arith_core m this operand) h0 with
             | (Ok l, h') => exists d sc cfg,
                               is_bigval h' l d sc cfg /\ (sig_digits d <= 20)%nat
             | (Throw _, _) => True
             end).
  { intros m operand h0.
    destruct (run (BigVal.arith_core m this operand) h0) as [[l|e] h'] eqn:E;
      [|done].
    destruct (ResultFacts.arith_core_result m this operand h0 l h' E)
      as (x & y & sc & cfg & Hl).
    exists (unsigned_zero (apply_arith m x y)), sc, cfg. split; [done|].
    rewrite PrecisionFacts.unsigned_zero_digits.
    apply PrecisionFacts.apply_arith_digits. }
  split; [intros m v; apply Hcore|]. split; [|split; vm_compute; reflexivity].
  intros v. split.
  - unfold BigVal.scaleDown. rewrite StoreFacts.run_bind.
    destruct (run (ten_pow v) h) as [[p|e] h1]; [apply Hcore|done].
  - unfold BigVal.scaleUp. rewrite StoreFacts.run_bind.
    destruct (run (ten_pow v) h) as [[p|e] h1]; [apply Hcore|done].
Qed.

(** X26. Dividing by zero does not throw. For a receiver that holds a
    non-zero finite number or an infinity, [div(0)] returns a new instance
    that holds the infinity of the receiver's sign and prints as
    "Infinity" or "-Infinity"; for a receiver that holds zero or NaN the
    new instance holds NaN and prints as "NaN". An instance that holds NaN
    answers false to [gt], [gte], [lt], [lte] and [eq] against every
    integer. *)
Theorem X26_division_by_zero_returns
  (h : heap) (r : loc) (x : t) (sc : ScaleTag) (cfg : BigValConfig) :
  is_bigval h r x sc cfg ->
  let q := match x with
           | NaN => NaN
           | Inf s => Inf s
           | Fin s c _ => if N.eqb c 0 then NaN else Inf s
           end in
  returns (BigVal.div r (JNum 0)) h
          (fun l h' => h !! l = None /\ is_bigval h' l q sc cfg) /\
  returns (l ← BigVal.div r (JNum 0); BigVal.toString l 10) h
          (fun s _ => s = match q with
                          | Inf true => "-Infinity"
                          | Inf false => "Infinity"
                          | _ => "NaN"
                          end%string) /\
  (x = NaN ->
   forall (m : compare) (z : Z),
     returns (BigVal.compare_method m r (JNum z)) h (fun b _ => b = false)).
Proof.
  intros Hr q.
  assert (Hdiv : returns (BigVal.div r (JNum 0)) h
                   (fun l h' => h !! l = None /\ is_bigval h' l q sc cfg)).
  { eapply SpecFacts.returns_mono.
    - eapply (BigValFacts.returns_arith_core Div); [exact Hr|].
      apply OperandFacts.returns_toDecimal_value, SpecFacts.returns_toDecimal_num.
    - intros l h' _ [Hl Hb]. split; [done|].
      replace q with (unsigned_zero
                        (apply_arith Div x (of_parts (0 <? 0) (Z.abs_N 0) 0)));
        [done|].
      subst q. destruct x as [| s | s c e]; cbn; [done|by destruct s|].
      destruct (N.eqb c 0); [done|]. by destruct s. }
  split; [exact Hdiv|]. split.
  - eapply SpecFacts.returns_bind; [exact Hdiv|].
    intros l h1 _ [_ Hl].
    eapply SpecFacts.returns_mono;
      [by eapply (OperandFacts.returns_toString_of l 10)|].
    intros s h2 _ [-> _]. subst q.
    destruct x as [| [] | [] c e]; try done; by destruct (N.eqb c 0).
  - intros -> m z.
    eapply SpecFacts.returns_mono.
    + eapply (BigValFacts.returns_compare_core m); [exact Hr|].
      apply OperandFacts.returns_toDecimal_value, SpecFacts.returns_toDecimal_num.
    + intros b h' _ ->. by destruct m.
Qed.

Lemma X26_witness :
  returns (l ← BigVal.div 2%positive (JNum 0); BigVal.toString l 10)
          store_normal (fun s _ => s = "Infinity"%string).
Proof.
  destruct (X26_division_by_zero_returns store_normal 2%positive
              (Fin false 1234 (-1)) BigVal.NORMAL {| decimals := Some 2 |})
    as (_ & H & _).
  - exists 1%positive. split; reflexivity.
  - exact H.
Defined.
